(** * Memory-management simulator: block allocator and cache hierarchy

    A shallow embedding of the two engines of the simulator,

    - the block allocator of [allocator.cpp] (first/best/worst fit placement,
      block splitting, coalescing on free, statistics), and
    - the set-associative cache levels and the cache hierarchy of
      [cache/cache.cpp] (FIFO and LRU replacement, dirty bits and write-backs,
      latency accounting),

    and of the command splitter of the shell in [main.cpp], followed by the
    properties of the specification that are checked against them and by
    further properties of the code.

    Conventions of the embedding:
    - [size_t] is a 64-bit unsigned integer: a [Z] in [0, 2^64) whose
      arithmetic is written with [wrap];
    - [int] values (block ids, the free-block counter) are kept as
      mathematical integers: signed overflow is undefined in C++, so the model
      describes the executions in which it does not occur ([reachable_int]
      are the states of the runs whose id counter stays within [int]);
    - [double] is IEEE-754 binary64, modelled by [spec_float] with precision 53
      and maximal exponent 1024;
    - the doubly linked chain of [MemoryBlock] nodes is the list of its nodes in
      [next] order; a pointer into the chain is the position of its node, or
      the zipper (reversed predecessors, node, successors) when both
      directions are walked;
    - console output is not modelled. *)

From Stdlib Require Import ZArith Lia Bool String Ascii.
From Stdlib Require Import Floats.SpecFloat.
From stdpp Require Import base tactics option list numbers.

Open Scope Z_scope.

(** ** Machine arithmetic *)

Definition SIZE_MAX1 : Z := 2 ^ 64.

(** Reduction of a mathematical result to [size_t]. *)
Definition wrap (x : Z) : Z := x mod SIZE_MAX1.
Arguments wrap : simpl never.

Definition is_size_t (x : Z) : Prop := 0 <= x < SIZE_MAX1.

Definition is_int (x : Z) : Prop := - 2 ^ 31 <= x < 2 ^ 31.

(** The largest [int]. *)
Definition INT_MAX : Z := 2 ^ 31 - 1.

(** IEEE-754 binary64. *)
Definition double : Type := spec_float.
Definition dprec : Z := 53.
Definition demax : Z := 1024.

(** [(double)x] for an unsigned integer [x]: round to nearest, ties to even. *)
Definition double_of_size_t (x : Z) : double := binary_normalize dprec demax x 0 false.
Definition dsub : double -> double -> double := SFsub dprec demax.
Definition ddiv : double -> double -> double := SFdiv dprec demax.
Definition dmul : double -> double -> double := SFmul dprec demax.

(** The literals [0.0], [1.0], [100.0] and [60.0]. *)
Definition d0 : double := S754_zero false.
Definition d1 : double := double_of_size_t 1.
Definition d100 : double := double_of_size_t 100.
Definition d60 : double := double_of_size_t 60.

(** ** The block allocator *)

Module Alloc.

(** [struct MemoryBlock]; the [next]/[prev] links are the list order. *)
Record MemoryBlock : Type := mkBlock {
  address : Z;
  size : Z;
  is_free : bool;
  block_id : Z
}.

Inductive AllocationStrategy : Type := FIRST_FIT | BEST_FIT | WORST_FIT.

Record AllocationStats : Type := mkStats {
  total_memory : Z;
  used_memory : Z;
  free_memory : Z;
  num_allocations : Z;
  num_deallocations : Z;
  allocation_failures : Z;
  external_fragmentation : double
}.

(** [AllocationStats()] *)
Definition AllocationStats_new : AllocationStats := mkStats 0 0 0 0 0 0 d0.

(** [class Allocator]; [head = nullptr] is the empty chain. *)
Record Allocator : Type := mkAllocator {
  head : list MemoryBlock;
  total_size : Z;
  strategy : AllocationStrategy;
  next_block_id : Z;
  stats : AllocationStats
}.

(** [Allocator::Allocator()] *)
Definition Allocator_new : Allocator :=
  mkAllocator [] 0 FIRST_FIT 1 AllocationStats_new.

Definition set_stats (a : Allocator) (s : AllocationStats) : Allocator :=
  mkAllocator (head a) (total_size a) (strategy a) (next_block_id a) s.

(** [Allocator::initMemory]: the old chain is deleted, one free block covers
    the whole range. *)
Definition initMemory (a : Allocator) (sz : Z) : bool * Allocator :=
  (true,
   mkAllocator [mkBlock 0 sz true (-1)] sz (strategy a) 1
     (mkStats sz 0 sz 0 0 0 d0)).

(** [Allocator::setStrategy(AllocationStrategy)] *)
Definition setStrategy (a : Allocator) (strat : AllocationStrategy) : Allocator :=
  mkAllocator (head a) (total_size a) strat (next_block_id a) (stats a).

(** [Allocator::isInitialized] *)
Definition isInitialized (a : Allocator) : bool :=
  match head a with [] => false | _ => true end.

(** The test [current->is_free && current->size >= size] of the three
    searches. *)
Definition fits (sz : Z) (b : MemoryBlock) : bool := is_free b && (sz <=? size b).

(** [Allocator::firstFit]: [cur] is the rest of the chain to walk, [i] the
    position of its first node. The result is the node found and its
    position. *)
Fixpoint firstFit_from (cur : list MemoryBlock) (i : nat) (sz : Z)
  : option (nat * MemoryBlock) :=
  match cur with
  | [] => None
  | b :: rest => if fits sz b then Some (i, b) else firstFit_from rest (S i) sz
  end.

Definition firstFit (a : Allocator) (sz : Z) : option (nat * MemoryBlock) :=
  firstFit_from (head a) 0 sz.

(** [Allocator::bestFit]: [best] is the candidate so far. *)
Fixpoint bestFit_from (cur : list MemoryBlock) (i : nat) (sz : Z)
    (best : option (nat * MemoryBlock)) : option (nat * MemoryBlock) :=
  match cur with
  | [] => best
  | b :: rest =>
      let best' :=
        if fits sz b then
          match best with
          | None => Some (i, b)
          | Some (_, bb) => if size b <? size bb then Some (i, b) else best
          end
        else best in
      bestFit_from rest (S i) sz best'
  end.

Definition bestFit (a : Allocator) (sz : Z) : option (nat * MemoryBlock) :=
  bestFit_from (head a) 0 sz None.

(** [Allocator::worstFit]; [size wb <? size b] is
    [current->size > worst->size]. *)
Fixpoint worstFit_from (cur : list MemoryBlock) (i : nat) (sz : Z)
    (worst : option (nat * MemoryBlock)) : option (nat * MemoryBlock) :=
  match cur with
  | [] => worst
  | b :: rest =>
      let worst' :=
        if fits sz b then
          match worst with
          | None => Some (i, b)
          | Some (_, wb) => if size wb <? size b then Some (i, b) else worst
          end
        else worst in
      worstFit_from rest (S i) sz worst'
  end.

Definition worstFit (a : Allocator) (sz : Z) : option (nat * MemoryBlock) :=
  worstFit_from (head a) 0 sz None.

(** [Allocator::findFreeBlock] *)
Definition findFreeBlock (a : Allocator) (sz : Z) : option (nat * MemoryBlock) :=
  match strategy a with
  | FIRST_FIT => firstFit a sz
  | BEST_FIT => bestFit a sz
  | WORST_FIT => worstFit a sz
  end.

(** The statistics loop of [Allocator::updateStats]. *)
Record StatsAcc : Type := mkAcc {
  acc_used : Z;
  acc_free : Z;
  largest_free : Z;
  total_free : Z;
  free_block_count : Z
}.

Fixpoint updateStats_loop (cur : list MemoryBlock) (c : StatsAcc) : StatsAcc :=
  match cur with
  | [] => c
  | b :: rest =>
      updateStats_loop rest
        (if is_free b then
           mkAcc (acc_used c) (wrap (acc_free c + size b))
             (if largest_free c <? size b then size b else largest_free c)
             (wrap (total_free c + size b))
             (free_block_count c + 1)
         else
           mkAcc (wrap (acc_used c + size b)) (acc_free c)
             (largest_free c) (total_free c) (free_block_count c))
  end.

(** The fragmentation formula at the end of [updateStats]. *)
Definition fragmentation (largest total count : Z) : double :=
  if (0 <? total) && (1 <? count) then
    dmul (dsub d1 (ddiv (double_of_size_t largest) (double_of_size_t total))) d100
  else d0.

(** [Allocator::updateStats] *)
Definition updateStats (a : Allocator) : Allocator :=
  let c := updateStats_loop (head a) (mkAcc 0 0 0 0 0) in
  let s := stats a in
  set_stats a
    (mkStats (total_memory s) (acc_used c) (acc_free c)
       (num_allocations s) (num_deallocations s) (allocation_failures s)
       (fragmentation (largest_free c) (total_free c) (free_block_count c))).

(** The outcome of [allocate]: the three failure paths all return [-1] and
    differ by their message; the spec names them. *)
Inductive AllocResult : Type :=
  | NotInitialized
  | InvalidSize
  | OutOfMemory
  | Allocated (id : Z).

Definition return_value (r : AllocResult) : Z :=
  match r with Allocated id => id | _ => -1 end.

(** [Allocator::allocate]. [next_block_id++] is given its mathematical
    value: this is the value of the [int] below [INT_MAX], where the C++
    increment overflows and is undefined. The runs without that overflow are
    those of [reachable_int] below. *)
Definition allocate (a : Allocator) (sz : Z) : AllocResult * Allocator :=
  match head a with
  | [] => (NotInitialized, a)
  | _ :: _ =>
      if sz =? 0 then (InvalidSize, a)
      else
        match findFreeBlock a sz with
        | None =>
            let s := stats a in
            (OutOfMemory,
             set_stats a
               (mkStats (total_memory s) (used_memory s) (free_memory s)
                  (num_allocations s) (num_deallocations s)
                  (wrap (allocation_failures s + 1))
                  (external_fragmentation s)))
        | Some (i, block) =>
            let allocated_id := next_block_id a in
            let new_free :=
              if sz <? size block then
                [mkBlock (wrap (address block + sz)) (wrap (size block - sz))
                   true (-1)]
              else [] in
            let block' :=
              mkBlock (address block)
                (if sz <? size block then sz else size block)
                false allocated_id in
            let chain :=
              take i (head a) ++ block' :: new_free ++ drop (S i) (head a) in
            let s := stats a in
            (Allocated allocated_id,
             updateStats
               (mkAllocator chain (total_size a) (strategy a)
                  (allocated_id + 1)
                  (mkStats (total_memory s) (used_memory s) (free_memory s)
                     (wrap (num_allocations s + 1)) (num_deallocations s)
                     (allocation_failures s) (external_fragmentation s))))
        end
  end.

(** The forward loop of [Allocator::coalesce]: [block] absorbs its free
    successors. *)
Fixpoint merge_next (block : MemoryBlock) (nxt : list MemoryBlock)
  : MemoryBlock * list MemoryBlock :=
  match nxt with
  | n :: rest =>
      if is_free n then
        merge_next
          (mkBlock (address block) (wrap (size block + size n))
             (is_free block) (block_id block)) rest
      else (block, nxt)
  | [] => (block, [])
  end.

(** The backward loop: a free predecessor absorbs [block] and becomes the
    current block. [rprev] lists the predecessors, nearest first. *)
Fixpoint merge_prev (rprev : list MemoryBlock) (block : MemoryBlock)
  : list MemoryBlock * MemoryBlock :=
  match rprev with
  | p :: rest =>
      if is_free p then
        merge_prev rest
          (mkBlock (address p) (wrap (size p + size block))
             (is_free p) (block_id p))
      else (rprev, block)
  | [] => ([], block)
  end.

(** [Allocator::coalesce], returning the chain. *)
Definition coalesce (rprev : list MemoryBlock) (block : MemoryBlock)
    (nxt : list MemoryBlock) : list MemoryBlock :=
  if negb (is_free block) then rev rprev ++ block :: nxt
  else
    let '(b1, nxt1) := merge_next block nxt in
    let '(rprev2, b2) := merge_prev rprev b1 in
    rev rprev2 ++ b2 :: nxt1.

(** The search loop of [Allocator::free]. *)
Fixpoint free_find (rprev cur : list MemoryBlock) (id : Z)
  : option (list MemoryBlock * MemoryBlock * list MemoryBlock) :=
  match cur with
  | [] => None
  | b :: rest =>
      if (block_id b =? id) && negb (is_free b) then Some (rprev, b, rest)
      else free_find (b :: rprev) rest id
  end.

(** [Allocator::free] *)
Definition free (a : Allocator) (id : Z) : bool * Allocator :=
  match head a with
  | [] => (false, a)
  | _ :: _ =>
      match free_find [] (head a) id with
      | None => (false, a)
      | Some (rprev, current, nxt) =>
          let current' := mkBlock (address current) (size current) true (-1) in
          let s := stats a in
          let s' :=
            mkStats (total_memory s) (used_memory s) (free_memory s)
              (num_allocations s) (wrap (num_deallocations s + 1))
              (allocation_failures s) (external_fragmentation s) in
          (true,
           updateStats
             (mkAllocator (coalesce rprev current' nxt) (total_size a)
                (strategy a) (next_block_id a) s'))
      end
  end.

(** [Allocator::getStats] *)
Definition getStats (a : Allocator) : AllocationStats := stats a.

(** *** Runs of the allocator *)

Inductive Op : Type :=
  | OpInit (sz : Z)
  | OpSetStrategy (strat : AllocationStrategy)
  | OpAllocate (sz : Z)
  | OpFree (id : Z).

(** The arguments are values of the parameter types. *)
Definition valid_op (o : Op) : Prop :=
  match o with
  | OpInit sz => is_size_t sz
  | OpSetStrategy _ => True
  | OpAllocate sz => is_size_t sz
  | OpFree id => is_int id
  end.

Definition step (a : Allocator) (o : Op) : Allocator :=
  match o with
  | OpInit sz => snd (initMemory a sz)
  | OpSetStrategy strat => setStrategy a strat
  | OpAllocate sz => snd (allocate a sz)
  | OpFree id => snd (free a id)
  end.

Definition run (a : Allocator) (ops : list Op) : Allocator := fold_left step ops a.

Inductive reachable : Allocator -> Prop :=
  | reachable_new : reachable Allocator_new
  | reachable_step a o : reachable a -> valid_op o -> reachable (step a o).

(** [next_block_id++] is evaluated by a successful [allocate] and by nothing
    else; it is defined on an [int] below [INT_MAX]. *)
Definition id_increment_defined (a : Allocator) (o : Op) : Prop :=
  match o with
  | OpAllocate sz =>
      match fst (allocate a sz) with
      | Allocated _ => next_block_id a < INT_MAX
      | _ => True
      end
  | _ => True
  end.

(** The states of the runs in which no increment of [next_block_id]
    overflows: there the ids of the model are the [int] ids of the program. *)
Inductive reachable_int : Allocator -> Prop :=
  | reachable_int_new : reachable_int Allocator_new
  | reachable_int_step a o :
      reachable_int a -> valid_op o -> id_increment_defined a o ->
      reachable_int (step a o).

(** *** Observations on a chain *)

(** Sizes of the free blocks, in address order. *)
Fixpoint free_sizes (l : list MemoryBlock) : list Z :=
  match l with
  | [] => []
  | b :: rest => if is_free b then size b :: free_sizes rest else free_sizes rest
  end.

(** Sizes of the allocated blocks, in address order. *)
Fixpoint used_sizes (l : list MemoryBlock) : list Z :=
  match l with
  | [] => []
  | b :: rest => if is_free b then used_sizes rest else size b :: used_sizes rest
  end.

Definition sum_list (l : list Z) : Z := foldr Z.add 0 l.
Definition max_list (l : list Z) : Z := foldr Z.max 0 l.

Definition hd_free (l : list MemoryBlock) : bool :=
  match l with b :: _ => is_free b | [] => false end.

(** No node and its successor are both free. *)
Fixpoint no_adjacent_free (l : list MemoryBlock) : bool :=
  match l with
  | [] => true
  | b :: rest => negb (is_free b && hd_free rest) && no_adjacent_free rest
  end.

(** The longest prefix of free nodes is dropped. *)
Fixpoint skip_free (l : list MemoryBlock) : list MemoryBlock :=
  match l with
  | b :: rest => if is_free b then skip_free rest else l
  | [] => []
  end.

(** Sum of the sizes of the longest prefix of free nodes. *)
Fixpoint free_run_size (l : list MemoryBlock) : Z :=
  match l with
  | b :: rest => if is_free b then size b + free_run_size rest else 0
  | [] => 0
  end.

(** *** Notions used by the properties *)

(** The nodes that replace [block] when [allocate] places [sz] bytes in it
    under the id [id]: the allocated node and, if [block] is larger, the free
    remainder. *)
Definition split_block (block : MemoryBlock) (sz id : Z) : list MemoryBlock :=
  mkBlock (address block) (if sz <? size block then sz else size block) false id
  :: (if sz <? size block then
        [mkBlock (wrap (address block + sz)) (wrap (size block - sz)) true (-1)]
      else []).

(** [stats.num_allocations++], [stats.num_deallocations++] and
    [stats.allocation_failures++]. *)
Definition count_allocation (s : AllocationStats) : AllocationStats :=
  mkStats (total_memory s) (used_memory s) (free_memory s)
    (wrap (num_allocations s + 1)) (num_deallocations s)
    (allocation_failures s) (external_fragmentation s).

Definition count_deallocation (s : AllocationStats) : AllocationStats :=
  mkStats (total_memory s) (used_memory s) (free_memory s)
    (num_allocations s) (wrap (num_deallocations s + 1))
    (allocation_failures s) (external_fragmentation s).

Definition count_failure (s : AllocationStats) : AllocationStats :=
  mkStats (total_memory s) (used_memory s) (free_memory s)
    (num_allocations s) (num_deallocations s)
    (wrap (allocation_failures s + 1)) (external_fragmentation s).

(** The bytes covered by a chain. *)
Definition chain_size (l : list MemoryBlock) : Z := sum_list (map size l).

Definition sizes_nonneg (l : list MemoryBlock) : Prop :=
  Forall (fun b => 0 <= size b) l.

(** The fragmentation of a chain, from the sizes of its free blocks. *)
Definition chain_fragmentation (l : list MemoryBlock) : double :=
  fragmentation (max_list (free_sizes l)) (sum_list (free_sizes l))
    (Z.of_nat (length (free_sizes l))).

(** What every reachable state satisfies: the chain covers [total_size]
    bytes, a [size_t], with blocks of non-negative size, and the statistics
    are those of the chain. *)
Record alloc_inv (a : Allocator) : Prop := mkInv {
  inv_nonneg : sizes_nonneg (head a);
  inv_total : chain_size (head a) = total_size a;
  inv_range : is_size_t (total_size a);
  inv_total_memory : total_memory (stats a) = total_size a;
  inv_used : used_memory (stats a) = sum_list (used_sizes (head a));
  inv_free : free_memory (stats a) = sum_list (free_sizes (head a));
  inv_frag : external_fragmentation (stats a) = chain_fragmentation (head a)
}.

(** The chain after [initMemory(0)]. *)
Definition zero_block : MemoryBlock := mkBlock 0 0 true (-1).

(** Operations other than [initMemory]. *)
Definition not_init (o : Op) : Prop :=
  match o with OpInit _ => False | _ => True end.

(** [selects l r k s]: the search result [r] is the node of [l] that is its
    [k]-th free block (counting from 0 in address order), of size [s]. *)
Definition selects (l : list MemoryBlock) (r : option (nat * MemoryBlock))
    (k : nat) (s : Z) : Prop :=
  exists i b,
    r = Some (i, b) /\ l !! i = Some b /\ is_free b = true /\ size b = s
    /\ length (free_sizes (take i l)) = k.

(** *** Notions used by the further properties *)

(** Addresses along a chain that starts at [start]: every node begins where
    its predecessor ends. *)
Fixpoint contiguous_from (start : Z) (l : list MemoryBlock) : bool :=
  match l with
  | [] => true
  | b :: rest => (address b =? start) && contiguous_from (start + size b) rest
  end.

(** Ids of the allocated nodes, in address order. *)
Fixpoint used_ids (l : list MemoryBlock) : list Z :=
  match l with
  | [] => []
  | b :: rest => if is_free b then used_ids rest else block_id b :: used_ids rest
  end.

(** The allocated nodes, in address order. *)
Fixpoint used_blocks (l : list MemoryBlock) : list MemoryBlock :=
  match l with
  | [] => []
  | b :: rest => if is_free b then used_blocks rest else b :: used_blocks rest
  end.

(** Free nodes carry the id [-1]; allocated nodes carry an id handed out
    before [next]. *)
Definition id_in_range (next : Z) (b : MemoryBlock) : Prop :=
  if is_free b then block_id b = -1 else 1 <= block_id b < next.

(** The longest prefix of free nodes. *)
Fixpoint free_prefix (l : list MemoryBlock) : list MemoryBlock :=
  match l with
  | b :: rest => if is_free b then b :: free_prefix rest else []
  | [] => []
  end.

(** What every reachable chain satisfies beyond [alloc_inv]: it tiles the
    address range from 0, free nodes have the id [-1], and the allocated
    nodes have distinct ids handed out before [next_block_id]. *)
Record chain_inv (a : Allocator) : Prop := mkChainInv {
  ci_contiguous : contiguous_from 0 (head a) = true;
  ci_ids : Forall (id_in_range (next_block_id a)) (head a);
  ci_nodup : NoDup (used_ids (head a));
  ci_next : 1 <= next_block_id a
}.

(** [preferred strat i b j c]: the strategy places a request in the node
    [b] at position [i] rather than in the node [c] at position [j], both
    being large enough. *)
Definition preferred (strat : AllocationStrategy) (i : nat) (b : MemoryBlock)
    (j : nat) (c : MemoryBlock) : Prop :=
  match strat with
  | FIRST_FIT => (i <= j)%nat
  | BEST_FIT => size b < size c \/ (size b = size c /\ (i <= j)%nat)
  | WORST_FIT => size c < size b \/ (size c = size b /\ (i <= j)%nat)
  end.

(** [chosen strat sz l r]: [r] is the answer of the strategy for a request of
    [sz] bytes on the chain [l]: no node when none is large enough, else one
    that is preferred to every other candidate. *)
Definition chosen (strat : AllocationStrategy) (sz : Z) (l : list MemoryBlock)
    (r : option (nat * MemoryBlock)) : Prop :=
  match r with
  | None => Forall (fun x => fits sz x = false) l
  | Some (i, b) =>
      l !! i = Some b /\ fits sz b = true
      /\ forall j c, l !! j = Some c -> fits sz c = true -> preferred strat i b j c
  end.

End Alloc.

(** ** The cache hierarchy *)

Module Cache.

Inductive ReplacementPolicy : Type := FIFO | LRU.

(** [struct CacheLine] *)
Record CacheLine : Type := mkLine {
  valid : bool;
  dirty : bool;
  tag : Z;
  last_access : Z
}.

(** [CacheLine()] *)
Definition CacheLine_new : CacheLine := mkLine false false 0 0.

(** [struct CacheStats] *)
Record CacheStats : Type := mkCacheStats {
  hits : Z;
  misses : Z;
  accesses : Z;
  write_backs : Z;
  total_access_time : Z
}.

(** [CacheStats()] *)
Definition CacheStats_new : CacheStats := mkCacheStats 0 0 0 0 0.

(** [class CacheLevel]. A vector is the list of its elements; positions in a
    vector are natural numbers. *)
Record CacheLevel : Type := mkLevel {
  name : string;
  size : Z;
  block_size : Z;
  associativity : Z;
  num_sets : Z;
  num_lines : Z;
  sets : list (list CacheLine);
  fifo_queues : list (list nat);
  policy : ReplacementPolicy;
  stats : CacheStats;
  access_counter : Z;
  access_latency : Z
}.

Definition with_sets (L : CacheLevel) (s : list (list CacheLine)) : CacheLevel :=
  mkLevel (name L) (size L) (block_size L) (associativity L) (num_sets L)
    (num_lines L) s (fifo_queues L) (policy L) (stats L) (access_counter L)
    (access_latency L).

Definition with_fifo_queues (L : CacheLevel) (q : list (list nat)) : CacheLevel :=
  mkLevel (name L) (size L) (block_size L) (associativity L) (num_sets L)
    (num_lines L) (sets L) q (policy L) (stats L) (access_counter L)
    (access_latency L).

Definition with_stats (L : CacheLevel) (st : CacheStats) : CacheLevel :=
  mkLevel (name L) (size L) (block_size L) (associativity L) (num_sets L)
    (num_lines L) (sets L) (fifo_queues L) (policy L) st (access_counter L)
    (access_latency L).

Definition with_access_counter (L : CacheLevel) (c : Z) : CacheLevel :=
  mkLevel (name L) (size L) (block_size L) (associativity L) (num_sets L)
    (num_lines L) (sets L) (fifo_queues L) (policy L) (stats L) c
    (access_latency L).

(** [CacheLevel::CacheLevel], the level it builds: the member initialisers,
    the two unsigned integer divisions and the contents the [resize] calls
    leave. A zero divisor is undefined behaviour, for which the model has no
    level ([None]). Nothing is validated. Whether the [resize] calls succeed
    is the matter of [CacheLevel_ctor] below: this is the level the
    constructor returns when it returns. *)
Definition CacheLevel_new (levelName : string) (cacheSize blockSize assoc : Z)
    (pol : ReplacementPolicy) (latency : Z) : option CacheLevel :=
  if (blockSize =? 0) || (assoc =? 0) then None
  else
    let lines := cacheSize / blockSize in
    let nsets := lines / assoc in
    Some
      (mkLevel levelName cacheSize blockSize assoc nsets lines
         (replicate (Z.to_nat nsets) (replicate (Z.to_nat assoc) CacheLine_new))
         (replicate (Z.to_nat nsets) [])
         pol CacheStats_new 0 latency).

(** How a call ends: it returns, it throws, or its behaviour is undefined. *)
Inductive Outcome (A : Type) : Type :=
  | Returned (a : A)
  | Thrown
  | UndefinedBehaviour.
Arguments Returned {A} a.
Arguments Thrown {A}.
Arguments UndefinedBehaviour {A}.

(** [CacheLevel::CacheLevel] with its allocations. After the divisions the
    constructor resizes [sets] and [fifo_queues] to [num_sets] and every set
    to [associativity] lines; [resize] throws [std::length_error] beyond the
    vector's [max_size()] and [std::bad_alloc] when the memory is not there.
    Both limits belong to the platform: [heap_holds n assoc] tells whether it
    satisfies the allocations of [n] sets of [assoc] lines and [n] queues.
    The exception is raised after the divisions, so a zero divisor stays
    undefined behaviour. *)
Definition CacheLevel_ctor (heap_holds : Z -> Z -> bool) (levelName : string)
    (cacheSize blockSize assoc : Z) (pol : ReplacementPolicy) (latency : Z)
  : Outcome CacheLevel :=
  match CacheLevel_new levelName cacheSize blockSize assoc pol latency with
  | None => UndefinedBehaviour
  | Some L => if heap_holds (num_sets L) (associativity L) then Returned L else Thrown
  end.

(** A platform that satisfies the allocations of up to [limit] lines. *)
Definition heap_of (limit : Z) : Z -> Z -> bool :=
  fun n assoc => n * assoc <=? limit.

(** [CacheLevel::getLatency] *)
Definition getLatency (L : CacheLevel) : Z := access_latency L.

(** [CacheLevel::getStats] *)
Definition getStats (L : CacheLevel) : CacheStats := stats L.

(** [CacheLevel::resetStats] *)
Definition resetStats (L : CacheLevel) : CacheLevel := with_stats L CacheStats_new.

Section AddressDecomposition.

(** [ilog2 x] is [(size_t)std::log2(x)]: the library's base-2 logarithm of
    [x] converted to [double], truncated to [size_t]. The properties below
    hold whatever this function is. *)
Variable ilog2 : Z -> Z.

(** [CacheLevel::getSetIndex]; the caller excludes [num_sets = 0]. The shift
    is given its mathematical value, which is the C++ value for a count
    below the 64 bits of [size_t]; beyond, the C++ shift is undefined (see
    [shifts_defined]). *)
Definition getSetIndex (L : CacheLevel) (address : Z) : Z :=
  let block_bits := ilog2 (block_size L) in
  Z.shiftr address block_bits mod num_sets L.

(** [CacheLevel::getTag]; the shift as in [getSetIndex]. *)
Definition getTag (L : CacheLevel) (address : Z) : Z :=
  let block_bits := ilog2 (block_size L) in
  let set_bits := ilog2 (num_sets L) in
  Z.shiftr address (wrap (block_bits + set_bits)).

(** The shifts of [getSetIndex] and [getTag] are defined in C++: the two
    logarithms are values of [size_t] and the counts [block_bits] and
    [block_bits + set_bits] are below the width of [size_t]. *)
Definition shifts_defined (L : CacheLevel) : Prop :=
  0 <= ilog2 (block_size L) /\ 0 <= ilog2 (num_sets L)
  /\ ilog2 (block_size L) + ilog2 (num_sets L) < 64.

(** The loops over [i < associativity] walk the lines of one set: every set
    holds exactly [associativity] lines, the constructor sizes them so and
    nothing resizes them. [i] is the position of the first line of [set]. *)

(** The hit loop of [CacheLevel::access]. *)
Fixpoint find_hit (set : list CacheLine) (tg : Z) (i : nat)
  : option (nat * CacheLine) :=
  match set with
  | [] => None
  | l :: rest =>
      if valid l && (tag l =? tg) then Some (i, l) else find_hit rest tg (S i)
  end.

(** The first loop of [CacheLevel::findVictim]. *)
Fixpoint find_invalid (set : list CacheLine) (i : nat) : option nat :=
  match set with
  | [] => None
  | l :: rest => if negb (valid l) then Some i else find_invalid rest (S i)
  end.

(** The LRU loop of [CacheLevel::findVictim], from position [i] on. *)
Fixpoint lru_scan (rest : list CacheLine) (i victim : nat) (min_access : Z) : nat :=
  match rest with
  | [] => victim
  | l :: rest' =>
      if last_access l <? min_access then lru_scan rest' (S i) i (last_access l)
      else lru_scan rest' (S i) victim min_access
  end.

(** [CacheLevel::findVictim]: the victim and the level with its queue
    popped. [None] is undefined behaviour: a set out of range, [front()] of
    an empty queue, [set[0]] of an empty set. *)
Definition findVictim (L : CacheLevel) (set_index : nat) : option (nat * CacheLevel) :=
  match sets L !! set_index with
  | None => None
  | Some set =>
      match find_invalid set 0 with
      | Some i => Some (i, L)
      | None =>
          match policy L with
          | FIFO =>
              match fifo_queues L !! set_index with
              | Some (victim :: q) =>
                  Some (victim,
                        with_fifo_queues L (<[set_index := q]> (fifo_queues L)))
              | _ => None
              end
          | LRU =>
              match set with
              | l0 :: rest => Some (lru_scan rest 1 0 (last_access l0), L)
              | [] => None
              end
          end
      end
  end.

(** [CacheLevel::access]: [Some (hit, level')], or [None] for undefined
    behaviour (no set, or a victim search that has none). *)
Definition CacheLevel_access (L : CacheLevel) (address : Z) (isWrite : bool)
  : option (bool * CacheLevel) :=
  let st := stats L in
  let counter := wrap (access_counter L + 1) in
  let L1 :=
    with_access_counter
      (with_stats L
         (mkCacheStats (hits st) (misses st) (wrap (accesses st + 1))
            (write_backs st) (wrap (total_access_time st + access_latency L))))
      counter in
  if num_sets L =? 0 then None
  else
    let set_index := Z.to_nat (getSetIndex L address) in
    let tg := getTag L address in
    match sets L1 !! set_index with
    | None => None
    | Some set =>
        match find_hit set tg 0 with
        | Some (i, l) =>
            let st1 := stats L1 in
            let l' :=
              mkLine (valid l) (if isWrite then true else dirty l) (tag l) counter in
            Some (true,
                  with_sets
                    (with_stats L1
                       (mkCacheStats (wrap (hits st1 + 1)) (misses st1)
                          (accesses st1) (write_backs st1) (total_access_time st1)))
                    (<[set_index := <[i := l']> set]> (sets L1)))
        | None =>
            let st1 := stats L1 in
            let L2 :=
              with_stats L1
                (mkCacheStats (hits st1) (wrap (misses st1 + 1)) (accesses st1)
                   (write_backs st1) (total_access_time st1)) in
            match findVictim L2 set_index with
            | None => None
            | Some (victim, L3) =>
                match set !! victim with
                | None => None
                | Some v =>
                    let st3 := stats L3 in
                    let L4 :=
                      if valid v && dirty v then
                        with_stats L3
                          (mkCacheStats (hits st3) (misses st3) (accesses st3)
                             (wrap (write_backs st3 + 1)) (total_access_time st3))
                      else L3 in
                    let L5 :=
                      with_sets L4
                        (<[set_index := <[victim := mkLine true isWrite tg counter]> set]>
                           (sets L4)) in
                    let L6 :=
                      match policy L5 with
                      | FIFO =>
                          match fifo_queues L5 !! set_index with
                          | Some q =>
                              with_fifo_queues L5
                                (<[set_index := q ++ [victim]]> (fifo_queues L5))
                          | None => L5
                          end
                      | LRU => L5
                      end in
                    Some (false, L6)
                end
            end
        end
    end.

(** [class CacheSimulator]; [sim_total_access_time] is its member
    [total_access_time]. *)
Record CacheSimulator : Type := mkSim {
  levels : list CacheLevel;
  initialized : bool;
  sim_total_access_time : Z;
  memory_latency : Z
}.

(** [CacheSimulator::CacheSimulator()] *)
Definition CacheSimulator_new : CacheSimulator := mkSim [] false 0 100.

(** [CacheSimulator::addLevel]. An exception of the constructor leaves the
    [new] expression before [push_back] is reached; nothing catches it. *)
Definition addLevel (heap_holds : Z -> Z -> bool) (s : CacheSimulator) (nm : string)
    (sz blockSize assoc : Z) (pol : ReplacementPolicy) (latency : Z)
  : Outcome CacheSimulator :=
  match CacheLevel_ctor heap_holds nm sz blockSize assoc pol latency with
  | Returned L =>
      Returned
        (mkSim (levels s ++ [L]) true (sim_total_access_time s) (memory_latency s))
  | Thrown => Thrown
  | UndefinedBehaviour => UndefinedBehaviour
  end.

(** The loop of [CacheSimulator::access] over the levels still to probe:
    the levels after the probe, the accumulated [access_time], and whether a
    level hit. *)
Fixpoint probe (lv : list CacheLevel) (address : Z) (isWrite : bool) (access_time : Z)
  : option (list CacheLevel * Z * bool) :=
  match lv with
  | [] => Some ([], access_time, false)
  | level :: rest =>
      let access_time' := wrap (access_time + getLatency level) in
      match CacheLevel_access level address isWrite with
      | None => None
      | Some (true, level') => Some (level' :: rest, access_time', true)
      | Some (false, level') =>
          match probe rest address isWrite access_time' with
          | None => None
          | Some (rest', t, h) => Some (level' :: rest', t, h)
          end
      end
  end.

(** [CacheSimulator::access] *)
Definition CacheSimulator_access (s : CacheSimulator) (address : Z) (isWrite : bool)
  : option CacheSimulator :=
  match probe (levels s) address isWrite 0 with
  | None => None
  | Some (lv, access_time, true) =>
      Some (mkSim lv (initialized s)
              (wrap (sim_total_access_time s + access_time)) (memory_latency s))
  | Some (lv, access_time, false) =>
      let access_time' := wrap (access_time + memory_latency s) in
      Some (mkSim lv (initialized s)
              (wrap (sim_total_access_time s + access_time')) (memory_latency s))
  end.

(** A sequence of accesses to the hierarchy. *)
Fixpoint run_sim (s : CacheSimulator) (reqs : list (Z * bool)) : option CacheSimulator :=
  match reqs with
  | [] => Some s
  | (address, isWrite) :: rest =>
      match CacheSimulator_access s address isWrite with
      | None => None
      | Some s' => run_sim s' rest
      end
  end.

(** A sequence of accesses to one level. *)
Fixpoint run_level (L : CacheLevel) (reqs : list (Z * bool)) : option CacheLevel :=
  match reqs with
  | [] => Some L
  | (address, isWrite) :: rest =>
      match CacheLevel_access L address isWrite with
      | None => None
      | Some (_, L') => run_level L' rest
      end
  end.

(** *** One access, seen from the set it maps to *)

(** The victim search on the lines [set] and the queue [q] of one set: the
    victim and the queue after [pop_front]. *)
Definition victim_of (pol : ReplacementPolicy) (set : list CacheLine) (q : list nat)
  : option (nat * list nat) :=
  match find_invalid set 0 with
  | Some i => Some (i, q)
  | None =>
      match pol with
      | FIFO => match q with v :: q' => Some (v, q') | [] => None end
      | LRU =>
          match set with
          | l0 :: rest => Some (lru_scan rest 1 0 (last_access l0), q)
          | [] => None
          end
      end
  end.

Record SetOutcome : Type := mkOutcome {
  out_hit : bool;
  out_way : nat;
  out_old : CacheLine;
  out_set : list CacheLine;
  out_queue : list nat
}.

(** The effect of one access on the lines and the queue of its set: hit or
    miss, the way used, the line that was there. *)
Definition set_access (pol : ReplacementPolicy) (set : list CacheLine) (q : list nat)
    (tg counter : Z) (isWrite : bool) : option SetOutcome :=
  match find_hit set tg 0 with
  | Some (i, l) =>
      Some (mkOutcome true i l
              (<[i := mkLine (valid l) (if isWrite then true else dirty l) (tag l) counter]> set)
              q)
  | None =>
      match victim_of pol set q with
      | None => None
      | Some (victim, q1) =>
          match set !! victim with
          | None => None
          | Some v =>
              Some (mkOutcome false victim v
                      (<[victim := mkLine true isWrite tg counter]> set)
                      (match pol with FIFO => q1 ++ [victim] | LRU => q1 end))
          end
      end
  end.

(** The statistics after one access. *)
Definition stats_after (L : CacheLevel) (o : SetOutcome) : CacheStats :=
  let st := stats L in
  mkCacheStats
    (if out_hit o then wrap (hits st + 1) else hits st)
    (if out_hit o then misses st else wrap (misses st + 1))
    (wrap (accesses st + 1))
    (if negb (out_hit o) && valid (out_old o) && dirty (out_old o)
     then wrap (write_backs st + 1) else write_backs st)
    (wrap (total_access_time st + access_latency L)).

Definition level_after (L : CacheLevel) (s : nat) (o : SetOutcome) : CacheLevel :=
  mkLevel (name L) (size L) (block_size L) (associativity L) (num_sets L)
    (num_lines L)
    (<[s := out_set o]> (sets L))
    (<[s := out_queue o]> (fifo_queues L))
    (policy L) (stats_after L o) (wrap (access_counter L + 1)) (access_latency L).

Definition set_of (L : CacheLevel) (address : Z) : nat :=
  Z.to_nat (getSetIndex L address).

Fixpoint count_valid (set : list CacheLine) : nat :=
  match set with
  | [] => 0
  | l :: rest => ((if valid l then 1 else 0) + count_valid rest)%nat
  end.

(** The class invariant of a set and its queue: [assoc] lines; under FIFO
    the queue lists the valid lines in the order of their installation. *)
Definition set_wf (pol : ReplacementPolicy) (assoc : nat)
    (set : list CacheLine) (q : list nat) : Prop :=
  length set = assoc
  /\ (pol = FIFO -> length q = count_valid set /\ Forall (fun v => (v < assoc)%nat) q).

Definition level_wf (L : CacheLevel) : Prop :=
  0 < num_sets L
  /\ 0 < associativity L
  /\ length (sets L) = Z.to_nat (num_sets L)
  /\ Forall2 (set_wf (policy L) (Z.to_nat (associativity L))) (sets L) (fifo_queues L).

(** The line in way [i] of set [s]. *)
Definition line_at (L : CacheLevel) (s i : nat) : option CacheLine :=
  match sets L !! s with
  | Some set => set !! i
  | None => None
  end.

(** Tags of the valid lines of a set, by way. *)
Fixpoint valid_tags (set : list CacheLine) : list Z :=
  match set with
  | [] => []
  | l :: rest => if valid l then tag l :: valid_tags rest else valid_tags rest
  end.

(** Tags resident in set [s] of a level. *)
Definition resident_tags (L : CacheLevel) (s : nat) : list Z :=
  match sets L !! s with
  | Some set => valid_tags set
  | None => []
  end.

(** Accesses with the tags [reqs] to one set, the access counter starting
    from [counter]. *)
Fixpoint run_set (pol : ReplacementPolicy) (set : list CacheLine) (q : list nat)
    (counter : Z) (reqs : list (Z * bool)) : option (list CacheLine * list nat) :=
  match reqs with
  | [] => Some (set, q)
  | (tg, isWrite) :: rest =>
      match set_access pol set q tg (wrap (counter + 1)) isWrite with
      | None => None
      | Some o => run_set pol (out_set o) (out_queue o) (wrap (counter + 1)) rest
      end
  end.

(** Whether the level holds the block of [address]. *)
Definition level_hits (L : CacheLevel) (address : Z) : bool :=
  match sets L !! set_of L address with
  | Some set =>
      match find_hit set (getTag L address) 0 with
      | Some _ => true
      | None => false
      end
  | None => false
  end.

(** The levels probed by an access: up to and including the first that
    hits. *)
Fixpoint probed (lv : list CacheLevel) (address : Z) : list CacheLevel :=
  match lv with
  | [] => []
  | L :: rest => L :: (if level_hits L address then [] else probed rest address)
  end.

Definition all_miss (lv : list CacheLevel) (address : Z) : bool :=
  forallb (fun L => negb (level_hits L address)) lv.

Definition sum_latencies (lv : list CacheLevel) : Z :=
  foldr Z.add 0 (map access_latency lv).

(** The cost of one access: the latencies of the probed levels, and the
    memory latency when every level misses. *)
Definition access_cost (lv : list CacheLevel) (mem_latency address : Z) : Z :=
  sum_latencies (probed lv address)
  + (if all_miss lv address then mem_latency else 0).

(** The levels a program can hold: built by the constructor from [size_t]
    arguments, then accessed and reset any number of times. *)
Inductive level_reachable : CacheLevel -> Prop :=
  | lr_new nm sz bs assoc pol lat L :
      is_size_t sz -> is_size_t bs -> is_size_t assoc -> is_size_t lat ->
      CacheLevel_new nm sz bs assoc pol lat = Some L ->
      level_reachable L
  | lr_access L address isWrite hit L' :
      level_reachable L ->
      CacheLevel_access L address isWrite = Some (hit, L') ->
      level_reachable L'
  | lr_reset L :
      level_reachable L -> level_reachable (resetStats L).

End AddressDecomposition.

(** [CacheSimulator::resetStats] *)
Definition CacheSimulator_resetStats (s : CacheSimulator) : CacheSimulator :=
  mkSim (map resetStats (levels s)) (initialized s) (sim_total_access_time s)
    (memory_latency s).


(** Every line of the level was last used at or before the current value of
    the access counter. *)
Definition timestamps_bounded (L : CacheLevel) : Prop :=
  Forall (Forall (fun l => last_access l <= access_counter L)) (sets L).

(** The valid lines of every set carry pairwise distinct tags. *)
Definition tags_distinct (L : CacheLevel) : Prop :=
  Forall (fun set => NoDup (valid_tags set)) (sets L).

(** Two levels that differ in their statistics only. *)
Definition same_but_stats (L L' : CacheLevel) : Prop := L' = with_stats L (stats L').

(** *** Geometry and instances *)

(** [size / block_size / associativity] is an exact positive integer. *)
Definition divides_evenly (sz bs assoc : Z) : Prop :=
  exists k, 0 < k /\ sz = k * assoc * bs.

(** The default hierarchy of the shell: L1 of 256 bytes, 16-byte blocks,
    4 ways, LRU, 1 cycle; L2 of 1024 bytes, 32-byte blocks, 8 ways, FIFO,
    10 cycles. *)
Definition default_L1 : CacheLevel :=
  mkLevel "L1" 256 16 4 4 16 (replicate 4 (replicate 4 CacheLine_new))
    (replicate 4 []) LRU CacheStats_new 0 1.

Definition default_L2 : CacheLevel :=
  mkLevel "L2" 1024 32 8 4 32 (replicate 4 (replicate 8 CacheLine_new))
    (replicate 4 []) FIFO CacheStats_new 0 10.

Definition default_hierarchy : CacheSimulator := mkSim [default_L1; default_L2] true 0 100.

(** A direct-mapped level of one line, holding a dirty block. *)
Definition dirty_level : CacheLevel :=
  mkLevel "L1" 16 16 1 1 1 [[mkLine true true 0 1]] [[]] LRU
    (mkCacheStats 0 1 1 0 1) 1 1.

End Cache.

(** * The shell *)

Module Shell.

(** [std::isspace] in the "C" locale, which the program never changes:
    space, and the control characters from horizontal tab (9) to carriage
    return (13). *)
Definition isspace (c : ascii) : bool :=
  let n := nat_of_ascii c in
  (n =? 32)%nat || ((9 <=? n)%nat && (n <=? 13)%nat).

(** [iss >> token], first part: leading whitespace is skipped. *)
Fixpoint skip_space (s : list ascii) : list ascii :=
  match s with
  | [] => []
  | c :: r => if isspace c then skip_space r else s
  end.

(** [iss >> token], second part: characters are taken up to the next
    whitespace or the end of the stream. The word and what is left. *)
Fixpoint read_word (s : list ascii) : list ascii * list ascii :=
  match s with
  | [] => ([], [])
  | c :: r =>
      if isspace c then ([], s)
      else let '(w, rest) := read_word r in (c :: w, rest)
  end.

(** [iss >> token]: the extraction fails when no character was taken. *)
Definition extract (s : list ascii) : option (list ascii * list ascii) :=
  match read_word (skip_space s) with
  | ([], _) => None
  | (w, rest) => Some (w, rest)
  end.

(** The loop [while (iss >> token) tokens.push_back(token)], at most [fuel]
    rounds. *)
Fixpoint split_loop (fuel : nat) (s : list ascii) : list (list ascii) :=
  match fuel with
  | O => []
  | S n =>
      match extract s with
      | None => []
      | Some (w, rest) => w :: split_loop n rest
      end
  end.

(** [splitCommand]: every round takes at least one character, so one round
    more than the length of the line is enough. *)
Definition splitCommand (line : list ascii) : list (list ascii) :=
  split_loop (S (length line)) line.

(** A word: not empty, no whitespace in it. *)
Definition is_word (t : list ascii) : Prop :=
  t <> [] /\ Forall (fun c => isspace c = false) t.

Definition is_blank (s : list ascii) : Prop := Forall (fun c => isspace c = true) s.

(** Words, each followed by its whitespace. *)
Fixpoint weave (items : list (list ascii * list ascii)) : list ascii :=
  match items with
  | [] => []
  | (t, ws) :: r => t ++ ws ++ weave r
  end.

(** Every word is a word, what follows it is whitespace, and there is some
    between two words. *)
Fixpoint well_spaced (items : list (list ascii * list ascii)) : Prop :=
  match items with
  | [] => True
  | (t, ws) :: r => is_word t /\ is_blank ws /\ (r <> [] -> ws <> []) /\ well_spaced r
  end.

(** Empty, or beginning with whitespace. *)
Definition starts_blank (s : list ascii) : Prop :=
  s = [] \/ exists c r, s = c :: r /\ isspace c = true.

(** The characters that are not whitespace. *)
Definition keep (c : ascii) : bool := negb (isspace c).

End Shell.

(** * Properties *)

(** ** Machine arithmetic *)

Lemma wrap_small x : is_size_t x -> wrap x = x.
Proof. unfold is_size_t, wrap. intros H. apply Z.mod_small. exact H. Qed.

Lemma wrap_range x : is_size_t (wrap x).
Proof. unfold is_size_t, wrap, SIZE_MAX1. apply Z.mod_pos_bound. lia. Qed.

Lemma wrap_succ_neq x : is_size_t x -> wrap (x + 1) <> x.
Proof.
  unfold is_size_t, wrap, SIZE_MAX1. intros H.
  destruct (Z.eq_dec x (2 ^ 64 - 1)) as [->|Hne].
  - vm_compute. discriminate.
  - rewrite Z.mod_small by lia. lia.
Qed.

(** ** Properties of the block allocator *)

Module AllocProperties.
Import Alloc.

(** *** Adjacent free nodes *)

Lemma no_adjacent_free_app l1 l2 :
  no_adjacent_free (l1 ++ l2) =
  no_adjacent_free l1 && no_adjacent_free l2 && negb (hd_free (rev l1) && hd_free l2).
Proof.
  induction l1 as [|b l1 IH]; simpl.
  - destruct (no_adjacent_free l2); reflexivity.
  - rewrite IH. destruct l1 as [|c l1]; simpl.
    + destruct (is_free b), (hd_free l2), (no_adjacent_free l2); reflexivity.
    + assert (Hhd : forall x, hd_free ((rev l1 ++ [c]) ++ [x]) = hd_free (rev l1 ++ [c])).
      { intros x. destruct (rev l1); reflexivity. }
      rewrite Hhd.
      destruct (is_free b), (is_free c); simpl; try reflexivity.
  Qed.

Lemma no_adjacent_free_rev l : no_adjacent_free (rev l) = no_adjacent_free l.
Proof.
  induction l as [|b l IH]; simpl; [reflexivity|].
  rewrite no_adjacent_free_app, IH, rev_involutive. simpl.
  destruct (is_free b), (hd_free l), (no_adjacent_free l); reflexivity.
Qed.

(** A chain seen from one of its nodes. *)
Lemma no_adjacent_free_zipper rprev b nxt :
  no_adjacent_free (rev rprev ++ b :: nxt) =
  no_adjacent_free rprev && negb (hd_free rprev && is_free b)
  && negb (is_free b && hd_free nxt) && no_adjacent_free nxt.
Proof.
  rewrite no_adjacent_free_app, no_adjacent_free_rev, rev_involutive. simpl.
  destruct (no_adjacent_free rprev), (hd_free rprev), (is_free b), (hd_free nxt),
    (no_adjacent_free nxt); reflexivity.
Qed.

Lemma skip_free_hd l : hd_free (skip_free l) = false.
Proof.
  induction l as [|b l IH]; simpl; [reflexivity|].
  destruct (is_free b) eqn:E; [exact IH|]. simpl. exact E.
Qed.

Lemma skip_free_no_adjacent l :
  no_adjacent_free l = true -> no_adjacent_free (skip_free l) = true.
Proof.
  induction l as [|b l IH]; simpl; [reflexivity|].
  intros H. apply andb_true_iff in H as [_ H].
  destruct (is_free b) eqn:E; [auto|]. simpl. rewrite E. simpl. exact H.
Qed.

(** The forward loop absorbs the whole run of free successors. *)
Lemma merge_next_spec nxt : forall block,
  merge_next block nxt =
  (fst (merge_next block nxt), skip_free nxt)
  /\ is_free (fst (merge_next block nxt)) = is_free block
  /\ address (fst (merge_next block nxt)) = address block
  /\ block_id (fst (merge_next block nxt)) = block_id block.
Proof.
  induction nxt as [|n nxt IH]; intros block; simpl; [auto|].
  destruct (is_free n); simpl; [|auto].
  destruct (IH (mkBlock (address block) (wrap (size block + size n))
                  (is_free block) (block_id block))) as (H1 & H2 & H3 & H4).
  rewrite H1 at 1. simpl. auto.
Qed.

(** The backward loop absorbs the current block into the whole run of free
    predecessors. *)
Lemma merge_prev_spec rprev : forall block,
  is_free block = true ->
  fst (merge_prev rprev block) = skip_free rprev
  /\ is_free (snd (merge_prev rprev block)) = true.
Proof.
  induction rprev as [|p rprev IH]; intros block Hf; simpl; [auto|].
  destruct (is_free p) eqn:E; simpl; [|auto].
  apply IH. reflexivity.
Qed.

(** After [coalesce] on a free node, the chain around the merged node has no
    two adjacent free nodes as soon as the parts before and after had
    none. *)
Lemma coalesce_no_adjacent rprev block nxt :
  is_free block = true ->
  no_adjacent_free rprev = true ->
  no_adjacent_free nxt = true ->
  no_adjacent_free (coalesce rprev block nxt) = true.
Proof.
  intros Hf Hp Hn. unfold coalesce. rewrite Hf. simpl.
  destruct (merge_next_spec nxt block) as (H1 & H2 & _).
  destruct (merge_next block nxt) as [b1 nxt1] eqn:E1. simpl in *.
  injection H1 as ->.
  assert (Hf1 : is_free b1 = true) by congruence.
  destruct (merge_prev_spec rprev b1 Hf1) as (H3 & H4).
  destruct (merge_prev rprev b1) as [rprev2 b2] eqn:E2. simpl in *.
  subst rprev2.
  rewrite no_adjacent_free_zipper, !skip_free_hd, H4.
  rewrite (skip_free_no_adjacent _ Hp), (skip_free_no_adjacent _ Hn).
  reflexivity.
Qed.

(** *** The searches *)

Lemma drop_S_app_length {A} (pre : list A) b post :
  drop (S (length pre)) (pre ++ b :: post) = post.
Proof. induction pre as [|x pre IH]; simpl; auto. Qed.

Lemma firstFit_from_spec cur : forall i sz j b,
  firstFit_from cur i sz = Some (j, b) ->
  exists pre post,
    cur = pre ++ b :: post /\ j = (i + length pre)%nat /\ fits sz b = true
    /\ Forall (fun x => fits sz x = false) pre.
Proof.
  induction cur as [|c cur IH]; intros i sz j b H; simpl in H; [discriminate|].
  destruct (fits sz c) eqn:E.
  - injection H as <- <-. exists [], cur. simpl. repeat split; auto with lia.
  - apply IH in H as (pre & post & -> & -> & Hb & Hpre).
    exists (c :: pre), post. simpl. repeat split; auto with lia.
Qed.

Lemma bestFit_from_spec cur : forall i sz best j b,
  bestFit_from cur i sz best = Some (j, b) ->
  best = Some (j, b)
  \/ exists pre post, cur = pre ++ b :: post /\ j = (i + length pre)%nat /\ fits sz b = true.
Proof.
  induction cur as [|c cur IH]; intros i sz best j b H; simpl in H; [auto|].
  apply IH in H as [H | (pre & post & -> & -> & Hb)].
  - destruct (fits sz c) eqn:E; [|auto].
    destruct best as [[k bb]|].
    + destruct (size c <? size bb); [|auto].
      injection H as <- <-. right. exists [], cur. simpl. auto with lia.
    + injection H as <- <-. right. exists [], cur. simpl. auto with lia.
  - right. exists (c :: pre), post. simpl. auto with lia.
Qed.

Lemma worstFit_from_spec cur : forall i sz worst j b,
  worstFit_from cur i sz worst = Some (j, b) ->
  worst = Some (j, b)
  \/ exists pre post, cur = pre ++ b :: post /\ j = (i + length pre)%nat /\ fits sz b = true.
Proof.
  induction cur as [|c cur IH]; intros i sz worst j b H; simpl in H; [auto|].
  apply IH in H as [H | (pre & post & -> & -> & Hb)].
  - destruct (fits sz c) eqn:E; [|auto].
    destruct worst as [[k wb]|].
    + destruct (size wb <? size c); [|auto].
      injection H as <- <-. right. exists [], cur. simpl. auto with lia.
    + injection H as <- <-. right. exists [], cur. simpl. auto with lia.
  - right. exists (c :: pre), post. simpl. auto with lia.
Qed.

(** The block found is a node of the chain, at the position returned, and
    passes the test of the search. *)
Lemma findFreeBlock_spec a sz i b :
  findFreeBlock a sz = Some (i, b) ->
  exists pre post, head a = pre ++ b :: post /\ i = length pre /\ fits sz b = true.
Proof.
  unfold findFreeBlock, firstFit, bestFit, worstFit. intros H.
  destruct (strategy a).
  - apply firstFit_from_spec in H as (pre & post & ? & ? & ? & _). eauto.
  - apply bestFit_from_spec in H as [H | (pre & post & ? & ? & ?)]; [discriminate|eauto].
  - apply worstFit_from_spec in H as [H | (pre & post & ? & ? & ?)]; [discriminate|eauto].
Qed.

Lemma firstFit_from_none cur : forall i sz,
  Forall (fun x => fits sz x = false) cur -> firstFit_from cur i sz = None.
Proof.
  induction cur as [|c cur IH]; intros i sz H; simpl; [reflexivity|].
  inversion H as [|? ? Hc Hcur]; subst. rewrite Hc. auto.
Qed.

Lemma bestFit_from_none cur : forall i sz best,
  Forall (fun x => fits sz x = false) cur -> bestFit_from cur i sz best = best.
Proof.
  induction cur as [|c cur IH]; intros i sz best H; simpl; [reflexivity|].
  inversion H as [|? ? Hc Hcur]; subst. rewrite Hc. auto.
Qed.

Lemma worstFit_from_none cur : forall i sz worst,
  Forall (fun x => fits sz x = false) cur -> worstFit_from cur i sz worst = worst.
Proof.
  induction cur as [|c cur IH]; intros i sz worst H; simpl; [reflexivity|].
  inversion H as [|? ? Hc Hcur]; subst. rewrite Hc. auto.
Qed.

(** No strategy finds a block when none passes the test. *)
Lemma findFreeBlock_none a sz :
  Forall (fun x => fits sz x = false) (head a) -> findFreeBlock a sz = None.
Proof.
  intros H. unfold findFreeBlock, firstFit, bestFit, worstFit.
  destruct (strategy a);
    auto using firstFit_from_none, bestFit_from_none, worstFit_from_none.
Qed.

Lemma free_find_spec cur : forall rprev id rp b nxt,
  free_find rprev cur id = Some (rp, b, nxt) ->
  rev rprev ++ cur = rev rp ++ b :: nxt /\ is_free b = false /\ block_id b = id.
Proof.
  induction cur as [|c cur IH]; intros rprev id rp b nxt H; simpl in H; [discriminate|].
  destruct ((block_id c =? id) && negb (is_free c)) eqn:E.
  - injection H as <- <- <-. apply andb_true_iff in E as [E1 E2].
    apply Z.eqb_eq in E1. apply negb_true_iff in E2. auto.
  - apply IH in H as (H & ? & ?). simpl in H. rewrite <- app_assoc in H. auto.
Qed.

(** *** The operations, case by case *)

Lemma allocate_cases a sz :
  (allocate a sz = (NotInitialized, a) /\ head a = [])
  \/ (allocate a sz = (InvalidSize, a) /\ head a <> [] /\ sz = 0)
  \/ (allocate a sz = (OutOfMemory, set_stats a (count_failure (stats a)))
      /\ head a <> [] /\ sz <> 0 /\ findFreeBlock a sz = None)
  \/ (exists pre b post,
        head a = pre ++ b :: post /\ fits sz b = true /\ sz <> 0
        /\ findFreeBlock a sz = Some (length pre, b)
        /\ allocate a sz =
           (Allocated (next_block_id a),
            updateStats
              (mkAllocator (pre ++ split_block b sz (next_block_id a) ++ post)
                 (total_size a) (strategy a) (next_block_id a + 1)
                 (count_allocation (stats a))))).
Proof.
  unfold allocate.
  destruct (head a) as [|m l] eqn:E; [left; auto|]. rewrite <- E. right.
  assert (Hne : head a <> []) by (rewrite E; discriminate).
  destruct (sz =? 0) eqn:Ez.
  { apply Z.eqb_eq in Ez. left. auto. }
  apply Z.eqb_neq in Ez. right.
  destruct (findFreeBlock a sz) as [[i b]|] eqn:F; [right|left; auto].
  destruct (findFreeBlock_spec _ _ _ _ F) as (pre & post & Hh & -> & Hb).
  exists pre, b, post. repeat split; auto.
  rewrite Hh, take_app_length, drop_S_app_length.
  unfold split_block, count_allocation. simpl. reflexivity.
Qed.

Lemma free_cases a id :
  free a id = (false, a)
  \/ exists rprev b nxt,
       head a = rev rprev ++ b :: nxt /\ is_free b = false /\ block_id b = id
       /\ free a id =
          (true,
           updateStats
             (mkAllocator
                (coalesce rprev (mkBlock (address b) (size b) true (-1)) nxt)
                (total_size a) (strategy a) (next_block_id a)
                (count_deallocation (stats a)))).
Proof.
  unfold free.
  destruct (head a) as [|m l] eqn:E; [left; auto|]. rewrite <- E.
  destruct (free_find [] (head a) id) as [[[rprev b] nxt]|] eqn:F; [right|left; auto].
  apply free_find_spec in F as (Hh & Hb & Hid). simpl in Hh.
  exists rprev, b, nxt. auto.
Qed.

Lemma updateStats_head a : head (updateStats a) = head a.
Proof. reflexivity. Qed.

(** *** Full coalescing is an invariant *)

Lemma allocate_no_adjacent a sz :
  no_adjacent_free (head a) = true ->
  no_adjacent_free (head (snd (allocate a sz))) = true.
Proof.
  intros H.
  destruct (allocate_cases a sz)
    as [[-> _] | [[-> _] | [[-> _] | (pre & b & post & Hh & Hb & _ & _ & ->)]]];
    try exact H.
  simpl. rewrite Hh in H.
  apply andb_true_iff in Hb as [Hf _].
  rewrite no_adjacent_free_app in H |- *.
  apply andb_true_iff in H as [H H3]. apply andb_true_iff in H as [H1 H2].
  simpl in H2, H3. rewrite Hf in H2, H3. simpl in H2.
  apply andb_true_iff in H2 as [H2 H4]. apply negb_true_iff in H2.
  rewrite H1. unfold split_block. simpl.
  destruct (sz <? size b); simpl; rewrite ?H2, ?H4, ?andb_false_r; reflexivity.
Qed.

Lemma free_no_adjacent a id :
  no_adjacent_free (head a) = true ->
  no_adjacent_free (head (snd (free a id))) = true.
Proof.
  intros H.
  destruct (free_cases a id) as [-> | (rprev & b & nxt & Hh & _ & _ & ->)];
    [exact H|].
  simpl. rewrite Hh, no_adjacent_free_zipper in H.
  repeat (apply andb_true_iff in H as [H ?]).
  apply coalesce_no_adjacent; auto.
Qed.

Lemma step_no_adjacent a o :
  no_adjacent_free (head a) = true ->
  no_adjacent_free (head (step a o)) = true.
Proof.
  intros H. destruct o as [sz|strat|sz|id]; cbn [step].
  - reflexivity.
  - exact H.
  - apply allocate_no_adjacent, H.
  - apply free_no_adjacent, H.
Qed.


(** *** Sizes along the chain *)

Lemma sum_list_app l1 l2 : sum_list (l1 ++ l2) = sum_list l1 + sum_list l2.
Proof. induction l1 as [|x l1 IH]; simpl; lia. Qed.

Lemma chain_size_app l1 l2 : chain_size (l1 ++ l2) = chain_size l1 + chain_size l2.
Proof. unfold chain_size. rewrite map_app. apply sum_list_app. Qed.

Lemma chain_size_cons b l : chain_size (b :: l) = size b + chain_size l.
Proof. reflexivity. Qed.

Lemma chain_size_rev l : chain_size (rev l) = chain_size l.
Proof.
  induction l as [|b l IH]; simpl; [reflexivity|].
  rewrite chain_size_app, IH, !chain_size_cons. unfold chain_size. simpl. lia.
Qed.

Lemma chain_size_nonneg l : sizes_nonneg l -> 0 <= chain_size l.
Proof.
  induction 1 as [|b l Hb Hl IH]; [reflexivity|].
  rewrite chain_size_cons. lia.
Qed.

Lemma sizes_nonneg_rev l : sizes_nonneg (rev l) <-> sizes_nonneg l.
Proof.
  unfold sizes_nonneg. rewrite !Forall_forall.
  split; intros H x Hx; apply H; [apply -> in_rev|apply in_rev]; exact Hx.
Qed.

Lemma used_free_chain_size l :
  sum_list (used_sizes l) + sum_list (free_sizes l) = chain_size l.
Proof.
  induction l as [|b l IH]; [reflexivity|].
  rewrite chain_size_cons. simpl. destruct (is_free b); simpl; lia.
Qed.

Lemma sum_used_nonneg l : sizes_nonneg l -> 0 <= sum_list (used_sizes l).
Proof.
  induction 1 as [|b l Hb Hl IH]; simpl; [lia|]. destruct (is_free b); simpl; lia.
Qed.

Lemma sum_free_nonneg l : sizes_nonneg l -> 0 <= sum_list (free_sizes l).
Proof.
  induction 1 as [|b l Hb Hl IH]; simpl; [lia|]. destruct (is_free b); simpl; lia.
Qed.

Lemma max_list_nonneg l : 0 <= max_list l.
Proof. induction l as [|x l IH]; simpl; lia. Qed.

Lemma free_run_size_nonneg l : sizes_nonneg l -> 0 <= free_run_size l.
Proof.
  induction 1 as [|b l Hb Hl IH]; simpl; [lia|]. destruct (is_free b); lia.
Qed.

Lemma chain_size_skip_free l :
  chain_size l = free_run_size l + chain_size (skip_free l).
Proof.
  induction l as [|b l IH]; [reflexivity|]. simpl.
  destruct (is_free b); rewrite ?chain_size_cons; lia.
Qed.

Lemma sizes_nonneg_skip_free l : sizes_nonneg l -> sizes_nonneg (skip_free l).
Proof.
  induction 1 as [|b l Hb Hl IH]; simpl; [constructor|].
  destruct (is_free b); [exact IH|constructor; assumption].
Qed.

(** The merged node has the size of the whole run: no addition wraps as long
    as the chain fits the address space. *)
Lemma merge_next_size nxt : forall block,
  sizes_nonneg nxt -> 0 <= size block ->
  size block + chain_size nxt < SIZE_MAX1 ->
  size (fst (merge_next block nxt)) = size block + free_run_size nxt.
Proof.
  induction nxt as [|n nxt IH]; intros block Hn Hb Hlt; simpl; [lia|].
  inversion Hn as [|? ? Hn1 Hn2]; subst. rewrite chain_size_cons in Hlt.
  pose proof (chain_size_nonneg _ Hn2).
  destruct (is_free n); simpl; [|lia].
  rewrite IH; simpl; try assumption; rewrite wrap_small; unfold is_size_t; lia.
Qed.

Lemma merge_prev_size rprev : forall block,
  sizes_nonneg rprev -> 0 <= size block ->
  size block + chain_size rprev < SIZE_MAX1 ->
  size (snd (merge_prev rprev block)) = free_run_size rprev + size block.
Proof.
  induction rprev as [|p rprev IH]; intros block Hp Hb Hlt; simpl; [lia|].
  inversion Hp as [|? ? Hp1 Hp2]; subst. rewrite chain_size_cons in Hlt.
  pose proof (chain_size_nonneg _ Hp2).
  destruct (is_free p); simpl; [|lia].
  rewrite IH; simpl; try assumption; rewrite wrap_small; unfold is_size_t; lia.
Qed.

(** [coalesce] on a free node replaces the maximal run of free nodes around
    it by one free node whose size is the size of the run. *)
Lemma coalesce_spec rprev block nxt :
  is_free block = true ->
  sizes_nonneg rprev -> sizes_nonneg nxt -> 0 <= size block ->
  chain_size rprev + size block + chain_size nxt < SIZE_MAX1 ->
  exists merged,
    coalesce rprev block nxt = rev (skip_free rprev) ++ merged :: skip_free nxt
    /\ is_free merged = true
    /\ size merged = free_run_size rprev + size block + free_run_size nxt.
Proof.
  intros Hf Hp Hn Hb Hlt. unfold coalesce. rewrite Hf. simpl.
  assert (Hcp := chain_size_nonneg _ Hp). assert (Hcn := chain_size_nonneg _ Hn).
  assert (Hrn := free_run_size_nonneg _ Hn).
  assert (Hsk := chain_size_skip_free nxt).
  assert (Hsn := chain_size_nonneg _ (sizes_nonneg_skip_free _ Hn)).
  destruct (merge_next_spec nxt block) as (H1 & H2 & _).
  assert (Hs1 := merge_next_size nxt block Hn Hb ltac:(lia)).
  destruct (merge_next block nxt) as [b1 nxt1] eqn:E1. simpl in *.
  injection H1 as ->.
  assert (Hf1 : is_free b1 = true) by congruence.
  destruct (merge_prev_spec rprev b1 Hf1) as (H3 & H4).
  assert (Hs2 := merge_prev_size rprev b1 Hp ltac:(lia) ltac:(lia)).
  destruct (merge_prev rprev b1) as [rprev2 b2] eqn:E2. simpl in *.
  subst rprev2. exists b2. repeat split; [assumption|lia].
Qed.

Lemma coalesce_sizes rprev block nxt :
  is_free block = true ->
  sizes_nonneg rprev -> sizes_nonneg nxt -> 0 <= size block ->
  chain_size rprev + size block + chain_size nxt < SIZE_MAX1 ->
  sizes_nonneg (coalesce rprev block nxt)
  /\ chain_size (coalesce rprev block nxt) =
     chain_size rprev + size block + chain_size nxt.
Proof.
  intros Hf Hp Hn Hb Hlt.
  destruct (coalesce_spec rprev block nxt Hf Hp Hn Hb Hlt) as (m & -> & _ & Hm).
  pose proof (free_run_size_nonneg _ Hn). pose proof (free_run_size_nonneg _ Hp).
  split.
  - apply Forall_app. split.
    + apply sizes_nonneg_rev, sizes_nonneg_skip_free, Hp.
    + constructor; [lia|]. apply sizes_nonneg_skip_free, Hn.
  - rewrite chain_size_app, chain_size_rev, chain_size_cons, Hm.
    rewrite (chain_size_skip_free rprev), (chain_size_skip_free nxt). lia.
Qed.

(** *** The statistics loop *)

Lemma updateStats_loop_spec l : forall c,
  sizes_nonneg l ->
  0 <= acc_used c -> 0 <= acc_free c -> 0 <= total_free c -> 0 <= largest_free c ->
  acc_used c + sum_list (used_sizes l) < SIZE_MAX1 ->
  acc_free c + sum_list (free_sizes l) < SIZE_MAX1 ->
  total_free c + sum_list (free_sizes l) < SIZE_MAX1 ->
  updateStats_loop l c =
  mkAcc (acc_used c + sum_list (used_sizes l))
    (acc_free c + sum_list (free_sizes l))
    (Z.max (largest_free c) (max_list (free_sizes l)))
    (total_free c + sum_list (free_sizes l))
    (free_block_count c + Z.of_nat (length (free_sizes l))).
Proof.
  induction l as [|b l IH]; intros c Hl Hu Hf Ht Hm Bu Bf Bt; simpl.
  - destruct c; simpl in *. f_equal; lia.
  - inversion Hl as [|? ? Hb Hl']; subst.
    assert (Hsu := sum_used_nonneg _ Hl'). assert (Hsf := sum_free_nonneg _ Hl').
    simpl in Bu, Bf, Bt.
    destruct (is_free b); simpl in *.
    + rewrite IH; simpl; try assumption;
        rewrite ?wrap_small by (unfold is_size_t; lia);
        try (destruct (Z.ltb_spec (largest_free c) (size b)); lia).
      f_equal; try lia.
      destruct (Z.ltb_spec (largest_free c) (size b)); lia.
    + rewrite IH; simpl; try assumption;
        rewrite ?wrap_small by (unfold is_size_t; lia); try lia.
      f_equal; lia.
Qed.

Lemma updateStats_spec a :
  sizes_nonneg (head a) -> chain_size (head a) < SIZE_MAX1 ->
  updateStats a =
  mkAllocator (head a) (total_size a) (strategy a) (next_block_id a)
    (mkStats (total_memory (stats a))
       (sum_list (used_sizes (head a))) (sum_list (free_sizes (head a)))
       (num_allocations (stats a)) (num_deallocations (stats a))
       (allocation_failures (stats a)) (chain_fragmentation (head a))).
Proof.
  intros Hl Hlt. unfold updateStats, set_stats.
  pose proof (sum_used_nonneg _ Hl). pose proof (sum_free_nonneg _ Hl).
  pose proof (used_free_chain_size (head a)).
  rewrite updateStats_loop_spec; simpl; try assumption; try lia.
  unfold chain_fragmentation. pose proof (max_list_nonneg (free_sizes (head a))).
  rewrite Z.max_r by lia. reflexivity.
Qed.

(** *** The invariant of the reachable states *)

Lemma alloc_inv_new : alloc_inv Allocator_new.
Proof. split; try reflexivity; [constructor | unfold is_size_t, SIZE_MAX1; simpl; lia]. Qed.

Lemma alloc_inv_initMemory a sz : is_size_t sz -> alloc_inv (snd (initMemory a sz)).
Proof.
  intros Hsz. split; simpl; try reflexivity; try assumption.
  - repeat constructor. simpl. apply Hsz.
  - unfold chain_size. simpl. lia.
  - lia.
  - unfold chain_fragmentation, fragmentation. simpl.
    rewrite andb_false_r. reflexivity.
Qed.

Lemma alloc_inv_updateStats h T st n s :
  sizes_nonneg h -> chain_size h = T -> is_size_t T -> total_memory s = T ->
  alloc_inv (updateStats (mkAllocator h T st n s)).
Proof.
  intros Hn Hc Hr Ht. rewrite updateStats_spec; simpl; [|assumption|].
  - split; simpl; auto.
  - rewrite Hc. apply Hr.
Qed.

Lemma split_block_sizes b sz id :
  0 <= sz -> fits sz b = true -> size b < SIZE_MAX1 ->
  sizes_nonneg (split_block b sz id) /\ chain_size (split_block b sz id) = size b.
Proof.
  intros Hsz Hb Hlt. apply andb_true_iff in Hb as [_ Hle]. apply Z.leb_le in Hle.
  unfold split_block, chain_size.
  destruct (Z.ltb_spec sz (size b)); cbn [map sum_list foldr size].
  - rewrite (wrap_small (size b - sz)) by (unfold is_size_t; lia).
    split; [repeat constructor; cbn [size]; lia | lia].
  - split; [repeat constructor; cbn [size]; lia | lia].
Qed.

Lemma alloc_inv_allocate a sz :
  is_size_t sz -> alloc_inv a -> alloc_inv (snd (allocate a sz)).
Proof.
  intros Hsz [Hn Hc Hr Ht Hu Hf Hg].
  destruct (allocate_cases a sz)
    as [[-> _] | [[-> _] | [[-> _] | (pre & b & post & Hh & Hb & _ & _ & ->)]]];
    cbn [snd]; try (split; assumption).
  rewrite Hh in Hn, Hc. apply Forall_app in Hn as [Hn1 Hn2].
  inversion Hn2 as [|? ? Hnb Hn3]; subst.
  rewrite chain_size_app, chain_size_cons in Hc.
  assert (H1 := chain_size_nonneg _ Hn1). assert (H3 := chain_size_nonneg _ Hn3).
  destruct (split_block_sizes b sz (next_block_id a)) as [Hs1 Hs2];
    [apply Hsz | exact Hb | unfold is_size_t in Hr; lia |].
  apply alloc_inv_updateStats; try assumption.
  - apply Forall_app. split; [assumption|]. apply Forall_app. split; assumption.
  - rewrite !chain_size_app, Hs2. lia.
Qed.

Lemma alloc_inv_free a id : alloc_inv a -> alloc_inv (snd (free a id)).
Proof.
  intros [Hn Hc Hr Ht Hu Hf Hg].
  destruct (free_cases a id) as [-> | (rprev & b & nxt & Hh & _ & _ & ->)];
    simpl; [split; assumption|].
  rewrite Hh in Hn, Hc. apply Forall_app in Hn as [Hn1 Hn2].
  inversion Hn2 as [|? ? Hnb Hn3]; subst.
  apply (proj1 (sizes_nonneg_rev rprev)) in Hn1.
  rewrite chain_size_app, chain_size_rev, chain_size_cons in Hc.
  destruct (coalesce_sizes rprev (mkBlock (address b) (size b) true (-1)) nxt)
    as [Hs1 Hs2]; cbn [size is_free]; try assumption; try reflexivity.
  { unfold is_size_t in Hr. lia. }
  apply alloc_inv_updateStats; try assumption.
  rewrite Hs2. cbn [size]. lia.
Qed.

Lemma alloc_inv_step a o : valid_op o -> alloc_inv a -> alloc_inv (step a o).
Proof.
  intros Hv Ha. destruct o as [sz|strat|sz|id]; cbn [step valid_op] in *.
  - apply alloc_inv_initMemory, Hv.
  - destruct Ha. split; assumption.
  - apply alloc_inv_allocate; assumption.
  - apply alloc_inv_free, Ha.
Qed.

Lemma reachable_inv a : reachable a -> alloc_inv a.
Proof.
  induction 1 as [|a o Hr IH Hv]; [apply alloc_inv_new | apply alloc_inv_step; assumption].
Qed.

Lemma reachable_run a ops :
  reachable a -> Forall valid_op ops -> reachable (run a ops).
Proof.
  intros Ha Hops. revert a Ha. induction Hops as [|o ops Ho Hops IH]; intros a Ha.
  - exact Ha.
  - simpl. apply IH. apply reachable_step; assumption.
Qed.

(** C1. In every reachable state of the allocator (any sequence of
    [initMemory], [setStrategy], [allocate] and [free] from the constructed
    allocator) no two adjacent nodes of the chain are both free; a successful
    [free] replaces the freed node and the whole runs of free nodes on both
    of its sides by one free node of their total size. *)
Theorem C1_no_adjacent_free_reachable a :
  reachable a ->
  no_adjacent_free (head a) = true
  /\ forall id,
       fst (free a id) = true ->
       exists rprev b nxt merged,
         head a = rev rprev ++ b :: nxt
         /\ is_free b = false /\ block_id b = id
         /\ head (snd (free a id)) = rev (skip_free rprev) ++ merged :: skip_free nxt
         /\ is_free merged = true
         /\ size merged = free_run_size rprev + size b + free_run_size nxt
         /\ no_adjacent_free (head (snd (free a id))) = true.
Proof.
  intros Hr. split.
  - induction Hr as [|a o Hr IH Hv]; [reflexivity|].
    apply step_no_adjacent, IH.
  - intros id Hfree.
    assert (Hadj : no_adjacent_free (head a) = true).
    { clear Hfree. induction Hr as [|a o Hr IH Hv]; [reflexivity|].
      apply step_no_adjacent, IH. }
    destruct (reachable_inv a Hr) as [Hn Hc Hrange _ _ _ _].
    destruct (free_cases a id) as [Hf | (rprev & b & nxt & Hh & Hb & Hid & Hf)].
    { rewrite Hf in Hfree. discriminate. }
    rewrite Hh in Hn, Hc. apply Forall_app in Hn as [Hn1 Hn2].
    pose proof (Forall_inv Hn2) as Hnb. pose proof (Forall_inv_tail Hn2) as Hn3.
    apply (proj1 (sizes_nonneg_rev rprev)) in Hn1.
    rewrite chain_size_app, chain_size_rev, chain_size_cons in Hc.
    destruct (coalesce_spec rprev (mkBlock (address b) (size b) true (-1)) nxt)
      as (merged & Hco & Hm1 & Hm2); cbn [size is_free]; try assumption;
      try reflexivity.
    { unfold is_size_t in Hrange. lia. }
    exists rprev, b, nxt, merged.
    split; [exact Hh|]. split; [exact Hb|]. split; [exact Hid|].
    split; [rewrite Hf; cbn [snd]; rewrite updateStats_head; exact Hco|].
    split; [exact Hm1|]. split; [exact Hm2|].
    apply free_no_adjacent, Hadj.
Qed.

Lemma C1_witness :
  let a := run Allocator_new
             [OpInit 1000; OpAllocate 100; OpAllocate 200; OpAllocate 300;
              OpFree 1; OpFree 3] in
  no_adjacent_free (head a) = true
  /\ forall id,
       fst (free a id) = true ->
       exists rprev b nxt merged,
         head a = rev rprev ++ b :: nxt
         /\ is_free b = false /\ block_id b = id
         /\ head (snd (free a id)) = rev (skip_free rprev) ++ merged :: skip_free nxt
         /\ is_free merged = true
         /\ size merged = free_run_size rprev + size b + free_run_size nxt
         /\ no_adjacent_free (head (snd (free a id))) = true.
Proof.
  intros a. apply C1_no_adjacent_free_reachable.
  apply reachable_run; [apply reachable_new|].
  repeat constructor; unfold is_size_t, is_int, SIZE_MAX1; simpl; lia.
Defined.

(** Freeing the block between two free blocks leaves one free block of the
    whole memory. *)
Example free_merges_both_sides :
  head (run Allocator_new
          [OpInit 1000; OpAllocate 100; OpAllocate 200; OpAllocate 300;
           OpFree 1; OpFree 3; OpFree 2])
  = [mkBlock 0 1000 true (-1)].
Proof. reflexivity. Qed.

(** C7. In every reachable state [used_memory + free_memory = total_memory],
    and the two counters are the sums of the sizes of the allocated and of
    the free blocks of the chain. *)
Theorem C7_used_plus_free_is_total a :
  reachable a ->
  used_memory (stats a) + free_memory (stats a) = total_memory (stats a)
  /\ used_memory (stats a) = sum_list (used_sizes (head a))
  /\ free_memory (stats a) = sum_list (free_sizes (head a)).
Proof.
  intros Hr. destruct (reachable_inv a Hr) as [Hn Hc _ Ht Hu Hf _].
  repeat split; try assumption.
  rewrite Hu, Hf, Ht, <- Hc. apply used_free_chain_size.
Qed.

Lemma C7_witness :
  let a := run Allocator_new
             [OpInit 1000; OpAllocate 100; OpAllocate 200; OpAllocate 300;
              OpFree 2; OpAllocate 5000] in
  used_memory (stats a) + free_memory (stats a) = total_memory (stats a)
  /\ used_memory (stats a) = sum_list (used_sizes (head a))
  /\ free_memory (stats a) = sum_list (free_sizes (head a)).
Proof.
  apply C7_used_plus_free_is_total.
  apply reachable_run; [apply reachable_new|].
  repeat constructor; unfold is_size_t, is_int, SIZE_MAX1; simpl; lia.
Defined.

(** *** Fragmentation *)

Lemma sum_list_Permutation l1 l2 : Permutation l1 l2 -> sum_list l1 = sum_list l2.
Proof. induction 1; simpl; lia. Qed.

Lemma max_list_Permutation l1 l2 : Permutation l1 l2 -> max_list l1 = max_list l2.
Proof. induction 1; simpl; lia. Qed.

(** C9. In every reachable state [external_fragmentation] is
    [(1 - largest_free / total_free) * 100], in binary64 arithmetic, when the
    chain has more than one free block and their total size is positive, and
    [0] otherwise; it is [60.0] when the free blocks have the sizes 200, 150
    and 150. *)
Theorem C9_external_fragmentation a :
  reachable a ->
  let fs := free_sizes (head a) in
  external_fragmentation (stats a) =
    (if (1 <? Z.of_nat (length fs)) && (0 <? sum_list fs) then
       dmul
         (dsub d1
            (ddiv (double_of_size_t (max_list fs)) (double_of_size_t (sum_list fs))))
         d100
     else d0)
  /\ (Permutation fs [200; 150; 150] -> external_fragmentation (stats a) = d60).
Proof.
  intros Hr fs. destruct (reachable_inv a Hr) as [_ _ _ _ _ _ Hg].
  rewrite Hg. unfold chain_fragmentation, fragmentation. fold fs. split.
  - rewrite andb_comm. reflexivity.
  - intros Hp.
    rewrite (sum_list_Permutation _ _ Hp), (max_list_Permutation _ _ Hp),
      (Permutation_length Hp).
    vm_compute. reflexivity.
Qed.

Lemma C9_witness :
  let a := run Allocator_new
             [OpInit 1000; OpAllocate 150; OpAllocate 100; OpAllocate 200;
              OpAllocate 100; OpAllocate 150; OpAllocate 300;
              OpFree 1; OpFree 3; OpFree 5] in
  external_fragmentation (stats a) = d60.
Proof.
  intros a.
  assert (Hr : reachable a).
  { apply reachable_run; [apply reachable_new|].
    repeat constructor; unfold is_size_t, is_int, SIZE_MAX1; simpl; lia. }
  apply (proj2 (C9_external_fragmentation a Hr)).
  change (free_sizes (head a)) with [150; 200; 150]. apply perm_swap.
Defined.

(** *** Failing allocations *)

Lemma no_fit_Forall l sz :
  (forall b, In b l -> is_free b = true -> size b < sz) ->
  Forall (fun b => fits sz b = false) l.
Proof.
  intros H. apply Forall_forall. intros b Hb. unfold fits.
  destruct (is_free b) eqn:E; [|reflexivity]. simpl.
  apply Z.leb_gt. apply H; assumption.
Qed.

(** C8. The search is reached by a non-zero request only (a request of
    zero bytes has been answered [InvalidSize] before, see [allocate_zero]).
    For such a request on an initialized allocator none of whose free blocks
    has at least the requested size, [allocate] fails with [OutOfMemory],
    adds one to [allocation_failures] (a [size_t] counter) and changes
    neither the chain nor any other field. *)
Theorem C8_allocate_out_of_memory a sz :
  isInitialized a = true ->
  sz <> 0 ->
  (forall b, In b (head a) -> is_free b = true -> size b < sz) ->
  fst (allocate a sz) = OutOfMemory
  /\ return_value (fst (allocate a sz)) = -1
  /\ let a' := snd (allocate a sz) in
     head a' = head a
     /\ allocation_failures (stats a') = wrap (allocation_failures (stats a) + 1)
     /\ total_memory (stats a') = total_memory (stats a)
     /\ used_memory (stats a') = used_memory (stats a)
     /\ free_memory (stats a') = free_memory (stats a)
     /\ num_allocations (stats a') = num_allocations (stats a)
     /\ num_deallocations (stats a') = num_deallocations (stats a)
     /\ external_fragmentation (stats a') = external_fragmentation (stats a)
     /\ total_size a' = total_size a
     /\ strategy a' = strategy a
     /\ next_block_id a' = next_block_id a.
Proof.
  intros Hi Hsz Hno.
  assert (Hnone := findFreeBlock_none a sz (no_fit_Forall _ _ Hno)).
  destruct (allocate_cases a sz)
    as [[_ Hh] | [[_ [_ ?]] | [[-> _] | (pre & b & post & _ & _ & _ & Hf & _)]]].
  - unfold isInitialized in Hi. rewrite Hh in Hi. discriminate.
  - contradiction.
  - simpl. repeat split; reflexivity.
  - congruence.
Qed.

Lemma C8_witness :
  let a := run Allocator_new [OpInit 100; OpAllocate 60] in
  fst (allocate a 50) = OutOfMemory
  /\ return_value (fst (allocate a 50)) = -1
  /\ let a' := snd (allocate a 50) in
     head a' = head a
     /\ allocation_failures (stats a') = wrap (allocation_failures (stats a) + 1)
     /\ total_memory (stats a') = total_memory (stats a)
     /\ used_memory (stats a') = used_memory (stats a)
     /\ free_memory (stats a') = free_memory (stats a)
     /\ num_allocations (stats a') = num_allocations (stats a)
     /\ num_deallocations (stats a') = num_deallocations (stats a)
     /\ external_fragmentation (stats a') = external_fragmentation (stats a)
     /\ total_size a' = total_size a
     /\ strategy a' = strategy a
     /\ next_block_id a' = next_block_id a.
Proof.
  intros a. apply C8_allocate_out_of_memory.
  - reflexivity.
  - lia.
  - intros b Hb Hf. vm_compute in Hb.
    destruct Hb as [<- | [<- | []]]; [discriminate Hf | simpl; lia].
Defined.

(** The size check comes before the search: a request of zero bytes on an
    initialized allocator is answered [InvalidSize] and changes nothing,
    whatever the chain holds. *)
Lemma allocate_zero a :
  isInitialized a = true -> allocate a 0 = (InvalidSize, a).
Proof.
  unfold isInitialized, allocate. destruct (head a); [discriminate | reflexivity].
Qed.

(** On a chain without free block a request of zero bytes is not counted as
    a failure. *)
Example allocate_zero_full_chain :
  let a := run Allocator_new [OpInit 100; OpAllocate 100] in
  free_sizes (head a) = []
  /\ fst (allocate a 0) = InvalidSize
  /\ allocation_failures (stats (snd (allocate a 0))) = allocation_failures (stats a).
Proof. repeat split. Qed.

(** *** A memory of zero bytes *)

Lemma zero_chain_allocate a sz :
  is_size_t sz -> head a = [zero_block] ->
  fst (allocate a sz) = (if sz =? 0 then InvalidSize else OutOfMemory)
  /\ head (snd (allocate a sz)) = [zero_block].
Proof.
  intros Hsz Hh.
  destruct (allocate_cases a sz)
    as [[_ H0] | [[-> [_ ->]] | [[-> [_ [Hne _]]] | (pre & b & post & Hp & Hb & Hne & _ & _)]]].
  - congruence.
  - auto.
  - apply Z.eqb_neq in Hne. rewrite Hne. auto.
  - exfalso. rewrite Hh in Hp.
    destruct pre as [|p pre]; [|destruct pre; discriminate].
    injection Hp as <- _. apply andb_true_iff in Hb as [_ Hb].
    apply Z.leb_le in Hb. simpl in Hb. unfold is_size_t in Hsz. lia.
Qed.

Lemma zero_chain_free a id : head a = [zero_block] -> head (snd (free a id)) = [zero_block].
Proof.
  intros Hh. unfold free. rewrite Hh. simpl. rewrite andb_false_r. exact Hh.
Qed.

Lemma zero_chain_run ops : forall a,
  Forall valid_op ops -> Forall not_init ops ->
  head a = [zero_block] -> head (run a ops) = [zero_block].
Proof.
  induction ops as [|o ops IH]; intros a Hv Hn Hh; [exact Hh|].
  inversion Hv as [|? ? Hv1 Hv2]; inversion Hn as [|? ? Hn1 Hn2]; subst.
  simpl. apply IH; try assumption.
  destruct o as [sz|strat|sz|id]; cbn [step] in *.
  - contradiction.
  - exact Hh.
  - apply zero_chain_allocate; assumption.
  - apply zero_chain_free, Hh.
Qed.

(** C10. [initMemory(0)] succeeds: it returns [true], the allocator is
    initialized, and its chain is one free block of size 0 at address 0.
    After any further operations other than [initMemory], [allocate] fails:
    with [InvalidSize] for a request of zero bytes and with [OutOfMemory]
    for any other. *)
Theorem C10_initMemory_zero a ops sz :
  Forall valid_op ops -> Forall not_init ops -> is_size_t sz ->
  fst (initMemory a 0) = true
  /\ isInitialized (snd (initMemory a 0)) = true
  /\ head (snd (initMemory a 0)) = [mkBlock 0 0 true (-1)]
  /\ fst (allocate (run (snd (initMemory a 0)) ops) sz) =
     (if sz =? 0 then InvalidSize else OutOfMemory)
  /\ return_value (fst (allocate (run (snd (initMemory a 0)) ops) sz)) = -1.
Proof.
  intros Hv Hn Hsz. repeat split.
  - apply zero_chain_allocate; [assumption|].
    apply zero_chain_run; auto.
  - destruct (zero_chain_allocate (run (snd (initMemory a 0)) ops) sz Hsz) as [-> _].
    + apply zero_chain_run; auto.
    + destruct (sz =? 0); reflexivity.
Qed.

Lemma C10_witness :
  let a := run Allocator_new [OpInit 64; OpAllocate 8] in
  let ops := [OpAllocate 1; OpFree 1; OpSetStrategy BEST_FIT; OpAllocate 0] in
  fst (initMemory a 0) = true
  /\ isInitialized (snd (initMemory a 0)) = true
  /\ head (snd (initMemory a 0)) = [mkBlock 0 0 true (-1)]
  /\ fst (allocate (run (snd (initMemory a 0)) ops) 16) =
     (if 16 =? 0 then InvalidSize else OutOfMemory)
  /\ return_value (fst (allocate (run (snd (initMemory a 0)) ops) 16)) = -1.
Proof.
  intros a ops. apply C10_initMemory_zero.
  - repeat constructor; unfold is_size_t, is_int, SIZE_MAX1; simpl; lia.
  - repeat constructor.
  - unfold is_size_t, SIZE_MAX1. lia.
Defined.

(** *** Placement *)

Lemma free_sizes_app l1 l2 : free_sizes (l1 ++ l2) = free_sizes l1 ++ free_sizes l2.
Proof.
  induction l1 as [|b l1 IH]; simpl; [reflexivity|].
  destruct (is_free b); simpl; congruence.
Qed.

Lemma free_sizes_nil_no_fit l sz :
  free_sizes l = [] -> Forall (fun x => fits sz x = false) l.
Proof.
  induction l as [|b l IH]; simpl; intros H; [constructor|].
  unfold fits at 1. destruct (is_free b) eqn:E; [discriminate|].
  constructor; [unfold fits; rewrite E; reflexivity | auto].
Qed.

(** The first free block of a chain, and what is around it. *)
Lemma free_sizes_cons_inv l : forall x xs,
  free_sizes l = x :: xs ->
  exists pre b post,
    l = pre ++ b :: post /\ free_sizes pre = [] /\ is_free b = true
    /\ size b = x /\ free_sizes post = xs.
Proof.
  induction l as [|c l IH]; simpl; intros x xs H; [discriminate|].
  destruct (is_free c) eqn:E.
  - injection H as <- <-. exists [], c, l. auto.
  - destruct (IH _ _ H) as (pre & b & post & -> & Hp & Hb & Hs & Hx).
    exists (c :: pre), b, post. simpl. rewrite E. auto.
Qed.

Lemma firstFit_from_app pre rest : forall i sz,
  Forall (fun x => fits sz x = false) pre ->
  firstFit_from (pre ++ rest) i sz = firstFit_from rest (i + length pre) sz.
Proof.
  induction pre as [|c pre IH]; intros i sz H; simpl.
  - f_equal. lia.
  - inversion H as [|? ? Hc Hpre]; subst. rewrite Hc, IH by assumption.
    f_equal. lia.
Qed.

Lemma bestFit_from_app pre rest : forall i sz best,
  bestFit_from (pre ++ rest) i sz best =
  bestFit_from rest (i + length pre) sz (bestFit_from pre i sz best).
Proof.
  induction pre as [|c pre IH]; intros i sz best; simpl.
  - f_equal. lia.
  - rewrite IH. f_equal. lia.
Qed.

Lemma worstFit_from_app pre rest : forall i sz worst,
  worstFit_from (pre ++ rest) i sz worst =
  worstFit_from rest (i + length pre) sz (worstFit_from pre i sz worst).
Proof.
  induction pre as [|c pre IH]; intros i sz worst; simpl.
  - f_equal. lia.
  - rewrite IH. f_equal. lia.
Qed.

(** The chain after a successful [allocate], from the block that the search
    returned. *)
Lemma allocate_selected a sz pre b post :
  head a = pre ++ b :: post ->
  findFreeBlock a sz = Some (length pre, b) ->
  sz <> 0 ->
  head (snd (allocate a sz)) = pre ++ split_block b sz (next_block_id a) ++ post.
Proof.
  intros Hh Hf Hsz.
  destruct (allocate_cases a sz)
    as [[_ H0] | [[_ [_ ?]] | [[_ [_ [_ Hn]]] | (pre' & b' & post' & Hh' & _ & _ & Hf' & ->)]]].
  - rewrite Hh in H0. destruct pre; discriminate.
  - contradiction.
  - congruence.
  - rewrite Hf in Hf'. injection Hf' as Hlen <-.
    rewrite Hh in Hh'. apply app_inj_1 in Hh' as [<- Hp]; [|exact Hlen].
    injection Hp as <-. reflexivity.
Qed.

(** C2. On a chain whose free blocks have the sizes 100, 50 and 200 in
    address order, a request of 40 is placed by first fit in the 100-block,
    by best fit in the 50-block and by worst fit in the 200-block; [allocate]
    under each strategy splits that block and leaves the others. *)
Theorem C2_placement a :
  free_sizes (head a) = [100; 50; 200] ->
  selects (head a) (findFreeBlock (setStrategy a FIRST_FIT) 40) 0 100
  /\ selects (head a) (findFreeBlock (setStrategy a BEST_FIT) 40) 1 50
  /\ selects (head a) (findFreeBlock (setStrategy a WORST_FIT) 40) 2 200
  /\ free_sizes (head (snd (allocate (setStrategy a FIRST_FIT) 40))) = [60; 50; 200]
  /\ free_sizes (head (snd (allocate (setStrategy a BEST_FIT) 40))) = [100; 10; 200]
  /\ free_sizes (head (snd (allocate (setStrategy a WORST_FIT) 40))) = [100; 50; 160].
Proof.
  intros H.
  destruct (free_sizes_cons_inv _ _ _ H) as (u0 & b1 & r1 & Hh & Hu0 & Hf1 & Hs1 & H1).
  destruct (free_sizes_cons_inv _ _ _ H1) as (u1 & b2 & r2 & -> & Hu1 & Hf2 & Hs2 & H2).
  destruct (free_sizes_cons_inv _ _ _ H2) as (u2 & b3 & u3 & -> & Hu2 & Hf3 & Hs3 & Hu3).
  assert (N0 := free_sizes_nil_no_fit u0 40 Hu0).
  assert (N1 := free_sizes_nil_no_fit u1 40 Hu1).
  assert (N2 := free_sizes_nil_no_fit u2 40 Hu2).
  assert (N3 := free_sizes_nil_no_fit u3 40 Hu3).
  assert (F1 : fits 40 b1 = true) by (unfold fits; rewrite Hf1, Hs1; reflexivity).
  assert (F2 : fits 40 b2 = true) by (unfold fits; rewrite Hf2, Hs2; reflexivity).
  assert (F3 : fits 40 b3 = true) by (unfold fits; rewrite Hf3, Hs3; reflexivity).
  set (p2 := u0 ++ b1 :: u1).
  set (p3 := p2 ++ b2 :: u2).
  assert (Hh2 : head a = p2 ++ b2 :: u2 ++ b3 :: u3).
  { rewrite Hh. unfold p2. rewrite <- app_assoc. reflexivity. }
  assert (Hh3 : head a = p3 ++ b3 :: u3).
  { rewrite Hh2. unfold p3. rewrite <- app_assoc. reflexivity. }
  assert (Hp2 : free_sizes p2 = [100]).
  { unfold p2. rewrite free_sizes_app. simpl. rewrite Hu0, Hf1, Hu1, Hs1. reflexivity. }
  assert (Hp3 : free_sizes p3 = [100; 50]).
  { unfold p3. rewrite free_sizes_app. simpl. rewrite Hp2, Hf2, Hu2, Hs2. reflexivity. }
  assert (R1 : firstFit a 40 = Some (length u0, b1)).
  { unfold firstFit. rewrite Hh, firstFit_from_app by assumption. simpl. rewrite F1.
    reflexivity. }
  assert (R2 : bestFit a 40 = Some (length p2, b2)).
  { unfold bestFit. rewrite Hh.
    rewrite bestFit_from_app, (bestFit_from_none u0) by assumption. simpl. rewrite F1.
    rewrite bestFit_from_app, (bestFit_from_none u1) by assumption. simpl. rewrite F2.
    rewrite Hs1, Hs2. simpl.
    rewrite bestFit_from_app, (bestFit_from_none u2) by assumption. simpl. rewrite F3.
    rewrite Hs2, Hs3. simpl.
    rewrite bestFit_from_none by assumption.
    f_equal. f_equal. unfold p2. rewrite length_app. simpl. lia. }
  assert (R3 : worstFit a 40 = Some (length p3, b3)).
  { unfold worstFit. rewrite Hh.
    rewrite worstFit_from_app, (worstFit_from_none u0) by assumption. simpl. rewrite F1.
    rewrite worstFit_from_app, (worstFit_from_none u1) by assumption. simpl. rewrite F2.
    rewrite Hs1, Hs2. simpl.
    rewrite worstFit_from_app, (worstFit_from_none u2) by assumption. simpl. rewrite F3.
    rewrite Hs1, Hs3. simpl.
    rewrite worstFit_from_none by assumption.
    f_equal. f_equal. unfold p3, p2. rewrite !length_app. simpl.
    rewrite ?length_app. simpl. lia. }
  change (findFreeBlock (setStrategy a FIRST_FIT) 40) with (firstFit a 40).
  change (findFreeBlock (setStrategy a BEST_FIT) 40) with (bestFit a 40).
  change (findFreeBlock (setStrategy a WORST_FIT) 40) with (worstFit a 40).
  split; [|split; [|split; [|split; [|split]]]].
  - exists (length u0), b1. rewrite Hh at 1 2.
    rewrite list_lookup_middle, take_app_length, Hu0 by reflexivity. auto.
  - exists (length p2), b2. rewrite Hh2 at 1 2.
    rewrite list_lookup_middle, take_app_length, Hp2 by reflexivity. auto.
  - exists (length p3), b3. rewrite Hh3 at 1 2.
    rewrite list_lookup_middle, take_app_length, Hp3 by reflexivity. auto.
  - rewrite (allocate_selected (setStrategy a FIRST_FIT) 40 u0 b1 (u1 ++ b2 :: u2 ++ b3 :: u3));
      [|exact Hh|exact R1|lia].
    rewrite !free_sizes_app. unfold split_block. rewrite Hs1. simpl.
    rewrite !free_sizes_app. simpl.
    rewrite Hu0, Hu1, Hu2, Hu3, Hf2, Hf3, Hs2, Hs3. reflexivity.
  - rewrite (allocate_selected (setStrategy a BEST_FIT) 40 p2 b2 (u2 ++ b3 :: u3));
      [|exact Hh2|exact R2|lia].
    rewrite !free_sizes_app. unfold split_block. rewrite Hs2. simpl.
    rewrite Hp2, Hu2, Hu3, Hf3, Hs3. reflexivity.
  - rewrite (allocate_selected (setStrategy a WORST_FIT) 40 p3 b3 u3);
      [|exact Hh3|exact R3|lia].
    rewrite !free_sizes_app. unfold split_block. rewrite Hs3. simpl.
    rewrite Hp3, Hu3. reflexivity.
Qed.

Lemma C2_witness :
  let a := run Allocator_new
             [OpInit 1000; OpAllocate 100; OpAllocate 10; OpAllocate 50;
              OpAllocate 10; OpAllocate 200; OpAllocate 630;
              OpFree 1; OpFree 3; OpFree 5] in
  selects (head a) (findFreeBlock (setStrategy a FIRST_FIT) 40) 0 100
  /\ selects (head a) (findFreeBlock (setStrategy a BEST_FIT) 40) 1 50
  /\ selects (head a) (findFreeBlock (setStrategy a WORST_FIT) 40) 2 200
  /\ free_sizes (head (snd (allocate (setStrategy a FIRST_FIT) 40))) = [60; 50; 200]
  /\ free_sizes (head (snd (allocate (setStrategy a BEST_FIT) 40))) = [100; 10; 200]
  /\ free_sizes (head (snd (allocate (setStrategy a WORST_FIT) 40))) = [100; 50; 160].
Proof.
  intros a. apply C2_placement. reflexivity.
Defined.

End AllocProperties.

(** ** Properties of the cache hierarchy *)

Module CacheProperties.
Import Cache.

Section Level.

Variable ilog2 : Z -> Z.

Local Abbreviation set_of := (Cache.set_of ilog2).
Local Abbreviation level_hits := (Cache.level_hits ilog2).
Local Abbreviation probed := (Cache.probed ilog2).
Local Abbreviation all_miss := (Cache.all_miss ilog2).
Local Abbreviation access_cost := (Cache.access_cost ilog2).

(** *** One access, seen from the set it maps to *)

Lemma findVictim_victim_of L s set q :
  sets L !! s = Some set -> fifo_queues L !! s = Some q ->
  findVictim L s =
  match victim_of (policy L) set q with
  | None => None
  | Some (v, q1) => Some (v, with_fifo_queues L (<[s := q1]> (fifo_queues L)))
  end.
Proof.
  intros Hs Hq. unfold findVictim, victim_of. rewrite Hs.
  destruct (find_invalid set 0) as [i|].
  - rewrite list_insert_id by exact Hq. destruct L; reflexivity.
  - destruct (policy L) eqn:Ep.
    + rewrite Hq. destruct q as [|v q']; reflexivity.
    + destruct set as [|l0 rest]; [reflexivity|].
      rewrite list_insert_id by exact Hq. destruct L; reflexivity.
Qed.

(** Projections of updated records, unfolded innermost first. *)
Ltac level_cbv :=
  cbv beta iota zeta delta
    [with_stats with_sets with_fifo_queues with_access_counter findVictim
     level_after stats_after victim_of out_hit out_way out_old out_set out_queue
     name size block_size associativity num_sets num_lines sets fifo_queues
     policy stats access_counter access_latency
     hits misses accesses write_backs total_access_time negb andb] in *.

(** [CacheLevel::access] is [set_access] on the set of the address. *)
Lemma CacheLevel_access_set L address isWrite set q :
  num_sets L <> 0 ->
  sets L !! set_of L address = Some set ->
  fifo_queues L !! set_of L address = Some q ->
  CacheLevel_access ilog2 L address isWrite =
  match
    set_access (policy L) set q (getTag ilog2 L address)
      (wrap (access_counter L + 1)) isWrite
  with
  | None => None
  | Some o => Some (out_hit o, level_after L (set_of L address) o)
  end.
Proof.
  intros Hn Hs Hq. unfold CacheLevel_access, set_access.
  apply Z.eqb_neq in Hn. rewrite Hn.
  change (Z.to_nat (getSetIndex ilog2 L address)) with (set_of L address).
  generalize dependent (set_of L address). intros s Hs Hq.
  generalize (getTag ilog2 L address). intros tg.
  assert (Hlt : (s < length (fifo_queues L))%nat)
    by (eapply lookup_lt_Some; exact Hq).
  destruct L as [nm sz bs assoc nsets nlines ss qs pol st cnt lat].
  destruct st as [h m a wb t].
  level_cbv. rewrite Hs.
  destruct (find_hit set tg 0) as [[i l]|].
  - rewrite (list_insert_id qs) by exact Hq. reflexivity.
  - destruct (find_invalid set 0) as [i|].
    + destruct (set !! i) as [v|]; [|reflexivity].
      destruct (valid v), (dirty v), pol; level_cbv; rewrite ?Hq;
        rewrite ?(list_insert_id qs) by exact Hq; reflexivity.
    + destruct pol.
      * rewrite Hq. destruct q as [|victim q1]; [reflexivity|].
        destruct (set !! victim) as [v|]; [|reflexivity].
        destruct (valid v), (dirty v); level_cbv;
          rewrite ?list_lookup_insert_eq by exact Hlt;
          rewrite ?list_insert_insert_eq; reflexivity.
      * destruct set as [|l0 rest]; [reflexivity|].
        destruct ((l0 :: rest) !! lru_scan rest 1 0 (last_access l0)) as [v|];
          [|reflexivity].
        destruct (valid v), (dirty v); level_cbv;
          rewrite ?(list_insert_id qs) by exact Hq; reflexivity.
Qed.

(** *** The searches of one set *)

Lemma find_hit_spec set tg : forall i j l,
  find_hit set tg i = Some (j, l) ->
  exists k, j = (i + k)%nat /\ set !! k = Some l /\ valid l = true /\ tag l = tg.
Proof.
  induction set as [|c set IH]; intros i j l H; simpl in H; [discriminate|].
  destruct (valid c && (tag c =? tg)) eqn:E.
  - injection H as <- <-. apply andb_true_iff in E as [Hv Ht].
    apply Z.eqb_eq in Ht. exists 0%nat. auto with lia.
  - apply IH in H as (k & -> & Hk & Hv & Ht). exists (S k). auto with lia.
Qed.

Lemma find_hit_none set tg : forall i,
  find_hit set tg i = None ->
  Forall (fun l => valid l && (tag l =? tg) = false) set.
Proof.
  induction set as [|c set IH]; intros i H; simpl in H; [constructor|].
  destruct (valid c && (tag c =? tg)) eqn:E; [destruct (find_hit set tg (S i)); discriminate|].
  constructor; eauto.
Qed.

Lemma find_invalid_spec set : forall i j,
  find_invalid set i = Some j ->
  exists k l, j = (i + k)%nat /\ set !! k = Some l /\ valid l = false.
Proof.
  induction set as [|c set IH]; intros i j H; simpl in H; [discriminate|].
  destruct (valid c) eqn:E; simpl in H.
  - apply IH in H as (k & l & -> & Hk & Hv). exists (S k), l. auto with lia.
  - injection H as <-. exists 0%nat, c. auto with lia.
Qed.

Lemma find_invalid_none set : forall i,
  find_invalid set i = None -> count_valid set = length set.
Proof.
  induction set as [|c set IH]; intros i H; simpl in *; [reflexivity|].
  destruct (valid c); simpl in H; [|discriminate].
  rewrite (IH _ H). reflexivity.
Qed.

Lemma count_valid_le set : (count_valid set <= length set)%nat.
Proof. induction set as [|c set IH]; simpl; [lia|]. destruct (valid c); lia. Qed.

Lemma count_valid_full set :
  count_valid set = length set ->
  forall v l, set !! v = Some l -> valid l = true.
Proof.
  induction set as [|c set IH]; intros E v l Hl; [discriminate|].
  simpl in E. pose proof (count_valid_le set) as Hle.
  destruct (valid c) eqn:Ec; [|lia].
  destruct v as [|v]; simpl in Hl.
  - injection Hl as <-. exact Ec.
  - apply (IH ltac:(lia) v l Hl).
Qed.

Lemma count_valid_insert set : forall i old new,
  set !! i = Some old ->
  (count_valid (<[i := new]> set) + (if valid old then 1 else 0)
   = count_valid set + (if valid new then 1 else 0))%nat.
Proof.
  induction set as [|c set IH]; intros i old new H; [discriminate|].
  destruct i as [|i]; simpl in *.
  - injection H as ->. lia.
  - specialize (IH _ _ new H). lia.
Qed.

Lemma lru_scan_bound rest : forall i victim m,
  (victim < i)%nat -> (lru_scan rest i victim m < i + length rest)%nat.
Proof.
  induction rest as [|l rest IH]; intros i victim m H; simpl; [lia|].
  destruct (last_access l <? m).
  - specialize (IH (S i) i (last_access l)). lia.
  - specialize (IH (S i) victim m). lia.
Qed.

(** *** Well-formed levels *)

Lemma victim_of_spec pol assoc set q :
  set_wf pol assoc set q -> (0 < assoc)%nat ->
  exists victim q1 v,
    victim_of pol set q = Some (victim, q1) /\ set !! victim = Some v
    /\ (valid v = false -> q1 = q)
    /\ (valid v = true -> pol = FIFO -> q = victim :: q1).
Proof.
  intros [Hlen Hq] Ha. unfold victim_of.
  destruct (find_invalid set 0) as [i|] eqn:E.
  - apply find_invalid_spec in E as (k & l & -> & Hk & Hv).
    exists k, q, l. simpl. repeat split; auto. congruence.
  - apply find_invalid_none in E. destruct pol.
    + destruct (Hq eq_refl) as [Hql Hqb].
      destruct q as [|v q1]; [simpl in Hql; lia|].
      inversion Hqb as [|? ? Hv _]; subst.
      destruct (lookup_lt_is_Some_2 set v Hv) as [l Hl].
      exists v, q1, l. repeat split; auto.
      intros Hf. rewrite (count_valid_full set E v l Hl) in Hf. discriminate.
    + destruct set as [|l0 rest]; [simpl in Hlen; lia|].
      pose proof (lru_scan_bound rest 1 0 (last_access l0) ltac:(lia)) as Hb.
      destruct (lookup_lt_is_Some_2 (l0 :: rest) (lru_scan rest 1 0 (last_access l0)))
        as [l Hl]; [simpl; lia|].
      exists (lru_scan rest 1 0 (last_access l0)), q, l. repeat split; auto.
      discriminate.
Qed.

(** On a well-formed set the access is defined, and the outcome names the way
    that was hit or replaced and the line that was there. *)
Lemma set_access_total pol assoc set q tg counter isWrite :
  set_wf pol assoc set q -> (0 < assoc)%nat ->
  exists o,
    set_access pol set q tg counter isWrite = Some o
    /\ set !! out_way o = Some (out_old o)
    /\ (if out_hit o then
          find_hit set tg 0 = Some (out_way o, out_old o)
          /\ out_set o =
             <[out_way o :=
                 mkLine true (if isWrite then true else dirty (out_old o))
                   (tag (out_old o)) counter]> set
          /\ out_queue o = q
        else
          find_hit set tg 0 = None
          /\ option_map fst (victim_of pol set q) = Some (out_way o)
          /\ out_set o = <[out_way o := mkLine true isWrite tg counter]> set)
    /\ set_wf pol assoc (out_set o) (out_queue o).
Proof.
  intros Hwf Ha. unfold set_access.
  destruct (find_hit set tg 0) as [[i l]|] eqn:E.
  - destruct (find_hit_spec _ _ _ _ _ E) as (k & -> & Hk & Hv & Ht). simpl in *.
    eexists. split; [reflexivity|]. cbn. rewrite Hv.
    repeat split; auto.
    + rewrite length_insert. apply Hwf.
    + destruct Hwf as [_ Hq]. destruct (Hq H) as [Hql _].
      pose proof (count_valid_insert set k l
                    (mkLine true (if isWrite then true else dirty l) (tag l) counter) Hk) as Hc.
      rewrite Hv in Hc. simpl in Hc. lia.
    + apply Hwf, H.
  - destruct (victim_of_spec pol assoc set q Hwf Ha) as (victim & q1 & v & Hvo & Hl & Hq1 & Hq2).
    rewrite Hvo, Hl. eexists. split; [reflexivity|]. cbn.
    repeat split; auto.
    + rewrite length_insert. apply Hwf.
    + subst pol. destruct Hwf as [Hlen Hq]. destruct (Hq eq_refl) as [Hql Hqb].
      pose proof (count_valid_insert set victim v (mkLine true isWrite tg counter) Hl) as Hc.
      simpl in Hc. rewrite length_app. simpl.
      destruct (valid v) eqn:Ev.
      * rewrite (Hq2 eq_refl eq_refl) in Hql. simpl in Hql. lia.
      * rewrite (Hq1 eq_refl). lia.
    + subst pol. destruct Hwf as [Hlen Hq]. destruct (Hq eq_refl) as [Hql Hqb].
      apply Forall_app. split.
      * destruct (valid v) eqn:Ev.
        -- rewrite (Hq2 eq_refl eq_refl) in Hqb. inversion Hqb; assumption.
        -- rewrite (Hq1 eq_refl). assumption.
      * constructor; [|constructor]. rewrite <- Hlen.
        eapply lookup_lt_Some. exact Hl.
Qed.

Lemma set_of_lt L address :
  0 < num_sets L -> (set_of L address < Z.to_nat (num_sets L))%nat.
Proof.
  intros H. unfold set_of, getSetIndex.
  pose proof (Z.mod_pos_bound (Z.shiftr address (ilog2 (block_size L))) (num_sets L) H).
  lia.
Qed.

(** On a well-formed level [CacheLevel::access] is defined and keeps the
    level well formed. *)
Lemma CacheLevel_access_total L address isWrite :
  level_wf L ->
  exists set q o,
    sets L !! set_of L address = Some set
    /\ fifo_queues L !! set_of L address = Some q
    /\ set_wf (policy L) (Z.to_nat (associativity L)) set q
    /\ set_access (policy L) set q (getTag ilog2 L address)
         (wrap (access_counter L + 1)) isWrite = Some o
    /\ CacheLevel_access ilog2 L address isWrite =
       Some (out_hit o, level_after L (set_of L address) o)
    /\ level_wf (level_after L (set_of L address) o).
Proof.
  intros (Hn & Ha & Hlen & Hall).
  pose proof (set_of_lt L address Hn) as Hlt. rewrite <- Hlen in Hlt.
  destruct (lookup_lt_is_Some_2 _ _ Hlt) as [set Hs].
  destruct (Forall2_lookup_l _ _ _ _ _ Hall Hs) as (q & Hq & Hwf).
  destruct (set_access_total (policy L) _ set q (getTag ilog2 L address)
              (wrap (access_counter L + 1)) isWrite Hwf ltac:(lia))
    as (o & Ho & _ & _ & Hwf').
  exists set, q, o.
  split; [exact Hs|]. split; [exact Hq|]. split; [exact Hwf|]. split; [exact Ho|].
  split.
  - rewrite (CacheLevel_access_set L address isWrite set q); [|lia|exact Hs|exact Hq].
    rewrite Ho. reflexivity.
  - unfold level_wf, level_after. cbn [num_sets associativity sets fifo_queues policy].
    split; [exact Hn|]. split; [exact Ha|].
    split; [rewrite length_insert; exact Hlen|].
    apply Forall2_insert; assumption.
Qed.

Lemma CacheLevel_new_fields nm sz bs assoc pol lat L :
  CacheLevel_new nm sz bs assoc pol lat = Some L ->
  L = mkLevel nm sz bs assoc (sz / bs / assoc) (sz / bs)
        (replicate (Z.to_nat (sz / bs / assoc))
           (replicate (Z.to_nat assoc) CacheLine_new))
        (replicate (Z.to_nat (sz / bs / assoc)) [])
        pol CacheStats_new 0 lat.
Proof.
  unfold CacheLevel_new. destruct ((bs =? 0) || (assoc =? 0)); [discriminate|].
  intros H. injection H as <-. reflexivity.
Qed.

(** A constructed level with at least one set is well formed. *)
Lemma CacheLevel_new_wf nm sz bs assoc pol lat L :
  CacheLevel_new nm sz bs assoc pol lat = Some L ->
  0 < sz / bs / assoc -> 0 < assoc ->
  level_wf L.
Proof.
  unfold CacheLevel_new. intros H Hn Ha.
  destruct ((bs =? 0) || (assoc =? 0)); [discriminate|]. injection H as <-.
  unfold level_wf. cbn. repeat split; try assumption.
  - apply length_replicate.
  - apply Forall2_replicate. split; [apply length_replicate|].
    intros _. split; [|constructor].
    clear. induction (Z.to_nat assoc) as [|n IH]; simpl; auto.
Qed.

(** *** Write-backs and dirty bits *)

Lemma wrap_succ_neq_any x : wrap (x + 1) <> x.
Proof.
  intros H. destruct (Z.le_gt_cases 0 x) as [H0|H0].
  - destruct (Z.lt_ge_cases x SIZE_MAX1) as [H1|H1].
    + apply (wrap_succ_neq x); [split; assumption|exact H].
    + pose proof (wrap_range (x + 1)) as [_ Hr]. lia.
  - pose proof (wrap_range (x + 1)) as [Hr _]. lia.
Qed.

(** C6. An access to a well-formed level hits or misses in one way of the
    set of the address. [write_backs] grows by one exactly when the access
    misses and the line it replaces is valid and dirty, and is unchanged
    otherwise. The line of that way is dirty afterwards if it was dirty and
    is hit, or if the access is a write; a line installed by a read miss is
    clean; no other line changes. *)
Theorem C6_write_back_dirty L address isWrite :
  level_wf L ->
  let s := set_of L address in
  let tg := getTag ilog2 L address in
  exists hit L' set way old new,
    CacheLevel_access ilog2 L address isWrite = Some (hit, L')
    /\ sets L !! s = Some set
    /\ line_at L s way = Some old
    /\ line_at L' s way = Some new
    /\ (if hit then find_hit set tg 0 = Some (way, old)
        else find_hit set tg 0 = None
             /\ option_map fst (findVictim L s) = Some way)
    /\ write_backs (stats L') =
       (if negb hit && valid old && dirty old
        then wrap (write_backs (stats L) + 1) else write_backs (stats L))
    /\ (write_backs (stats L') = wrap (write_backs (stats L) + 1)
        <-> hit = false /\ valid old = true /\ dirty old = true)
    /\ valid new = true
    /\ dirty new = (if hit then dirty old || isWrite else isWrite)
    /\ (forall j k, (j, k) <> (s, way) -> line_at L' j k = line_at L j k).
Proof.
  intros Hwf s tg.
  destruct (CacheLevel_access_total L address isWrite Hwf)
    as (set & q & o & Hs & Hq & Hswf & Ho & Hacc & _).
  destruct Hwf as (Hn & Ha & Hlen & _).
  destruct (set_access_total (policy L) _ set q tg (wrap (access_counter L + 1))
              isWrite Hswf ltac:(lia)) as (o' & Ho' & Hold & Hcase & _).
  fold tg in Ho. rewrite Ho in Ho'. injection Ho' as <-.
  fold s in Hs, Hq, Hacc.
  assert (Hslt : (s < length (sets L))%nat) by (eapply lookup_lt_Some; exact Hs).
  assert (Hwlt : (out_way o < length set)%nat) by (eapply lookup_lt_Some; exact Hold).
  assert (Hset' : sets (level_after L s o) !! s = Some (out_set o)).
  { cbn. apply list_lookup_insert_eq. exact Hslt. }
  assert (Hwb : write_backs (stats (level_after L s o)) =
                (if negb (out_hit o) && valid (out_old o) && dirty (out_old o)
                 then wrap (write_backs (stats L) + 1) else write_backs (stats L)))
    by reflexivity.
  assert (Hother : forall new j k,
             out_set o = <[out_way o := new]> set ->
             (j, k) <> (s, out_way o) ->
             line_at (level_after L s o) j k = line_at L j k).
  { intros new j k Hos Hne. unfold line_at. cbn [sets level_after].
    destruct (Nat.eq_dec j s) as [->|Hj].
    - rewrite list_lookup_insert_eq, Hs by exact Hslt. rewrite Hos.
      apply list_lookup_insert_ne. congruence.
    - rewrite list_lookup_insert_ne by congruence. reflexivity. }
  destruct (out_hit o) eqn:Eh.
  - destruct Hcase as (Hfind & Hos & _).
    exists true, (level_after L s o), set, (out_way o), (out_old o),
      (mkLine true (if isWrite then true else dirty (out_old o)) (tag (out_old o))
         (wrap (access_counter L + 1))).
    split; [exact Hacc|]. split; [exact Hs|].
    split; [unfold line_at; rewrite Hs; exact Hold|].
    split; [unfold line_at; rewrite Hset', Hos; apply list_lookup_insert_eq, Hwlt|].
    split; [exact Hfind|]. split; [exact Hwb|].
    split.
    { rewrite Hwb. simpl. split; [|intros [? _]; discriminate].
      intros H. symmetry in H. exfalso. exact (wrap_succ_neq_any _ H). }
    split; [reflexivity|].
    split; [simpl; destruct isWrite, (dirty (out_old o)); reflexivity|].
    intros j k. apply (Hother _ j k Hos).
  - destruct Hcase as (Hfind & Hvic & Hos).
    exists false, (level_after L s o), set, (out_way o), (out_old o),
      (mkLine true isWrite tg (wrap (access_counter L + 1))).
    split; [exact Hacc|]. split; [exact Hs|].
    split; [unfold line_at; rewrite Hs; exact Hold|].
    split; [unfold line_at; rewrite Hset', Hos; apply list_lookup_insert_eq, Hwlt|].
    split.
    { split; [exact Hfind|].
      rewrite (findVictim_victim_of L s set q Hs Hq).
      destruct (victim_of (policy L) set q) as [[v q1]|]; [exact Hvic|discriminate]. }
    split; [exact Hwb|].
    split.
    { rewrite Hwb. simpl.
      destruct (valid (out_old o)), (dirty (out_old o)); simpl;
        (split; [intros H; try (symmetry in H; exfalso; exact (wrap_succ_neq_any _ H)); auto
                |intros (_ & ? & ?); try discriminate; reflexivity]). }
    split; [reflexivity|]. split; [reflexivity|].
    intros j k. apply (Hother _ j k Hos).
Qed.

(** *** Replacement policies *)

(** A sequence of accesses that all map to the set [s] acts on that set
    alone. *)
Lemma run_level_set reqs : forall L s set q set' q',
  num_sets L <> 0 ->
  sets L !! s = Some set ->
  fifo_queues L !! s = Some q ->
  Forall (fun r => set_of L (fst r) = s) reqs ->
  run_set (policy L) set q (access_counter L)
    (map (fun r => (getTag ilog2 L (fst r), snd r)) reqs) = Some (set', q') ->
  exists L',
    run_level ilog2 L reqs = Some L'
    /\ sets L' !! s = Some set'
    /\ fifo_queues L' !! s = Some q'.
Proof.
  induction reqs as [|[address isWrite] reqs IH];
    intros L s set q set' q' Hn Hs Hq Hall Hrun.
  - simpl in Hrun. injection Hrun as <- <-. exists L. auto.
  - pose proof (Forall_inv Hall) as Hs1. pose proof (Forall_inv_tail Hall) as Hall'.
    simpl in Hs1, Hrun. cbn [run_level].
    rewrite (CacheLevel_access_set L address isWrite set q Hn); [|rewrite Hs1; assumption..].
    destruct (set_access (policy L) set q (getTag ilog2 L address)
                (wrap (access_counter L + 1)) isWrite) as [o|]; [|discriminate].
    rewrite Hs1.
    apply (IH (level_after L s o) s (out_set o) (out_queue o) set' q').
    + exact Hn.
    + cbn. apply list_lookup_insert_eq. eapply lookup_lt_Some. exact Hs.
    + cbn. apply list_lookup_insert_eq. eapply lookup_lt_Some. exact Hq.
    + exact Hall'.
    + exact Hrun.
Qed.

(** One access of [run_set] on lines with known tags: the tag comparisons
    are rewritten with the equations at hand, the counter is evaluated. *)
Ltac set_step :=
  unfold set_access at 1; cbn;
  repeat match goal with
    | H : (_ =? _) = false |- _ => rewrite H
    | |- _ => rewrite Z.eqb_refl
    end;
  cbn;
  repeat match goal with
    | |- context [wrap (?n + 1)] =>
        match n with
        | Z0 => idtac
        | Zpos _ => idtac
        end;
        let v := eval vm_compute in (wrap (n + 1)) in
        change (wrap (n + 1)) with v
    end;
  cbn.

(** C5. In a 2-way level that starts empty, after accesses to A, B, A, C,
    three addresses of one set with different tags, the set holds A and C
    under LRU (B was replaced) and B and C under FIFO (A was replaced). *)
Theorem C5_lru_fifo_divergence nm sz bs lat Llru Lfifo A B C wA wB wA' wC :
  CacheLevel_new nm sz bs 2 LRU lat = Some Llru ->
  CacheLevel_new nm sz bs 2 FIFO lat = Some Lfifo ->
  0 < sz / bs / 2 ->
  set_of Llru B = set_of Llru A ->
  set_of Llru C = set_of Llru A ->
  getTag ilog2 Llru A <> getTag ilog2 Llru B ->
  getTag ilog2 Llru A <> getTag ilog2 Llru C ->
  getTag ilog2 Llru B <> getTag ilog2 Llru C ->
  let reqs := [(A, wA); (B, wB); (A, wA'); (C, wC)] in
  let s := set_of Llru A in
  exists L1 L2,
    run_level ilog2 Llru reqs = Some L1
    /\ run_level ilog2 Lfifo reqs = Some L2
    /\ resident_tags L1 s = [getTag ilog2 Llru A; getTag ilog2 Llru C]
    /\ resident_tags L2 s = [getTag ilog2 Llru C; getTag ilog2 Llru B]
    /\ resident_tags L1 s <> resident_tags L2 s.
Proof.
  intros Hlru Hfifo Hn HB HC Hab Hac Hbc reqs s.
  apply CacheLevel_new_fields in Hlru, Hfifo.
  assert (Hg : forall X, getTag ilog2 Lfifo X = getTag ilog2 Llru X)
    by (intros X; rewrite Hlru, Hfifo; reflexivity).
  assert (Hsf : forall X, set_of Lfifo X = set_of Llru X)
    by (intros X; rewrite Hlru, Hfifo; reflexivity).
  assert (Hn1 : num_sets Llru = sz / bs / 2) by (rewrite Hlru; reflexivity).
  assert (Hn2 : num_sets Lfifo = sz / bs / 2) by (rewrite Hfifo; reflexivity).
  assert (Hs1 : sets Llru = replicate (Z.to_nat (sz / bs / 2)) [CacheLine_new; CacheLine_new])
    by (rewrite Hlru; reflexivity).
  assert (Hs2 : sets Lfifo = replicate (Z.to_nat (sz / bs / 2)) [CacheLine_new; CacheLine_new])
    by (rewrite Hfifo; reflexivity).
  assert (Hq1 : fifo_queues Llru = replicate (Z.to_nat (sz / bs / 2)) [])
    by (rewrite Hlru; reflexivity).
  assert (Hq2 : fifo_queues Lfifo = replicate (Z.to_nat (sz / bs / 2)) [])
    by (rewrite Hfifo; reflexivity).
  assert (Hp1 : policy Llru = LRU) by (rewrite Hlru; reflexivity).
  assert (Hp2 : policy Lfifo = FIFO) by (rewrite Hfifo; reflexivity).
  assert (Hc1 : access_counter Llru = 0) by (rewrite Hlru; reflexivity).
  assert (Hc2 : access_counter Lfifo = 0) by (rewrite Hfifo; reflexivity).
  clear Hlru Hfifo.
  assert (Hslt : (s < Z.to_nat (sz / bs / 2))%nat).
  { rewrite <- Hn1. apply set_of_lt. rewrite Hn1. exact Hn. }
  set (tA := getTag ilog2 Llru A) in *.
  set (tB := getTag ilog2 Llru B) in *.
  set (tC := getTag ilog2 Llru C) in *.
  assert (Eab : (tA =? tB) = false) by (apply Z.eqb_neq; exact Hab).
  assert (Eca : (tC =? tA) = false)
    by (apply Z.eqb_neq; intros H; apply Hac; symmetry; exact H).
  assert (Eac : (tA =? tC) = false) by (apply Z.eqb_neq; exact Hac).
  assert (Ebc : (tB =? tC) = false) by (apply Z.eqb_neq; exact Hbc).
  assert (Hall1 : Forall (fun r => set_of Llru (fst r) = s) reqs).
  { repeat constructor; simpl; assumption. }
  assert (Hall2 : Forall (fun r => set_of Lfifo (fst r) = s) reqs).
  { repeat constructor; simpl; rewrite ?Hsf; try assumption; reflexivity. }
  assert (Rlru : run_set LRU [CacheLine_new; CacheLine_new] [] 0
                   [(tA, wA); (tB, wB); (tA, wA'); (tC, wC)] =
                 Some ([mkLine true (if wA' then true else wA) tA 3; mkLine true wC tC 4], [])).
  { unfold run_set. set_step. set_step. set_step. set_step. reflexivity. }
  assert (Rfifo : run_set FIFO [CacheLine_new; CacheLine_new] [] 0
                   [(tA, wA); (tB, wB); (tA, wA'); (tC, wC)] =
                 Some ([mkLine true wC tC 4; mkLine true wB tB 2], [1%nat; 0%nat])).
  { unfold run_set. set_step. set_step. set_step. set_step. reflexivity. }
  destruct (run_level_set reqs Llru s [CacheLine_new; CacheLine_new] []
              [mkLine true (if wA' then true else wA) tA 3; mkLine true wC tC 4] [])
    as (L1 & H1 & Hr1 & _).
  { rewrite Hn1. lia. }
  { rewrite Hs1. apply lookup_replicate_2, Hslt. }
  { rewrite Hq1. apply lookup_replicate_2, Hslt. }
  { exact Hall1. }
  { rewrite Hp1, Hc1. exact Rlru. }
  destruct (run_level_set reqs Lfifo s [CacheLine_new; CacheLine_new] []
              [mkLine true wC tC 4; mkLine true wB tB 2] [1%nat; 0%nat])
    as (L2 & H2 & Hr2 & _).
  { rewrite Hn2. lia. }
  { rewrite Hs2. apply lookup_replicate_2, Hslt. }
  { rewrite Hq2. apply lookup_replicate_2, Hslt. }
  { exact Hall2. }
  { rewrite Hp2, Hc2. cbn [map fst snd reqs]. rewrite !Hg. exact Rfifo. }
  exists L1, L2. unfold resident_tags. rewrite Hr1, Hr2. cbn [valid_tags valid tag].
  split; [exact H1|]. split; [exact H2|]. split; [reflexivity|]. split; [reflexivity|].
  intros H. injection H as H _. exact (Hac H).
Qed.

(** *** The hierarchy *)

Lemma wrap_wrap x : wrap (wrap x) = wrap x.
Proof. apply wrap_small, wrap_range. Qed.

Lemma wrap_add_l a b : wrap (wrap a + b) = wrap (a + b).
Proof. unfold wrap. apply Z.add_mod_idemp_l. unfold SIZE_MAX1. lia. Qed.

Lemma wrap_add_r a b : wrap (a + wrap b) = wrap (a + b).
Proof. unfold wrap. apply Z.add_mod_idemp_r. unfold SIZE_MAX1. lia. Qed.

Lemma CacheLevel_access_hits L address isWrite :
  level_wf L ->
  exists L',
    CacheLevel_access ilog2 L address isWrite = Some (level_hits L address, L')
    /\ level_wf L'.
Proof.
  intros Hwf.
  destruct (CacheLevel_access_total L address isWrite Hwf)
    as (set & q & o & Hs & Hq & Hswf & Ho & Hacc & Hwf').
  destruct Hwf as (_ & Ha & _).
  destruct (set_access_total (policy L) _ set q (getTag ilog2 L address)
              (wrap (access_counter L + 1)) isWrite Hswf ltac:(lia))
    as (o' & Ho' & _ & Hcase & _).
  rewrite Ho in Ho'. injection Ho' as <-.
  exists (level_after L (set_of L address) o). split; [|exact Hwf'].
  rewrite Hacc. unfold level_hits. rewrite Hs.
  destruct (out_hit o); [destruct Hcase as [-> _] | destruct Hcase as [-> _]]; reflexivity.
Qed.

(** The probe loop: defined on well-formed levels, reports a hit iff some
    level hits, and accumulates the latencies of the probed levels. *)
Lemma probe_spec lv address isWrite : forall t,
  Forall level_wf lv ->
  exists lv' t',
    probe ilog2 lv address isWrite t = Some (lv', t', negb (all_miss lv address))
    /\ wrap t' = wrap (t + sum_latencies (probed lv address))
    /\ Forall level_wf lv'.
Proof.
  induction lv as [|L rest IH]; intros t Hwf; simpl.
  - exists [], t. split; [reflexivity|].
    split; [unfold sum_latencies; simpl; f_equal; lia | constructor].
  - pose proof (Forall_inv Hwf) as HL. pose proof (Forall_inv_tail Hwf) as Hrest.
    destruct (CacheLevel_access_hits L address isWrite HL) as (L' & -> & HL').
    unfold getLatency. destruct (level_hits L address); simpl.
    + exists (L' :: rest), (wrap (t + access_latency L)). split; [reflexivity|]. split.
      * unfold sum_latencies. simpl. rewrite wrap_wrap. f_equal. lia.
      * constructor; assumption.
    + destruct (IH (wrap (t + access_latency L)) Hrest) as (rest' & t' & -> & Ht & Hr).
      exists (L' :: rest'), t'. split; [reflexivity|]. split.
      * rewrite Ht, wrap_add_l. unfold sum_latencies. simpl. f_equal. lia.
      * constructor; assumption.
Qed.

(** C3. An access to a hierarchy of well-formed levels adds to the
    hierarchy's [total_access_time] (a [size_t]) the latencies of the levels
    probed, up to and including the first that hits, and the memory latency
    when every level misses. With latencies 1 and 10 and a memory latency of
    100, an address that misses in both levels costs 111 cycles and one that
    misses in the first and hits in the second costs 11. *)
Theorem C3_hierarchy_access_cost s address isWrite :
  Forall level_wf (levels s) ->
  exists s',
    CacheSimulator_access ilog2 s address isWrite = Some s'
    /\ sim_total_access_time s' =
       wrap (sim_total_access_time s
             + access_cost (levels s) (memory_latency s) address)
    /\ memory_latency s' = memory_latency s
    /\ Forall level_wf (levels s')
    /\ (forall L1 L2,
          levels s = [L1; L2] ->
          access_latency L1 = 1 -> access_latency L2 = 10 -> memory_latency s = 100 ->
          level_hits L1 address = false ->
          (level_hits L2 address = false ->
           access_cost (levels s) (memory_latency s) address = 111)
          /\ (level_hits L2 address = true ->
              access_cost (levels s) (memory_latency s) address = 11)).
Proof.
  intros Hwf. unfold CacheSimulator_access, access_cost.
  destruct (probe_spec (levels s) address isWrite 0 Hwf) as (lv' & t' & -> & Ht & Hwf').
  rewrite Z.add_0_l in Ht.
  destruct (all_miss (levels s) address) eqn:Em; simpl.
  - eexists. split; [reflexivity|]. simpl.
    split; [|split; [reflexivity|split; [exact Hwf'|]]].
    + rewrite wrap_add_r.
      replace (sim_total_access_time s + (t' + memory_latency s))
        with (t' + (sim_total_access_time s + memory_latency s)) by lia.
      rewrite <- wrap_add_l, Ht, wrap_add_l. f_equal. lia.
    + intros L1 L2 Hl H1 H2 Hm Hmiss1. rewrite Hl in *. unfold sum_latencies.
      simpl in *. rewrite Hmiss1 in *. simpl in *.
      split; intros Hh2; rewrite Hh2 in *; simpl in *; [lia|discriminate].
  - eexists. split; [reflexivity|]. simpl.
    split; [|split; [reflexivity|split; [exact Hwf'|]]].
    + rewrite Z.add_0_r, <- wrap_add_r, Ht, wrap_add_r. reflexivity.
    + intros L1 L2 Hl H1 H2 Hm Hmiss1. rewrite Hl in *. unfold sum_latencies.
      simpl in *. rewrite Hmiss1 in *. simpl in *.
      split; intros Hh2; rewrite Hh2 in *; simpl in *; [discriminate|lia].
Qed.

End Level.

(** *** Geometry *)

(** C4, as the code has it. Neither the constructor of a level nor
    [addLevel] checks the geometry. For every size and every non-zero block
    size and associativity the only failure is an allocation the platform
    refuses, which depends on the number of sets and ways and not on whether
    the divisions are exact; otherwise the level is added, with
    [num_lines = size / block_size] and [num_sets = num_lines / associativity]
    rounded down. *)
Theorem C4_addLevel_truncates heap_holds s nm sz bs assoc pol lat :
  is_size_t sz -> is_size_t bs -> is_size_t assoc ->
  bs <> 0 -> assoc <> 0 ->
  exists L,
    CacheLevel_new nm sz bs assoc pol lat = Some L
    /\ CacheLevel_ctor heap_holds nm sz bs assoc pol lat =
       (if heap_holds (num_sets L) assoc then Returned L else Thrown)
    /\ addLevel heap_holds s nm sz bs assoc pol lat =
       (if heap_holds (num_sets L) assoc
        then Returned (mkSim (levels s ++ [L]) true (sim_total_access_time s)
                         (memory_latency s))
        else Thrown)
    /\ num_lines L * bs <= sz < (num_lines L + 1) * bs
    /\ num_sets L * assoc <= num_lines L < (num_sets L + 1) * assoc
    /\ length (sets L) = Z.to_nat (num_sets L)
    /\ Forall (fun set => length set = Z.to_nat assoc) (sets L)
    /\ size L = sz /\ block_size L = bs /\ associativity L = assoc
    /\ policy L = pol /\ access_latency L = lat.
Proof.
  intros Hsz Hbs Ha Hb0 Ha0. unfold addLevel, CacheLevel_ctor, CacheLevel_new.
  apply Z.eqb_neq in Hb0 as Eb. apply Z.eqb_neq in Ha0 as Ea. rewrite Eb, Ea. simpl.
  eexists. split; [reflexivity|]. cbn [num_sets associativity].
  split; [reflexivity|].
  split; [destruct (heap_holds (sz / bs / assoc) assoc); reflexivity|]. cbn.
  unfold is_size_t in *.
  assert (0 < bs) by lia. assert (0 < assoc) by lia.
  pose proof (Z.mul_div_le sz bs ltac:(lia)).
  pose proof (Z.mul_succ_div_gt sz bs ltac:(lia)).
  pose proof (Z.mul_div_le (sz / bs) assoc ltac:(lia)).
  pose proof (Z.mul_succ_div_gt (sz / bs) assoc ltac:(lia)).
  repeat split; try lia.
  - apply length_replicate.
  - apply Forall_forall. intros set Hin.
    apply list_elem_of_In, elem_of_replicate in Hin as [-> _]. apply length_replicate.
Qed.

Lemma C4_witness :
  exists L,
    CacheLevel_new "L1" 1000 48 4 LRU 1 = Some L
    /\ CacheLevel_ctor (heap_of 65536) "L1" 1000 48 4 LRU 1 =
       (if heap_of 65536 (num_sets L) 4 then Returned L else Thrown)
    /\ addLevel (heap_of 65536) CacheSimulator_new "L1" 1000 48 4 LRU 1 =
       (if heap_of 65536 (num_sets L) 4
        then Returned (mkSim (levels CacheSimulator_new ++ [L]) true
                         (sim_total_access_time CacheSimulator_new)
                         (memory_latency CacheSimulator_new))
        else Thrown)
    /\ num_lines L * 48 <= 1000 < (num_lines L + 1) * 48
    /\ num_sets L * 4 <= num_lines L < (num_sets L + 1) * 4
    /\ length (sets L) = Z.to_nat (num_sets L)
    /\ Forall (fun set => length set = Z.to_nat 4) (sets L)
    /\ size L = 1000 /\ block_size L = 48 /\ associativity L = 4
    /\ policy L = LRU /\ access_latency L = 1.
Proof.
  apply C4_addLevel_truncates; unfold is_size_t, SIZE_MAX1; lia.
Defined.

(** C4, as stated, fails: a 100-byte level with 16-byte blocks and 4 ways
    does not divide evenly, and on a platform that holds 65536 lines it is
    added with 6 lines and 1 set. *)
Lemma C4_counterexample :
  ~ divides_evenly 100 16 4
  /\ exists L,
       addLevel (heap_of 65536) CacheSimulator_new "L1" 100 16 4 LRU 1
       = Returned (mkSim [L] true 0 100)
       /\ num_lines L = 6 /\ num_sets L = 1 /\ length (sets L) = 1%nat.
Proof.
  split.
  - intros (k & Hk & Heq). lia.
  - eexists. split; [reflexivity|]. repeat split.
Qed.

(** The only failure of [addLevel] is the exception of an allocation: the
    same platform refuses a level of [2^64 - 1] one-byte blocks, whose
    geometry divides evenly. *)
Example addLevel_throws :
  divides_evenly (2 ^ 64 - 1) 1 1
  /\ addLevel (heap_of 65536) CacheSimulator_new "L1" (2 ^ 64 - 1) 1 1 LRU 1 = Thrown.
Proof.
  split; [exists (2 ^ 64 - 1); lia | reflexivity].
Qed.

(** *** Instances *)

Lemma default_hierarchy_added :
  match addLevel (heap_of 65536) CacheSimulator_new "L1" 256 16 4 LRU 1 with
  | Returned s1 => addLevel (heap_of 65536) s1 "L2" 1024 32 8 FIFO 10
  | Thrown => Thrown
  | UndefinedBehaviour => UndefinedBehaviour
  end = Returned default_hierarchy.
Proof. reflexivity. Qed.

Lemma default_hierarchy_wf : Forall level_wf (levels default_hierarchy).
Proof.
  constructor; [|constructor; [|constructor]].
  - apply (CacheLevel_new_wf "L1" 256 16 4 LRU 1); [reflexivity | reflexivity | lia].
  - apply (CacheLevel_new_wf "L2" 1024 32 8 FIFO 10); [reflexivity | reflexivity | lia].
Qed.

Lemma C3_witness :
  exists s',
    CacheSimulator_access Z.log2 default_hierarchy 4660 false = Some s'
    /\ sim_total_access_time s' =
       wrap (sim_total_access_time default_hierarchy
             + access_cost Z.log2 (levels default_hierarchy)
                 (memory_latency default_hierarchy) 4660)
    /\ memory_latency s' = memory_latency default_hierarchy
    /\ Forall level_wf (levels s')
    /\ (forall L1 L2,
          levels default_hierarchy = [L1; L2] ->
          access_latency L1 = 1 -> access_latency L2 = 10 ->
          memory_latency default_hierarchy = 100 ->
          level_hits Z.log2 L1 4660 = false ->
          (level_hits Z.log2 L2 4660 = false ->
           access_cost Z.log2 (levels default_hierarchy)
             (memory_latency default_hierarchy) 4660 = 111)
          /\ (level_hits Z.log2 L2 4660 = true ->
              access_cost Z.log2 (levels default_hierarchy)
                (memory_latency default_hierarchy) 4660 = 11)).
Proof.
  apply (C3_hierarchy_access_cost Z.log2 default_hierarchy 4660 false).
  exact default_hierarchy_wf.
Defined.

(** On the default hierarchy the first access to an address costs 111
    cycles; after L1 has lost the block and L2 still has it, it costs 11. *)
Example default_hierarchy_costs :
  access_cost Z.log2 (levels default_hierarchy) 100 4660 = 111
  /\ option_map sim_total_access_time
       (CacheSimulator_access Z.log2 default_hierarchy 4660 false) = Some 111.
Proof. split; reflexivity. Qed.

(** Five blocks of one L1 set: the fifth replaces the first in L1, which L2
    still holds; reading the first again costs 11 cycles. *)
Example default_hierarchy_L2_hit :
  let reqs := [(0, false); (64, false); (128, false); (192, false); (256, false)] in
  option_map sim_total_access_time (run_sim Z.log2 default_hierarchy reqs) = Some 555
  /\ option_map sim_total_access_time
       (run_sim Z.log2 default_hierarchy (reqs ++ [(0, false)])) = Some 566
  /\ option_map (fun s => access_cost Z.log2 (levels s) (memory_latency s) 0)
       (run_sim Z.log2 default_hierarchy reqs) = Some 11.
Proof. repeat split. Qed.

Lemma dirty_level_reached :
  option_map snd
    (match CacheLevel_new "L1" 16 16 1 LRU 1 with
     | Some L => CacheLevel_access Z.log2 L 0 true
     | None => None
     end) = Some dirty_level.
Proof. reflexivity. Qed.

Lemma dirty_level_wf : level_wf dirty_level.
Proof.
  unfold level_wf, dirty_level. cbn. repeat split; try lia.
  repeat constructor. discriminate.
Qed.

Lemma C6_witness :
  let s := set_of Z.log2 dirty_level 16 in
  let tg := getTag Z.log2 dirty_level 16 in
  exists hit L' set way old new,
    CacheLevel_access Z.log2 dirty_level 16 false = Some (hit, L')
    /\ sets dirty_level !! s = Some set
    /\ line_at dirty_level s way = Some old
    /\ line_at L' s way = Some new
    /\ (if hit then find_hit set tg 0 = Some (way, old)
        else find_hit set tg 0 = None
             /\ option_map fst (findVictim dirty_level s) = Some way)
    /\ write_backs (stats L') =
       (if negb hit && valid old && dirty old
        then wrap (write_backs (stats dirty_level) + 1)
        else write_backs (stats dirty_level))
    /\ (write_backs (stats L') = wrap (write_backs (stats dirty_level) + 1)
        <-> hit = false /\ valid old = true /\ dirty old = true)
    /\ valid new = true
    /\ dirty new = (if hit then dirty old || false else false)
    /\ (forall j k, (j, k) <> (s, way) -> line_at L' j k = line_at dirty_level j k).
Proof.
  apply (C6_write_back_dirty Z.log2 dirty_level 16 false).
  exact dirty_level_wf.
Defined.

(** The read that replaces the dirty block counts one write-back and
    installs a clean line. *)
Example dirty_level_eviction :
  option_map (fun r => (fst r, write_backs (stats (snd r)), sets (snd r)))
    (CacheLevel_access Z.log2 dirty_level 16 false)
  = Some (false, 1, [[mkLine true false 1 2]]).
Proof. reflexivity. Qed.

Lemma C5_witness :
  let Llru := mkLevel "L1" 64 16 2 2 4 (replicate 2 (replicate 2 CacheLine_new))
                (replicate 2 []) LRU CacheStats_new 0 1 in
  let Lfifo := mkLevel "L1" 64 16 2 2 4 (replicate 2 (replicate 2 CacheLine_new))
                 (replicate 2 []) FIFO CacheStats_new 0 1 in
  let reqs := [(0, false); (32, false); (0, false); (64, false)] in
  let s := set_of Z.log2 Llru 0 in
  exists L1 L2,
    run_level Z.log2 Llru reqs = Some L1
    /\ run_level Z.log2 Lfifo reqs = Some L2
    /\ resident_tags L1 s = [getTag Z.log2 Llru 0; getTag Z.log2 Llru 64]
    /\ resident_tags L2 s = [getTag Z.log2 Llru 64; getTag Z.log2 Llru 32]
    /\ resident_tags L1 s <> resident_tags L2 s.
Proof.
  intros Llru Lfifo reqs s.
  apply (C5_lru_fifo_divergence Z.log2 "L1" 64 16 1 Llru Lfifo 0 32 64
           false false false false);
    try reflexivity; try (vm_compute; lia); vm_compute; discriminate.
Defined.

End CacheProperties.

(** * Further properties of the allocator *)

Module AllocExtra.
Import Alloc AllocProperties.

Lemma contiguous_from_app l1 : forall start l2,
  contiguous_from start (l1 ++ l2) =
  contiguous_from start l1 && contiguous_from (start + chain_size l1) l2.
Proof.
  induction l1 as [|b l1 IH]; intros start l2; simpl.
  - unfold chain_size. simpl. rewrite Z.add_0_r. reflexivity.
  - rewrite IH, chain_size_cons, Z.add_assoc, andb_assoc. reflexivity.
Qed.

Lemma free_prefix_skip l : l = free_prefix l ++ skip_free l.
Proof.
  induction l as [|b l IH]; simpl; [reflexivity|].
  destruct (is_free b); simpl; congruence.
Qed.

Lemma chain_size_free_prefix l : chain_size (free_prefix l) = free_run_size l.
Proof.
  induction l as [|b l IH]; simpl; [reflexivity|].
  destruct (is_free b); [rewrite chain_size_cons; lia | reflexivity].
Qed.

Lemma used_ids_app l1 l2 : used_ids (l1 ++ l2) = used_ids l1 ++ used_ids l2.
Proof.
  induction l1 as [|b l1 IH]; simpl; [reflexivity|].
  destruct (is_free b); simpl; congruence.
Qed.

Lemma used_ids_free_prefix l : used_ids (free_prefix l) = [].
Proof.
  induction l as [|b l IH]; simpl; [reflexivity|].
  destruct (is_free b) eqn:E; simpl; [rewrite E; exact IH | reflexivity].
Qed.

Lemma used_ids_skip_free l : used_ids (skip_free l) = used_ids l.
Proof.
  rewrite (free_prefix_skip l) at 2. rewrite used_ids_app, used_ids_free_prefix.
  reflexivity.
Qed.

Lemma used_ids_rev l : used_ids (rev l) = rev (used_ids l).
Proof.
  induction l as [|b l IH]; simpl; [reflexivity|].
  rewrite used_ids_app, IH. simpl. destruct (is_free b); simpl.
  - rewrite app_nil_r. reflexivity.
  - reflexivity.
Qed.


Lemma block_eta b : b = mkBlock (address b) (size b) (is_free b) (block_id b).
Proof. destruct b; reflexivity. Qed.

Lemma merge_next_exact nxt block :
  sizes_nonneg nxt -> 0 <= size block ->
  size block + chain_size nxt < SIZE_MAX1 ->
  merge_next block nxt =
  (mkBlock (address block) (size block + free_run_size nxt) (is_free block)
     (block_id block),
   skip_free nxt).
Proof.
  intros Hn Hb Hlt.
  destruct (merge_next_spec nxt block) as (H1 & H2 & H3 & H4).
  pose proof (merge_next_size nxt block Hn Hb Hlt) as H5.
  rewrite H1. f_equal.
  rewrite (block_eta (fst (merge_next block nxt))), H2, H3, H4, H5. reflexivity.
Qed.

Lemma merge_prev_exact next rprev : forall block,
  sizes_nonneg rprev -> 0 <= size block ->
  size block + chain_size rprev < SIZE_MAX1 ->
  Forall (id_in_range next) rprev ->
  contiguous_from 0 (rev rprev) = true ->
  is_free block = true -> block_id block = -1 -> address block = chain_size rprev ->
  merge_prev rprev block =
  (skip_free rprev,
   mkBlock (chain_size (skip_free rprev)) (free_run_size rprev + size block) true (-1)).
Proof.
  induction rprev as [|p rprev IH]; intros block Hn Hb Hlt Hid Hc Hf Hi Ha; simpl.
  - rewrite (block_eta block) at 1. rewrite Hf, Hi, Ha. reflexivity.
  - pose proof (Forall_inv Hn) as Hp. pose proof (Forall_inv_tail Hn) as Hn'.
    pose proof (Forall_inv Hid) as Hpid. pose proof (Forall_inv_tail Hid) as Hid'.
    simpl in Hc. rewrite contiguous_from_app in Hc.
    apply andb_true_iff in Hc as [Hc1 Hc2]. simpl in Hc2.
    rewrite andb_true_r, Z.add_0_l, chain_size_rev in Hc2. apply Z.eqb_eq in Hc2.
    rewrite chain_size_cons in Hlt. pose proof (chain_size_nonneg _ Hn') as Hr.
    unfold id_in_range in Hpid. cbv beta in Hp.
    destruct (is_free p) eqn:Ep.
    + rewrite IH; simpl; try assumption; try reflexivity.
      * rewrite wrap_small by (unfold is_size_t; lia). do 2 f_equal. lia.
      * rewrite wrap_small by (unfold is_size_t; lia). lia.
      * rewrite wrap_small by (unfold is_size_t; lia). lia.
    + rewrite chain_size_cons in Ha. simpl.
      rewrite (block_eta block) at 1. rewrite Hf, Hi, Ha, chain_size_cons.
      reflexivity.
Qed.

(** The chain after [coalesce] on a free node of a chain that tiles the
    address range: the free runs on both sides are gone, one free node
    covers them. *)
Lemma coalesce_exact next rprev block nxt :
  sizes_nonneg rprev -> sizes_nonneg nxt -> 0 <= size block ->
  chain_size rprev + size block + chain_size nxt < SIZE_MAX1 ->
  Forall (id_in_range next) rprev ->
  contiguous_from 0 (rev rprev) = true ->
  is_free block = true -> block_id block = -1 -> address block = chain_size rprev ->
  coalesce rprev block nxt =
  rev (skip_free rprev)
  ++ mkBlock (chain_size (skip_free rprev))
       (free_run_size rprev + size block + free_run_size nxt) true (-1)
     :: skip_free nxt.
Proof.
  intros Hp Hn Hb Hlt Hid Hc Hf Hi Ha. unfold coalesce. rewrite Hf. simpl.
  pose proof (chain_size_nonneg _ Hp) as H1. pose proof (chain_size_nonneg _ Hn) as H2.
  pose proof (free_run_size_nonneg _ Hn) as H3.
  pose proof (chain_size_skip_free nxt) as H4.
  pose proof (chain_size_nonneg _ (sizes_nonneg_skip_free _ Hn)) as H5.
  rewrite merge_next_exact by (try assumption; lia).
  rewrite (merge_prev_exact next); simpl; try assumption; try lia.
  do 3 f_equal. lia.
Qed.


Lemma reachable_no_adjacent a : reachable a -> no_adjacent_free (head a) = true.
Proof.
  induction 1 as [|a o Hr IH Hv]; [reflexivity|]. apply step_no_adjacent, IH.
Qed.

Lemma id_in_range_mono next next' b :
  next <= next' -> id_in_range next b -> id_in_range next' b.
Proof. unfold id_in_range. destruct (is_free b); lia. Qed.

Lemma used_ids_bound next l :
  Forall (id_in_range next) l -> Forall (fun i => 1 <= i < next) (used_ids l).
Proof.
  induction 1 as [|b l Hb Hl IH]; simpl; [constructor|].
  unfold id_in_range in Hb. destruct (is_free b); [exact IH|constructor; assumption].
Qed.

Lemma Forall_skip_free {P : MemoryBlock -> Prop} l : Forall P l -> Forall P (skip_free l).
Proof.
  induction 1 as [|b l Hb Hl IH]; simpl; [constructor|].
  destruct (is_free b); [exact IH|constructor; assumption].
Qed.

Lemma Forall_rev_iff {P : MemoryBlock -> Prop} l : Forall P (rev l) <-> Forall P l.
Proof.
  rewrite !List.Forall_forall.
  split; intros H x Hx; apply H; [apply -> in_rev|apply in_rev]; exact Hx.
Qed.

Lemma chain_inv_updateStats a : chain_inv a -> chain_inv (updateStats a).
Proof. intros [H1 H2 H3 H4]. split; assumption. Qed.

Lemma chain_inv_allocate a sz :
  is_size_t sz -> alloc_inv a -> chain_inv a -> chain_inv (snd (allocate a sz)).
Proof.
  intros Hsz [Hn Hc Hr _ _ _ _] [Hcont Hids Hnd Hnext].
  destruct (allocate_cases a sz)
    as [[-> _] | [[-> _] | [[-> _] | (pre & b & post & Hh & Hb & Hne & _ & ->)]]];
    cbn [snd]; try (split; assumption).
  apply chain_inv_updateStats.
  rewrite Hh in Hn, Hc, Hcont, Hids, Hnd.
  apply Forall_app in Hn as [Hn1 Hn2].
  pose proof (Forall_inv Hn2) as Hnb. pose proof (Forall_inv_tail Hn2) as Hn3.
  cbv beta in Hnb.
  rewrite chain_size_app, chain_size_cons in Hc.
  pose proof (chain_size_nonneg _ Hn1) as H1. pose proof (chain_size_nonneg _ Hn3) as H3.
  rewrite contiguous_from_app in Hcont. apply andb_true_iff in Hcont as [Hc1 Hc2].
  simpl in Hc2. apply andb_true_iff in Hc2 as [Hc2 Hc3]. apply Z.eqb_eq in Hc2.
  apply Forall_app in Hids as [Hi1 Hi2].
  pose proof (Forall_inv Hi2) as Hib. pose proof (Forall_inv_tail Hi2) as Hi3.
  apply andb_true_iff in Hb as [Hf Hle]. apply Z.leb_le in Hle.
  unfold id_in_range in Hib. rewrite Hf in Hib.
  rewrite used_ids_app in Hnd. simpl in Hnd. rewrite Hf in Hnd.
  unfold is_size_t in *.
  split; cbn [head next_block_id].
  - rewrite contiguous_from_app, Hc1. simpl. unfold split_block.
    destruct (Z.ltb_spec sz (size b)); simpl.
    + rewrite (wrap_small (size b - sz)) by (unfold is_size_t; lia).
      rewrite (wrap_small (address b + sz)) by (unfold is_size_t; lia).
      rewrite Hc2, !Z.eqb_refl. simpl.
      replace (0 + chain_size pre + sz + (size b - sz)) with (0 + chain_size pre + size b)
        by lia.
      exact Hc3.
    + rewrite Hc2, Z.eqb_refl. simpl. exact Hc3.
  - apply Forall_app. split; [|apply Forall_app; split].
    + eapply Forall_impl; [|exact Hi1]. intros x. apply id_in_range_mono. lia.
    + unfold split_block. destruct (sz <? size b); repeat constructor;
        unfold id_in_range; simpl; lia.
    + eapply Forall_impl; [|exact Hi3]. intros x. apply id_in_range_mono. lia.
  - rewrite !used_ids_app.
    replace (used_ids (split_block b sz (next_block_id a))) with [next_block_id a]
      by (unfold split_block; destruct (sz <? size b); reflexivity).
    simpl. rewrite <- Permutation_middle.
    apply list.NoDup_cons. split; [|exact Hnd].
    intros Hin. apply elem_of_app in Hin.
    pose proof (used_ids_bound _ _ Hi1) as B1. pose proof (used_ids_bound _ _ Hi3) as B3.
    rewrite list.Forall_forall in B1, B3.
    destruct Hin as [Hin|Hin]; [apply B1 in Hin|apply B3 in Hin]; lia.
  - lia.
Qed.

Lemma chain_inv_free a id : alloc_inv a -> chain_inv a -> chain_inv (snd (free a id)).
Proof.
  intros [Hn Hc Hr _ _ _ _] [Hcont Hids Hnd Hnext].
  destruct (free_cases a id) as [-> | (rprev & b & nxt & Hh & Hb & Hid & ->)];
    cbn [snd]; [split; assumption|].
  apply chain_inv_updateStats.
  rewrite Hh in Hn, Hc, Hcont, Hids, Hnd.
  apply Forall_app in Hn as [Hn1 Hn2].
  pose proof (Forall_inv Hn2) as Hnb. pose proof (Forall_inv_tail Hn2) as Hn3.
  cbv beta in Hnb. apply (proj1 (sizes_nonneg_rev rprev)) in Hn1.
  rewrite chain_size_app, chain_size_rev, chain_size_cons in Hc.
  pose proof (chain_size_nonneg _ Hn1) as H1. pose proof (chain_size_nonneg _ Hn3) as H3.
  rewrite contiguous_from_app in Hcont. apply andb_true_iff in Hcont as [Hc1 Hc2].
  simpl in Hc2. apply andb_true_iff in Hc2 as [Hc2 Hc3]. apply Z.eqb_eq in Hc2.
  rewrite chain_size_rev, Z.add_0_l in Hc2, Hc3.
  apply Forall_app in Hids as [Hi1 Hi2]. apply (proj1 (Forall_rev_iff rprev)) in Hi1.
  pose proof (Forall_inv_tail Hi2) as Hi3.
  rewrite used_ids_app in Hnd. simpl in Hnd. rewrite Hb in Hnd.
  unfold is_size_t in Hr.
  rewrite (coalesce_exact (next_block_id a)); cbn [size is_free block_id address];
    try assumption; try reflexivity; try lia.
  cbn [size].
  pose proof (free_run_size_nonneg _ Hn1) as F1.
  pose proof (free_run_size_nonneg _ Hn3) as F3.
  pose proof (chain_size_skip_free rprev) as S1.
  split; cbn [head next_block_id].
  - rewrite contiguous_from_app. apply andb_true_iff. split.
    + rewrite (free_prefix_skip rprev), rev_app_distr, contiguous_from_app in Hc1.
      apply andb_true_iff in Hc1 as [Hc1 _]. exact Hc1.
    + simpl. rewrite chain_size_rev, Z.add_0_l, Z.eqb_refl. simpl.
      rewrite (free_prefix_skip nxt), contiguous_from_app in Hc3.
      apply andb_true_iff in Hc3 as [_ Hc3]. rewrite chain_size_free_prefix in Hc3.
      replace (chain_size (skip_free rprev) + (free_run_size rprev + size b + free_run_size nxt))
        with (chain_size rprev + size b + free_run_size nxt) by lia.
      exact Hc3.
  - apply Forall_app. split; [apply (proj2 (Forall_rev_iff _)), Forall_skip_free, Hi1|].
    constructor; [reflexivity|apply Forall_skip_free, Hi3].
  - rewrite used_ids_app. simpl. rewrite used_ids_rev, !used_ids_skip_free, <- used_ids_rev.
    rewrite <- Permutation_middle in Hnd.
    apply list.NoDup_cons in Hnd as [_ Hnd].
    exact Hnd.
  - exact Hnext.
Qed.

Lemma chain_inv_step a o : valid_op o -> alloc_inv a -> chain_inv a -> chain_inv (step a o).
Proof.
  intros Hv Ha Hc. destruct o as [sz|strat|sz|id]; cbn [step valid_op] in *.
  - split; simpl; try lia; repeat constructor.
  - destruct Hc. split; assumption.
  - apply chain_inv_allocate; assumption.
  - apply chain_inv_free; assumption.
Qed.

Lemma reachable_chain_inv a : reachable a -> chain_inv a.
Proof.
  induction 1 as [|a o Hr IH Hv].
  - split; simpl; try lia; constructor.
  - apply chain_inv_step; [assumption | apply reachable_inv; assumption | assumption].
Qed.

(** *** Runs without overflow of the id counter *)

Lemma reachable_int_reachable a : reachable_int a -> reachable a.
Proof.
  induction 1 as [|a o _ IH Hv _]; [apply reachable_new | apply reachable_step; assumption].
Qed.

(** A step resets the counter to 1, keeps it, or, when it is a successful
    [allocate], adds one. *)
Lemma step_next_block_id a o :
  next_block_id (step a o) = 1
  \/ next_block_id (step a o) = next_block_id a
  \/ (exists sz id, o = OpAllocate sz /\ fst (allocate a sz) = Allocated id
                    /\ next_block_id (step a o) = next_block_id a + 1).
Proof.
  destruct o as [sz|strat|sz|id]; cbn [step].
  - left. reflexivity.
  - right. left. reflexivity.
  - destruct (allocate_cases a sz)
      as [[E _] | [[E _] | [[E _] | (pre & b & post & _ & _ & _ & _ & E)]]]; rewrite E.
    + right. left. reflexivity.
    + right. left. reflexivity.
    + right. left. reflexivity.
    + right. right. exists sz, (next_block_id a). rewrite E. auto.
  - destruct (free_cases a id) as [E | (rprev & b & nxt & _ & _ & _ & E)]; rewrite E;
      right; left; reflexivity.
Qed.

Lemma reachable_int_bound a : reachable_int a -> 1 <= next_block_id a <= INT_MAX.
Proof.
  induction 1 as [|a o _ IH Hv Hd]; [unfold INT_MAX; simpl; lia|].
  destruct (step_next_block_id a o) as [E | [E | (sz & id & -> & Hal & E)]]; rewrite E.
  - unfold INT_MAX. lia.
  - exact IH.
  - cbn [id_increment_defined] in Hd. rewrite Hal in Hd. lia.
Qed.

Lemma id_increment_defined_below a o :
  next_block_id a < INT_MAX -> id_increment_defined a o.
Proof.
  intros H. destruct o as [sz|strat|sz|id]; cbn [id_increment_defined]; try exact I.
  destruct (fst (allocate a sz)); [exact I..|exact H].
Qed.

(** A run is free of overflow when the counter has room for one increment
    per step. *)
Lemma reachable_int_run ops : forall a,
  reachable_int a -> Forall valid_op ops ->
  next_block_id a + Z.of_nat (length ops) <= INT_MAX ->
  reachable_int (run a ops).
Proof.
  induction ops as [|o ops IH]; intros a Ha Hv Hroom; [exact Ha|].
  pose proof (Forall_inv Hv) as Ho. pose proof (Forall_inv_tail Hv) as Hops.
  pose proof (reachable_int_bound a Ha) as Hb.
  change (run a (o :: ops)) with (run (step a o) ops).
  rewrite length_cons, Nat2Z.inj_succ in Hroom.
  apply IH; [|exact Hops|].
  - apply reachable_int_step; [exact Ha | exact Ho |].
    apply id_increment_defined_below. lia.
  - destruct (step_next_block_id a o) as [E | [E | (sz & id & _ & _ & E)]]; rewrite E; lia.
Qed.


(** *** The searches return the preferred candidate *)

Lemma lookup_snoc_cases {A} (pre : list A) c j x :
  (pre ++ [c]) !! j = Some x ->
  ((j < length pre)%nat /\ pre !! j = Some x) \/ (j = length pre /\ x = c).
Proof.
  intros H. destruct (Nat.lt_ge_cases j (length pre)) as [Hlt|Hge].
  - left. split; [exact Hlt|]. rewrite lookup_app_l in H by exact Hlt. exact H.
  - right. rewrite lookup_app_r in H by exact Hge.
    destruct (j - length pre)%nat as [|k] eqn:E; simpl in H; [|discriminate].
    injection H as <-. split; [lia|reflexivity].
Qed.

Lemma unfit_lookup sz (l : list MemoryBlock) j c :
  Forall (fun x => fits sz x = false) l -> l !! j = Some c -> fits sz c = false.
Proof.
  intros H Hl. rewrite list.Forall_forall in H. apply H.
  eapply list_elem_of_lookup_2. exact Hl.
Qed.

Lemma firstFit_from_chosen sz cur : forall pre,
  Forall (fun x => fits sz x = false) pre ->
  chosen FIRST_FIT sz (pre ++ cur) (firstFit_from cur (length pre) sz).
Proof.
  induction cur as [|c cur IH]; intros pre Hpre; simpl.
  - rewrite app_nil_r. exact Hpre.
  - destruct (fits sz c) eqn:E.
    + split; [apply list_lookup_middle; reflexivity|]. split; [exact E|].
      intros j x Hj Hx. simpl.
      destruct (Nat.lt_ge_cases j (length pre)) as [Hlt|Hge]; [|exact Hge].
      rewrite lookup_app_l in Hj by exact Hlt.
      rewrite (unfit_lookup _ _ _ _ Hpre Hj) in Hx. discriminate.
    + specialize (IH (pre ++ [c])).
      rewrite length_app, <- app_assoc in IH. simpl in IH.
      rewrite Nat.add_1_r in IH. apply IH.
      apply Forall_app. split; [exact Hpre|repeat constructor; exact E].
Qed.

Lemma chosen_snoc_unfit strat sz pre c r :
  fits sz c = false -> chosen strat sz pre r -> chosen strat sz (pre ++ [c]) r.
Proof.
  intros E H. destruct r as [[i b]|]; simpl in *.
  - destruct H as (Hl & Hb & Hp).
    split; [rewrite lookup_app_l; [exact Hl | eapply lookup_lt_Some; exact Hl]|].
    split; [exact Hb|].
    intros j x Hj Hx. apply lookup_snoc_cases in Hj as [[_ Hj] | [_ ->]].
    + eapply Hp; eassumption.
    + congruence.
  - apply Forall_app. split; [exact H|repeat constructor; exact E].
Qed.

Lemma bestFit_from_chosen sz cur : forall pre best,
  chosen BEST_FIT sz pre best ->
  chosen BEST_FIT sz (pre ++ cur) (bestFit_from cur (length pre) sz best).
Proof.
  induction cur as [|c cur IH]; intros pre best H; simpl.
  - rewrite app_nil_r. exact H.
  - specialize (IH (pre ++ [c])).
    rewrite length_app, <- app_assoc in IH. simpl in IH. rewrite Nat.add_1_r in IH.
    apply IH. destruct (fits sz c) eqn:E; [|apply chosen_snoc_unfit; assumption].
    assert (Hnew :
              (forall j x, pre !! j = Some x -> fits sz x = true ->
                 (j < length pre)%nat -> preferred BEST_FIT (length pre) c j x) ->
              chosen BEST_FIT sz (pre ++ [c]) (Some (length pre, c))).
    { intros Hold. split; [apply list_lookup_middle; reflexivity|].
      split; [exact E|]. intros j x Hj Hx.
      apply lookup_snoc_cases in Hj as [[Hlt Hj] | [-> ->]].
      - apply Hold; assumption.
      - simpl. right. split; [reflexivity|lia]. }
    destruct best as [[i bb]|].
    + destruct H as (Hl & Hb & Hp).
      pose proof (lookup_lt_Some _ _ _ Hl) as Hi.
      destruct (Z.ltb_spec (size c) (size bb)) as [Hlt|Hge].
      * apply Hnew. intros j x Hj Hx _.
        specialize (Hp j x Hj Hx). simpl in *. lia.
      * split; [rewrite lookup_app_l; assumption|]. split; [exact Hb|].
        intros j x Hj Hx. apply lookup_snoc_cases in Hj as [[_ Hj] | [-> ->]].
        -- eapply Hp; eassumption.
        -- simpl. lia.
    + apply Hnew. intros j x Hj Hx _.
      rewrite (unfit_lookup _ _ _ _ H Hj) in Hx. discriminate.
Qed.

Lemma worstFit_from_chosen sz cur : forall pre worst,
  chosen WORST_FIT sz pre worst ->
  chosen WORST_FIT sz (pre ++ cur) (worstFit_from cur (length pre) sz worst).
Proof.
  induction cur as [|c cur IH]; intros pre worst H; simpl.
  - rewrite app_nil_r. exact H.
  - specialize (IH (pre ++ [c])).
    rewrite length_app, <- app_assoc in IH. simpl in IH. rewrite Nat.add_1_r in IH.
    apply IH. destruct (fits sz c) eqn:E; [|apply chosen_snoc_unfit; assumption].
    assert (Hnew :
              (forall j x, pre !! j = Some x -> fits sz x = true ->
                 (j < length pre)%nat -> preferred WORST_FIT (length pre) c j x) ->
              chosen WORST_FIT sz (pre ++ [c]) (Some (length pre, c))).
    { intros Hold. split; [apply list_lookup_middle; reflexivity|].
      split; [exact E|]. intros j x Hj Hx.
      apply lookup_snoc_cases in Hj as [[Hlt Hj] | [-> ->]].
      - apply Hold; assumption.
      - simpl. right. split; [reflexivity|lia]. }
    destruct worst as [[i wb]|].
    + destruct H as (Hl & Hb & Hp).
      pose proof (lookup_lt_Some _ _ _ Hl) as Hi.
      destruct (Z.ltb_spec (size wb) (size c)) as [Hlt|Hge].
      * apply Hnew. intros j x Hj Hx _.
        specialize (Hp j x Hj Hx). simpl in *. lia.
      * split; [rewrite lookup_app_l; assumption|]. split; [exact Hb|].
        intros j x Hj Hx. apply lookup_snoc_cases in Hj as [[_ Hj] | [-> ->]].
        -- eapply Hp; eassumption.
        -- simpl. lia.
    + apply Hnew. intros j x Hj Hx _.
      rewrite (unfit_lookup _ _ _ _ H Hj) in Hx. discriminate.
Qed.

Lemma findFreeBlock_chosen a sz :
  chosen (strategy a) sz (head a) (findFreeBlock a sz).
Proof.
  unfold findFreeBlock, firstFit, bestFit, worstFit. destruct (strategy a).
  - apply (firstFit_from_chosen sz (head a) []). constructor.
  - apply (bestFit_from_chosen sz (head a) [] None). constructor.
  - apply (worstFit_from_chosen sz (head a) [] None). constructor.
Qed.


(** *** X1, X2: the chain tiles the memory; ids *)

Lemma contiguous_lookup l : forall start i b,
  contiguous_from start l = true -> l !! i = Some b ->
  address b = start + chain_size (take i l).
Proof.
  induction l as [|c l IH]; intros start i b Hc Hl; [discriminate|].
  simpl in Hc. apply andb_true_iff in Hc as [Ha Hc]. apply Z.eqb_eq in Ha.
  destruct i as [|i]; simpl in Hl.
  - injection Hl as <-. unfold chain_size. simpl. lia.
  - rewrite (IH _ _ _ Hc Hl). simpl. rewrite chain_size_cons. lia.
Qed.

Lemma used_id_elem l : forall j c,
  l !! j = Some c -> is_free c = false -> elem_of (block_id c) (used_ids l).
Proof.
  induction l as [|x l IH]; intros j c Hl Hc; [discriminate|].
  destruct j as [|j]; simpl in Hl.
  - injection Hl as ->. simpl. rewrite Hc. apply list_elem_of_here.
  - simpl. destruct (is_free x); [|apply list_elem_of_further]; eapply IH; eassumption.
Qed.

Lemma used_ids_unique l : forall i j b c,
  NoDup (used_ids l) ->
  l !! i = Some b -> l !! j = Some c ->
  is_free b = false -> is_free c = false -> block_id b = block_id c -> i = j.
Proof.
  induction l as [|x l IH]; intros i j b c Hnd Hi Hj Hb Hc Heq; [discriminate|].
  simpl in Hnd.
  destruct i as [|i], j as [|j]; simpl in Hi, Hj.
  - reflexivity.
  - injection Hi as ->. rewrite Hb in Hnd.
    apply list.NoDup_cons in Hnd as [Hnin _]. exfalso. apply Hnin.
    rewrite Heq. eapply used_id_elem; eassumption.
  - injection Hj as ->. rewrite Hc in Hnd.
    apply list.NoDup_cons in Hnd as [Hnin _]. exfalso. apply Hnin.
    rewrite <- Heq. eapply used_id_elem; eassumption.
  - f_equal. apply (IH i j b c); try assumption.
    destruct (is_free x); [exact Hnd|].
    apply list.NoDup_cons in Hnd as [_ Hnd]. exact Hnd.
Qed.

(** Blocks of size zero exist only in a memory of zero bytes. *)
Lemma reachable_sizes_pos a :
  reachable a -> total_size a = 0 \/ Forall (fun b => 0 < size b) (head a).
Proof.
  induction 1 as [|a o Hr IH Hv]; [left; reflexivity|].
  pose proof (reachable_inv a Hr) as [Hn Hc Hrange _ _ _ _].
  pose proof (reachable_chain_inv a Hr) as [Hcont Hids _ _].
  destruct o as [sz|strat|sz|id]; cbn [step valid_op] in *.
  - destruct (Z.eq_dec sz 0) as [->|Hne]; [left; reflexivity|].
    right. repeat constructor. simpl. unfold is_size_t in Hv. lia.
  - exact IH.
  - destruct (allocate_cases a sz)
      as [[-> _] | [[-> _] | [[-> _] | (pre & b & post & Hh & Hb & Hne & _ & ->)]]];
      cbn [snd]; try exact IH.
    destruct IH as [IH|IH]; [left; exact IH|right].
    rewrite updateStats_head. cbn [head]. rewrite Hh in IH, Hn, Hc.
    apply Forall_app in IH as [I1 I2].
    pose proof (Forall_inv I2) as Ib. pose proof (Forall_inv_tail I2) as I3.
    cbv beta in Ib.
    apply Forall_app in Hn as [Hn1 Hn2]. pose proof (Forall_inv_tail Hn2) as Hn3.
    rewrite chain_size_app, chain_size_cons in Hc.
    pose proof (chain_size_nonneg _ Hn1). pose proof (chain_size_nonneg _ Hn3).
    apply Forall_app. split; [exact I1|]. apply Forall_app. split; [|exact I3].
    unfold split_block, is_size_t in *.
    destruct (Z.ltb_spec sz (size b)); repeat constructor; simpl; try lia.
    rewrite wrap_small by (unfold is_size_t; lia). lia.
  - destruct (free_cases a id) as [-> | (rprev & b & nxt & Hh & Hb & Hid & ->)];
      cbn [snd]; [exact IH|].
    destruct IH as [IH|IH]; [left; exact IH|right].
    rewrite updateStats_head. cbn [head]. rewrite Hh in IH, Hn, Hc, Hcont, Hids.
    apply Forall_app in IH as [I1 I2]. apply (proj1 (Forall_rev_iff rprev)) in I1.
    pose proof (Forall_inv I2) as Ib. pose proof (Forall_inv_tail I2) as I3.
    cbv beta in Ib.
    apply Forall_app in Hn as [Hn1 Hn2].
    apply (proj1 (sizes_nonneg_rev rprev)) in Hn1.
    pose proof (Forall_inv_tail Hn2) as Hn3.
    rewrite chain_size_app, chain_size_rev, chain_size_cons in Hc.
    pose proof (chain_size_nonneg _ Hn1). pose proof (chain_size_nonneg _ Hn3).
    rewrite contiguous_from_app in Hcont. apply andb_true_iff in Hcont as [Hc1 Hc2].
    simpl in Hc2. apply andb_true_iff in Hc2 as [Hc2 _]. apply Z.eqb_eq in Hc2.
    rewrite chain_size_rev, Z.add_0_l in Hc2.
    apply Forall_app in Hids as [Hi1 _]. apply (proj1 (Forall_rev_iff rprev)) in Hi1.
    unfold is_size_t in Hrange.
    rewrite (coalesce_exact (next_block_id a)); cbn [size is_free block_id address];
      try assumption; try reflexivity; try lia.
    pose proof (free_run_size_nonneg _ Hn1). pose proof (free_run_size_nonneg _ Hn3).
    apply Forall_app. split; [apply (proj2 (Forall_rev_iff _)), Forall_skip_free, I1|].
    constructor; [simpl; lia | apply Forall_skip_free, I3].
Qed.

(** X1. In every reachable state the chain tiles the memory: a node starts
    at the total size of the nodes before it (the first at 0), and together
    with its successors it ends at [total_size]; sizes are never negative,
    and are positive unless the memory has zero bytes. *)
Theorem X1_chain_tiles_memory a i b :
  reachable a ->
  head a !! i = Some b ->
  address b = chain_size (take i (head a))
  /\ 0 <= size b
  /\ address b + size b + chain_size (drop (S i) (head a)) = total_size a
  /\ (forall c, head a !! S i = Some c -> address c = address b + size b)
  /\ (total_size a <> 0 -> 0 < size b).
Proof.
  intros Hr Hl.
  pose proof (reachable_inv a Hr) as [Hn Hc _ _ _ _ _].
  pose proof (reachable_chain_inv a Hr) as [Hcont _ _ _].
  pose proof (contiguous_lookup _ _ _ _ Hcont Hl) as Ha. rewrite Z.add_0_l in Ha.
  split; [exact Ha|]. split.
  { unfold sizes_nonneg in Hn. rewrite list.Forall_forall in Hn. apply Hn.
    eapply list_elem_of_lookup_2. exact Hl. }
  split.
  { assert (E : chain_size (head a) =
                 chain_size (take i (head a)) + size b + chain_size (drop (S i) (head a))).
    { rewrite <- (take_drop_middle _ _ _ Hl) at 1.
      rewrite chain_size_app, chain_size_cons. lia. }
    lia. }
  split.
  { intros c Hl'. pose proof (contiguous_lookup _ _ _ _ Hcont Hl') as Ha'.
    rewrite Z.add_0_l in Ha'. rewrite Ha', Ha.
    rewrite (take_S_r _ _ _ Hl), chain_size_app. unfold chain_size at 2. simpl. lia. }
  intros Hne. destruct (reachable_sizes_pos a Hr) as [H0|Hpos]; [contradiction|].
  rewrite list.Forall_forall in Hpos. apply Hpos.
  eapply list_elem_of_lookup_2. exact Hl.
Qed.

Lemma X1_witness :
  let a := run Allocator_new
             [OpInit 1000; OpAllocate 100; OpAllocate 200; OpFree 1; OpAllocate 30] in
  let b := mkBlock 100 200 false 2 in
  address b = chain_size (take 2 (head a))
  /\ 0 <= size b
  /\ address b + size b + chain_size (drop 3 (head a)) = total_size a
  /\ (forall c, head a !! 3%nat = Some c -> address c = address b + size b)
  /\ (total_size a <> 0 -> 0 < size b).
Proof.
  intros a b. apply (X1_chain_tiles_memory a 2 b).
  - apply reachable_run; [apply reachable_new|].
    repeat constructor; unfold is_size_t, is_int, SIZE_MAX1; simpl; lia.
  - reflexivity.
Defined.

(** X2. In every state of a run in which the [int] counter
    [next_block_id] has not overflowed, a free node has the id [-1], an
    allocated node has an id between 1 and [next_block_id - 1], itself at
    most [INT_MAX], and no two allocated nodes have the same id. *)
Theorem X2_block_ids a i b :
  reachable_int a ->
  head a !! i = Some b ->
  (if is_free b then block_id b = -1 else 1 <= block_id b < next_block_id a)
  /\ next_block_id a <= INT_MAX
  /\ is_int (block_id b)
  /\ (forall j c,
        head a !! j = Some c -> is_free b = false -> is_free c = false ->
        block_id b = block_id c -> i = j).
Proof.
  intros Hri Hl. pose proof (reachable_int_reachable a Hri) as Hr.
  pose proof (reachable_int_bound a Hri) as Hbound.
  pose proof (reachable_chain_inv a Hr) as [_ Hids Hnd _].
  assert (Hid : if is_free b then block_id b = -1 else 1 <= block_id b < next_block_id a).
  { rewrite list.Forall_forall in Hids. apply (Hids b).
    eapply list_elem_of_lookup_2. exact Hl. }
  split; [exact Hid|]. split; [lia|]. split.
  - unfold is_int, INT_MAX in *. destruct (is_free b); lia.
  - intros j c Hj Hb Hc Heq. eapply used_ids_unique; eassumption.
Qed.

Lemma X2_witness :
  let a := run Allocator_new
             [OpInit 1000; OpAllocate 100; OpAllocate 200; OpFree 1; OpAllocate 30] in
  let b := mkBlock 100 200 false 2 in
  (if is_free b then block_id b = -1 else 1 <= block_id b < next_block_id a)
  /\ next_block_id a <= INT_MAX
  /\ is_int (block_id b)
  /\ (forall j c,
        head a !! j = Some c -> is_free b = false -> is_free c = false ->
        block_id b = block_id c -> 2%nat = j).
Proof.
  intros a b. apply (X2_block_ids a 2 b).
  - apply reachable_int_run; [apply reachable_int_new | | vm_compute; discriminate].
    repeat constructor; unfold is_size_t, is_int, SIZE_MAX1; simpl; lia.
  - reflexivity.
Defined.


(** *** X3, X4: what the searches return, and when [allocate] succeeds *)

(** X3. The node returned by [findFreeBlock] is a free node of the chain
    with at least the requested size, and it is the preferred one: under
    first fit no candidate is nearer the head; under best fit none is
    smaller, and none of the same size is nearer the head; under worst fit
    none is larger, and none of the same size is nearer the head. *)
Theorem X3_findFreeBlock_preferred a sz i b :
  findFreeBlock a sz = Some (i, b) ->
  head a !! i = Some b
  /\ is_free b = true /\ sz <= size b
  /\ forall j c,
       head a !! j = Some c -> is_free c = true -> sz <= size c ->
       match strategy a with
       | FIRST_FIT => (i <= j)%nat
       | BEST_FIT => size b < size c \/ (size b = size c /\ (i <= j)%nat)
       | WORST_FIT => size c < size b \/ (size c = size b /\ (i <= j)%nat)
       end.
Proof.
  intros H. pose proof (findFreeBlock_chosen a sz) as Hc. rewrite H in Hc.
  destruct Hc as (Hl & Hb & Hp). apply andb_true_iff in Hb as [Hf Hle].
  apply Z.leb_le in Hle. repeat split; try assumption.
  intros j c Hj Hcf Hcs. apply (Hp j c Hj). unfold fits. rewrite Hcf. simpl.
  apply Z.leb_le. exact Hcs.
Qed.

Lemma X3_witness :
  let a := setStrategy
             (run Allocator_new
                [OpInit 1000; OpAllocate 100; OpAllocate 10; OpAllocate 50;
                 OpAllocate 10; OpAllocate 50; OpAllocate 780;
                 OpFree 1; OpFree 3; OpFree 5]) BEST_FIT in
  let b := mkBlock 110 50 true (-1) in
  head a !! 2%nat = Some b
  /\ is_free b = true /\ 40 <= size b
  /\ forall j c,
       head a !! j = Some c -> is_free c = true -> 40 <= size c ->
       match strategy a with
       | FIRST_FIT => (2 <= j)%nat
       | BEST_FIT => size b < size c \/ (size b = size c /\ (2 <= j)%nat)
       | WORST_FIT => size c < size b \/ (size c = size b /\ (2 <= j)%nat)
       end.
Proof.
  intros a b. apply (X3_findFreeBlock_preferred a 40 2 b). reflexivity.
Defined.

Lemma unfit_no_fit sz l :
  Forall (fun x => fits sz x = false) l ->
  forall b, In b l -> is_free b = true -> size b < sz.
Proof.
  intros H b Hb Hf. rewrite List.Forall_forall in H. specialize (H b Hb).
  unfold fits in H. rewrite Hf in H. simpl in H. apply Z.leb_gt in H. exact H.
Qed.

(** X4. On an initialized allocator a non-zero request succeeds exactly when
    some free node has at least the requested size, and then returns
    [next_block_id]; otherwise it fails with [OutOfMemory]. *)
Theorem X4_allocate_succeeds_iff_fit a sz :
  head a <> [] -> sz <> 0 ->
  ((exists b, In b (head a) /\ is_free b = true /\ sz <= size b)
   <-> fst (allocate a sz) = Allocated (next_block_id a))
  /\ ((forall b, In b (head a) -> is_free b = true -> size b < sz)
      <-> fst (allocate a sz) = OutOfMemory)
  /\ (fst (allocate a sz) = Allocated (next_block_id a)
      \/ fst (allocate a sz) = OutOfMemory).
Proof.
  intros Hh Hsz.
  destruct (allocate_cases a sz)
    as [[_ H0] | [[_ [_ ?]] | [[-> [_ [_ Hn]]] | (pre & b & post & Hp & Hb & _ & Hf & ->)]]];
    try contradiction; cbn [fst].
  - pose proof (findFreeBlock_chosen a sz) as Hc. rewrite Hn in Hc. simpl in Hc.
    pose proof (unfit_no_fit _ _ Hc) as Hno.
    split; [|split; [|right; reflexivity]].
    + split; [|discriminate]. intros (b & Hb & Hf & Hs).
      specialize (Hno b Hb Hf). lia.
    + split; [reflexivity|]. intros _. exact Hno.
  - apply andb_true_iff in Hb as [Hbf Hbs]. apply Z.leb_le in Hbs.
    assert (Hin : In b (head a)) by (rewrite Hp; apply in_elt).
    split; [|split; [|left; reflexivity]].
    + split; [reflexivity|]. intros _. exists b. auto.
    + split; [|discriminate]. intros Hno. specialize (Hno b Hin Hbf). lia.
Qed.

Lemma X4_witness :
  let a := run Allocator_new [OpInit 100; OpAllocate 60] in
  ((exists b, In b (head a) /\ is_free b = true /\ 50 <= size b)
   <-> fst (allocate a 50) = Allocated (next_block_id a))
  /\ ((forall b, In b (head a) -> is_free b = true -> size b < 50)
      <-> fst (allocate a 50) = OutOfMemory)
  /\ (fst (allocate a 50) = Allocated (next_block_id a)
      \/ fst (allocate a 50) = OutOfMemory).
Proof.
  intros a. apply (X4_allocate_succeeds_iff_fit a 50); [discriminate|lia].
Defined.


(** *** X5 to X9: accounting, round trip, double free *)

Lemma used_sizes_app l1 l2 : used_sizes (l1 ++ l2) = used_sizes l1 ++ used_sizes l2.
Proof.
  induction l1 as [|b l1 IH]; simpl; [reflexivity|].
  destruct (is_free b); simpl; congruence.
Qed.

Lemma sum_used_rev l : sum_list (used_sizes (rev l)) = sum_list (used_sizes l).
Proof.
  induction l as [|b l IH]; simpl; [reflexivity|].
  rewrite used_sizes_app, sum_list_app, IH. simpl.
  destruct (is_free b); simpl; lia.
Qed.

Lemma used_sizes_skip_free l : used_sizes (skip_free l) = used_sizes l.
Proof.
  induction l as [|b l IH]; simpl; [reflexivity|].
  destruct (is_free b) eqn:E; [exact IH|]. simpl. rewrite E. reflexivity.
Qed.

Lemma hd_not_free_skip l : hd_free l = false -> skip_free l = l /\ free_run_size l = 0.
Proof. destruct l as [|b l]; simpl; [auto|]. intros ->. auto. Qed.

(** The search loop of [free] walks over the nodes that do not match. *)
Lemma free_find_app id pre : forall rprev cur,
  Forall (fun x => (block_id x =? id) && negb (is_free x) = false) pre ->
  free_find rprev (pre ++ cur) id = free_find (rev pre ++ rprev) cur id.
Proof.
  induction pre as [|x pre IH]; intros rprev cur H; [reflexivity|].
  pose proof (Forall_inv H) as Hx. pose proof (Forall_inv_tail H) as Hpre.
  simpl. rewrite Hx, IH by exact Hpre. rewrite <- app_assoc. reflexivity.
Qed.

Lemma free_find_none id cur : forall rprev,
  free_find rprev cur id = None <-> ~ elem_of id (used_ids cur).
Proof.
  induction cur as [|x cur IH]; intros rprev; simpl.
  - split; [intros _ H; inversion H | reflexivity].
  - destruct (is_free x) eqn:Ef; rewrite ?andb_false_r; simpl.
    + apply IH.
    + rewrite andb_true_r. destruct (Z.eqb_spec (block_id x) id) as [->|Hne].
      * split; [discriminate|]. intros H. exfalso. apply H. apply list_elem_of_here.
      * rewrite IH, not_elem_of_cons. split; [intros H; split; [congruence|exact H] | intros [_ H]; exact H].
Qed.

Lemma free_unfold a id rprev b nxt :
  head a <> [] ->
  free_find [] (head a) id = Some (rprev, b, nxt) ->
  free a id =
  (true,
   updateStats
     (mkAllocator (coalesce rprev (mkBlock (address b) (size b) true (-1)) nxt)
        (total_size a) (strategy a) (next_block_id a) (count_deallocation (stats a)))).
Proof.
  intros Hne Hf. unfold free. destruct (head a) as [|x l] eqn:E; [contradiction|].
  rewrite Hf. reflexivity.
Qed.

Lemma step_reachable a o : reachable a -> valid_op o -> reachable (step a o).
Proof. intros. apply reachable_step; assumption. Qed.

(** X5. A successful [allocate] in a state of a run without overflow of the
    [int] counter, the counter still below [INT_MAX], returns
    [next_block_id] and advances it by one; [used_memory] grows and
    [free_memory] shrinks by the requested size; the node found by the search
    is replaced by an allocated node of exactly that size at the same
    address, followed by the free remainder if there is one; the rest of the
    chain is unchanged. *)
Theorem X5_allocate_accounting a sz id a' :
  reachable_int a -> is_size_t sz -> next_block_id a < INT_MAX ->
  allocate a sz = (Allocated id, a') ->
  id = next_block_id a /\ next_block_id a' = id + 1
  /\ is_int id /\ is_int (next_block_id a')
  /\ used_memory (stats a') = used_memory (stats a) + sz
  /\ free_memory (stats a') = free_memory (stats a) - sz
  /\ num_allocations (stats a') = wrap (num_allocations (stats a) + 1)
  /\ exists i b,
       findFreeBlock a sz = Some (i, b)
       /\ take i (head a') = take i (head a)
       /\ head a' !! i = Some (mkBlock (address b) sz false id)
       /\ drop (S i) (head a') =
          (if sz <? size b
           then [mkBlock (address b + sz) (size b - sz) true (-1)] else [])
          ++ drop (S i) (head a).
Proof.
  intros Hri Hsz Hmax Hal.
  pose proof (reachable_int_reachable a Hri) as Hr.
  pose proof (reachable_int_bound a Hri) as Hbound.
  assert (Hr' : reachable a').
  { change a' with (snd (Allocated id, a')). rewrite <- Hal.
    apply (step_reachable a (OpAllocate sz) Hr Hsz). }
  pose proof (reachable_inv a Hr) as [Hn Hc Hrange _ Hu Hf _].
  pose proof (reachable_inv a' Hr') as [_ Hc' _ Ht' Hu' Hf' _].
  pose proof (reachable_chain_inv a Hr) as [Hcont _ _ _].
  destruct (allocate_cases a sz)
    as [[E _] | [[E _] | [[E _] | (pre & b & post & Hh & Hb & Hne & Hfind & E)]]];
    rewrite E in Hal; try discriminate.
  assert (Hid : id = next_block_id a) by congruence.
  assert (Ha' : a' = updateStats
             (mkAllocator (pre ++ split_block b sz (next_block_id a) ++ post)
                (total_size a) (strategy a) (next_block_id a + 1)
                (count_allocation (stats a)))) by congruence.
  clear Hal E. subst id.
  rewrite Hh in Hn, Hc, Hu, Hf, Hcont.
  apply Forall_app in Hn as [Hn1 Hn2].
  pose proof (Forall_inv Hn2) as Hnb. pose proof (Forall_inv_tail Hn2) as Hn3.
  cbv beta in Hnb. rewrite chain_size_app, chain_size_cons in Hc.
  pose proof (chain_size_nonneg _ Hn1). pose proof (chain_size_nonneg _ Hn3).
  rewrite contiguous_from_app in Hcont. apply andb_true_iff in Hcont as [_ Hc2].
  simpl in Hc2. apply andb_true_iff in Hc2 as [Hc2 _]. apply Z.eqb_eq in Hc2.
  apply andb_true_iff in Hb as [Hbf Hle]. apply Z.leb_le in Hle.
  unfold is_size_t in *.
  set (rem := if sz <? size b
              then [mkBlock (address b + sz) (size b - sz) true (-1)] else []).
  assert (Hsplit : split_block b sz (next_block_id a) =
                   mkBlock (address b) sz false (next_block_id a) :: rem).
  { unfold split_block, rem. destruct (Z.ltb_spec sz (size b)).
    - rewrite !wrap_small by (unfold is_size_t; lia). reflexivity.
    - replace (size b) with sz by lia. reflexivity. }
  assert (Hhead : head a' =
                  pre ++ (mkBlock (address b) sz false (next_block_id a) :: rem) ++ post).
  { rewrite Ha', updateStats_head. cbn [head]. rewrite Hsplit. reflexivity. }
  assert (Hts : total_size a' = total_size a) by (rewrite Ha'; reflexivity).
  rewrite Hhead in Hu', Hf', Hc'. rewrite Hts in Hc'.
  assert (Hused : used_memory (stats a') = used_memory (stats a) + sz).
  { rewrite Hu', Hu, !used_sizes_app, !sum_list_app. simpl. rewrite Hbf.
    unfold rem. destruct (sz <? size b); simpl; lia. }
  split; [reflexivity|]. split; [rewrite Ha'; reflexivity|].
  split; [unfold is_int, INT_MAX in *; lia|].
  split; [rewrite Ha'; cbn [next_block_id updateStats set_stats];
          unfold is_int, INT_MAX in *; lia|].
  split; [exact Hused|].
  split.
  { pose proof (used_free_chain_size (pre ++ b :: post)) as S0.
    pose proof (used_free_chain_size
                  (pre ++ (mkBlock (address b) sz false (next_block_id a) :: rem) ++ post))
      as S1.
    rewrite <- Hu', <- Hf' in S1. rewrite <- Hu, <- Hf in S0.
    rewrite Hc' in S1. rewrite chain_size_app, chain_size_cons, Hc in S0. lia. }
  split; [rewrite Ha'; reflexivity|].
  exists (length pre), b. split; [exact Hfind|].
  rewrite Hhead, Hh.
  split; [rewrite !take_app_length; reflexivity|].
  split; [apply list_lookup_middle; reflexivity|].
  simpl. rewrite !drop_S_app_length. reflexivity.
Qed.

Lemma X5_witness :
  let a := run Allocator_new [OpInit 1000; OpAllocate 100; OpAllocate 200; OpFree 1] in
  let a' := snd (allocate a 30) in
  3 = next_block_id a /\ next_block_id a' = 3 + 1
  /\ is_int 3 /\ is_int (next_block_id a')
  /\ used_memory (stats a') = used_memory (stats a) + 30
  /\ free_memory (stats a') = free_memory (stats a) - 30
  /\ num_allocations (stats a') = wrap (num_allocations (stats a) + 1)
  /\ exists i b,
       findFreeBlock a 30 = Some (i, b)
       /\ take i (head a') = take i (head a)
       /\ head a' !! i = Some (mkBlock (address b) 30 false 3)
       /\ drop (S i) (head a') =
          (if 30 <? size b
           then [mkBlock (address b + 30) (size b - 30) true (-1)] else [])
          ++ drop (S i) (head a).
Proof.
  intros a a'. apply (X5_allocate_accounting a 30 3 a').
  - apply reachable_int_run; [apply reachable_int_new | | vm_compute; discriminate].
    repeat constructor; unfold is_size_t, is_int, SIZE_MAX1; simpl; lia.
  - unfold is_size_t, SIZE_MAX1. lia.
  - vm_compute. reflexivity.
  - reflexivity.
Defined.


Lemma no_adjacent_around pre b post :
  no_adjacent_free (pre ++ b :: post) = true -> is_free b = true ->
  hd_free (rev pre) = false /\ hd_free post = false.
Proof.
  intros H Hb. rewrite no_adjacent_free_app in H.
  apply andb_true_iff in H as [H H3]. apply andb_true_iff in H as [_ H2].
  simpl in H2, H3. rewrite Hb in H2, H3. simpl in H2.
  apply andb_true_iff in H2 as [H2 _]. apply negb_true_iff in H2.
  rewrite andb_true_r in H3. apply negb_true_iff in H3. auto.
Qed.

(** X6. In a state of a run without overflow of the [int] counter, the
    counter still below [INT_MAX], allocating and at once freeing the
    returned id restores the chain, node for node, and with it
    [used_memory], [free_memory] and [external_fragmentation]; only the
    counters and [next_block_id] have moved. *)
Theorem X6_allocate_free_round_trip a sz id a1 :
  reachable_int a -> is_size_t sz -> next_block_id a < INT_MAX ->
  allocate a sz = (Allocated id, a1) ->
  exists a2,
    free a1 id = (true, a2)
    /\ head a2 = head a
    /\ used_memory (stats a2) = used_memory (stats a)
    /\ free_memory (stats a2) = free_memory (stats a)
    /\ external_fragmentation (stats a2) = external_fragmentation (stats a)
    /\ next_block_id a2 = next_block_id a + 1
    /\ is_int id /\ is_int (next_block_id a2).
Proof.
  intros Hri Hsz Hmax Hal.
  pose proof (reachable_int_reachable a Hri) as Hr.
  assert (Hr1 : reachable a1).
  { change a1 with (snd (Allocated id, a1)). rewrite <- Hal.
    apply (step_reachable a (OpAllocate sz) Hr Hsz). }
  pose proof (alloc_inv_free a1 id (reachable_inv a1 Hr1)) as [_ _ _ _ Hu2 Hf2 Hg2].
  pose proof (reachable_inv a Hr) as [Hn Hc Hrange _ Hu Hf Hg].
  pose proof (reachable_chain_inv a Hr) as [Hcont Hids _ Hnext].
  pose proof (reachable_no_adjacent a Hr) as Hadj.
  destruct (allocate_cases a sz)
    as [[E _] | [[E _] | [[E _] | (pre & b & post & Hh & Hb & Hne & _ & E)]]];
    rewrite E in Hal; try discriminate.
  assert (Hid : id = next_block_id a) by congruence.
  assert (Ha1 : a1 = updateStats
             (mkAllocator (pre ++ split_block b sz (next_block_id a) ++ post)
                (total_size a) (strategy a) (next_block_id a + 1)
                (count_allocation (stats a)))) by congruence.
  clear Hal E. subst id.
  rewrite Hh in Hn, Hc, Hcont, Hids, Hadj.
  apply Forall_app in Hn as [Hn1 Hn2].
  pose proof (Forall_inv Hn2) as Hnb. pose proof (Forall_inv_tail Hn2) as Hn3.
  cbv beta in Hnb. rewrite chain_size_app, chain_size_cons in Hc.
  pose proof (chain_size_nonneg _ Hn1) as P1. pose proof (chain_size_nonneg _ Hn3) as P3.
  rewrite contiguous_from_app in Hcont. apply andb_true_iff in Hcont as [Hc1 Hc2].
  simpl in Hc2. apply andb_true_iff in Hc2 as [Hc2 _]. apply Z.eqb_eq in Hc2.
  rewrite Z.add_0_l in Hc2.
  apply Forall_app in Hids as [Hi1 Hi2]. pose proof (Forall_inv Hi2) as Hib.
  apply andb_true_iff in Hb as [Hbf Hle]. apply Z.leb_le in Hle.
  unfold id_in_range in Hib. rewrite Hbf in Hib.
  destruct (no_adjacent_around _ _ _ Hadj Hbf) as [Hhd1 Hhd3].
  destruct (hd_not_free_skip _ Hhd1) as [Sk1 Fr1].
  destruct (hd_not_free_skip _ Hhd3) as [Sk3 Fr3].
  unfold is_size_t in *.
  set (rem := if sz <? size b
              then [mkBlock (address b + sz) (size b - sz) true (-1)] else []).
  assert (Hsplit : split_block b sz (next_block_id a) =
                   mkBlock (address b) sz false (next_block_id a) :: rem).
  { unfold split_block, rem. destruct (Z.ltb_spec sz (size b)).
    - rewrite !wrap_small by (unfold is_size_t; lia). reflexivity.
    - replace (size b) with sz by lia. reflexivity. }
  assert (Hhead : head a1 =
                  pre ++ mkBlock (address b) sz false (next_block_id a) :: rem ++ post).
  { rewrite Ha1, updateStats_head. cbn [head]. rewrite Hsplit. reflexivity. }
  assert (Hrem : sizes_nonneg rem /\ chain_size rem = size b - sz
                 /\ skip_free (rem ++ post) = post
                 /\ free_run_size (rem ++ post) = size b - sz).
  { unfold rem. destruct (Z.ltb_spec sz (size b)); simpl.
    - rewrite Sk3, Fr3. unfold chain_size. simpl.
      repeat split; try lia. repeat constructor. simpl. lia.
    - rewrite Sk3, Fr3. unfold chain_size. simpl.
      repeat split; try lia. constructor. }
  destruct Hrem as (Rn & Rc & Rs & Rf).
  assert (Hfind : free_find [] (head a1) (next_block_id a) =
                  Some (rev pre, mkBlock (address b) sz false (next_block_id a), rem ++ post)).
  { rewrite Hhead, free_find_app.
    - simpl. rewrite Z.eqb_refl, app_nil_r. reflexivity.
    - eapply Forall_impl; [|exact Hi1]. intros x Hx. unfold id_in_range in Hx.
      destruct (is_free x); [apply andb_false_r|]. simpl. rewrite andb_true_r.
      apply Z.eqb_neq. lia. }
  assert (Hfree := free_unfold a1 (next_block_id a) _ _ _
                     ltac:(rewrite Hhead; destruct pre; discriminate) Hfind).
  cbn [address size] in Hfree.
  rewrite (coalesce_exact (next_block_id a)) in Hfree; cbn [size is_free block_id address].
  all: cycle 1.
  - apply sizes_nonneg_rev. exact Hn1.
  - apply Forall_app. split; assumption.
  - lia.
  - rewrite chain_size_rev, chain_size_app. lia.
  - apply (proj2 (Forall_rev_iff pre)). exact Hi1.
  - rewrite rev_involutive. exact Hc1.
  - reflexivity.
  - reflexivity.
  - rewrite chain_size_rev. exact Hc2.
  - rewrite Sk1, Fr1, Rs, Rf, rev_involutive, chain_size_rev in Hfree.
    cbn [size] in Hfree.
    replace (0 + sz + (size b - sz)) with (size b) in Hfree by lia.
    assert (Hblk : mkBlock (chain_size pre) (size b) true (-1) = b).
    { clear -Hbf Hib Hc2. destruct b; simpl in *. congruence. }
    rewrite Hblk, <- Hh in Hfree.
    rewrite Hfree in Hu2, Hf2, Hg2. cbn [snd] in Hu2, Hf2, Hg2.
    rewrite updateStats_head in Hu2, Hf2, Hg2. cbn [head] in Hu2, Hf2, Hg2.
    eexists. split; [exact Hfree|].
    split; [reflexivity|]. split; [rewrite Hu2, Hu; reflexivity|].
    split; [rewrite Hf2, Hf; reflexivity|]. split; [rewrite Hg2, Hg; reflexivity|].
    split; [rewrite Ha1; reflexivity|].
    split; [unfold is_int, INT_MAX in *; lia|].
    rewrite Ha1. cbn [next_block_id updateStats set_stats].
    unfold is_int, INT_MAX in *. lia.
Qed.


Lemma X6_witness :
  let a := run Allocator_new [OpInit 1000; OpAllocate 100; OpAllocate 200; OpFree 1] in
  exists a2,
    free (snd (allocate a 30)) 3 = (true, a2)
    /\ head a2 = head a
    /\ used_memory (stats a2) = used_memory (stats a)
    /\ free_memory (stats a2) = free_memory (stats a)
    /\ external_fragmentation (stats a2) = external_fragmentation (stats a)
    /\ next_block_id a2 = next_block_id a + 1
    /\ is_int 3 /\ is_int (next_block_id a2).
Proof.
  intros a. apply (X6_allocate_free_round_trip a 30 3 (snd (allocate a 30))).
  - apply reachable_int_run; [apply reachable_int_new | | vm_compute; discriminate].
    repeat constructor; unfold is_size_t, is_int, SIZE_MAX1; simpl; lia.
  - unfold is_size_t, SIZE_MAX1. lia.
  - vm_compute. reflexivity.
  - reflexivity.
Defined.

Lemma used_ids_blocks l : used_ids l = map block_id (used_blocks l).
Proof.
  induction l as [|b l IH]; simpl; [reflexivity|].
  destruct (is_free b); simpl; congruence.
Qed.

Lemma used_sizes_blocks l : used_sizes l = map size (used_blocks l).
Proof.
  induction l as [|b l IH]; simpl; [reflexivity|].
  destruct (is_free b); simpl; congruence.
Qed.

Lemma used_blocks_app l1 l2 : used_blocks (l1 ++ l2) = used_blocks l1 ++ used_blocks l2.
Proof.
  induction l1 as [|b l1 IH]; simpl; [reflexivity|].
  destruct (is_free b); simpl; congruence.
Qed.

Lemma used_blocks_rev l : used_blocks (rev l) = rev (used_blocks l).
Proof.
  induction l as [|b l IH]; simpl; [reflexivity|].
  rewrite used_blocks_app, IH. simpl. destruct (is_free b); simpl.
  - apply app_nil_r.
  - reflexivity.
Qed.

Lemma used_blocks_skip_free l : used_blocks (skip_free l) = used_blocks l.
Proof.
  induction l as [|b l IH]; simpl; [reflexivity|].
  destruct (is_free b) eqn:E; [exact IH|]. simpl. rewrite E. reflexivity.
Qed.

(** [coalesce] touches free nodes only. *)
Lemma used_blocks_coalesce rprev block nxt :
  is_free block = true ->
  used_blocks (coalesce rprev block nxt) = used_blocks (rev rprev) ++ used_blocks nxt.
Proof.
  intros Hf. unfold coalesce. rewrite Hf. simpl.
  destruct (merge_next_spec nxt block) as (H1 & H2 & _).
  destruct (merge_next block nxt) as [b1 nxt1] eqn:E1. simpl in *.
  injection H1 as ->.
  assert (Hf1 : is_free b1 = true) by congruence.
  destruct (merge_prev_spec rprev b1 Hf1) as (H3 & H4).
  destruct (merge_prev rprev b1) as [rprev2 b2] eqn:E2. simpl in *. subst rprev2.
  rewrite used_blocks_app. simpl. rewrite H4.
  rewrite !used_blocks_rev, !used_blocks_skip_free. reflexivity.
Qed.

Lemma free_fails_on_unknown a id :
  ~ elem_of id (used_ids (head a)) -> free a id = (false, a).
Proof.
  intros H. unfold free. destruct (head a) as [|x l] eqn:E; [reflexivity|].
  rewrite <- E in *. apply (free_find_none id (head a) []) in H. rewrite H. reflexivity.
Qed.

(** X7. [free] succeeds exactly when an allocated node carries the id; a
    failed [free] leaves the allocator as it was; and after a successful
    [free] in a state of a run without overflow of the [int] counter the id
    is gone: freeing it again fails. *)
Theorem X7_free_only_live_ids a id :
  reachable_int a ->
  (fst (free a id) = true <-> elem_of id (used_ids (head a)))
  /\ (fst (free a id) = false -> snd (free a id) = a)
  /\ (fst (free a id) = true ->
      free (snd (free a id)) id = (false, snd (free a id))).
Proof.
  intros Hri. pose proof (reachable_int_reachable a Hri) as Hr.
  pose proof (reachable_chain_inv a Hr) as [_ _ Hnd _].
  destruct (free_cases a id) as [E | (rprev & b & nxt & Hh & Hb & Hid & E)].
  - assert (Hno : ~ elem_of id (used_ids (head a))).
    { intros Hin. unfold free in E. destruct (head a) as [|x l] eqn:Eh.
      - inversion Hin.
      - rewrite <- Eh in *. destruct (free_find [] (head a) id) as [[[? ?] ?]|] eqn:Ef.
        + discriminate.
        + apply (free_find_none id (head a) []) in Ef. contradiction. }
    rewrite E. cbn [fst snd]. split; [|split].
    + split; [discriminate|contradiction].
    + reflexivity.
    + discriminate.
  - rewrite E. cbn [fst snd]. split; [|split].
    + split; [|reflexivity]. intros _. rewrite Hh, used_ids_app. simpl. rewrite Hb, Hid.
      apply elem_of_app. right. apply list_elem_of_here.
    + discriminate.
    + intros _. apply free_fails_on_unknown.
      rewrite updateStats_head. cbn [head].
      rewrite used_ids_blocks, used_blocks_coalesce, <- used_blocks_app, <- used_ids_blocks
        by reflexivity.
      rewrite Hh, used_ids_app in Hnd. simpl in Hnd. rewrite Hb, Hid in Hnd.
      rewrite <- Permutation_middle in Hnd.
      apply list.NoDup_cons in Hnd as [Hnin _]. rewrite used_ids_app. exact Hnin.
Qed.

Lemma X7_witness :
  let a := run Allocator_new [OpInit 1000; OpAllocate 100; OpAllocate 200; OpAllocate 50] in
  (fst (free a 2) = true <-> elem_of 2 (used_ids (head a)))
  /\ (fst (free a 2) = false -> snd (free a 2) = a)
  /\ (fst (free a 2) = true -> free (snd (free a 2)) 2 = (false, snd (free a 2))).
Proof.
  intros a. apply (X7_free_only_live_ids a 2).
  apply reachable_int_run; [apply reachable_int_new | | vm_compute; discriminate].
  repeat constructor; unfold is_size_t, is_int, SIZE_MAX1; simpl; lia.
Defined.

(** X8. A successful [free] in a reachable state frees exactly the allocated
    node with that id: every other allocated node keeps its address, size
    and id, [used_memory] shrinks and [free_memory] grows by the size of the
    freed node, and the chain does not get longer. *)
Theorem X8_free_accounting a id a' :
  reachable a ->
  free a id = (true, a') ->
  exists u1 b u2,
    used_blocks (head a) = u1 ++ b :: u2
    /\ used_blocks (head a') = u1 ++ u2
    /\ block_id b = id
    /\ used_memory (stats a') = used_memory (stats a) - size b
    /\ free_memory (stats a') = free_memory (stats a) + size b
    /\ num_deallocations (stats a') = wrap (num_deallocations (stats a) + 1)
    /\ (length (head a') <= length (head a))%nat.
Proof.
  intros Hr Hfree.
  pose proof (reachable_inv a Hr) as Ha.
  pose proof (alloc_inv_free a id Ha) as [_ Hc' _ _ Hu' Hf' _].
  destruct Ha as [Hn Hc Hrange _ Hu Hf _].
  pose proof (reachable_chain_inv a Hr) as [Hcont Hids _ _].
  destruct (free_cases a id) as [E | (rprev & b & nxt & Hh & Hb & Hid & E)];
    rewrite E in Hfree; [discriminate|].
  rewrite E in Hc', Hu', Hf'. cbn [snd] in Hc', Hu', Hf'.
  assert (Ha' : a' = updateStats
             (mkAllocator (coalesce rprev (mkBlock (address b) (size b) true (-1)) nxt)
                (total_size a) (strategy a) (next_block_id a)
                (count_deallocation (stats a)))) by congruence.
  clear Hfree E. rewrite <- Ha' in Hc', Hu', Hf'.
  assert (Hhead : head a' = coalesce rprev (mkBlock (address b) (size b) true (-1)) nxt)
    by (rewrite Ha'; reflexivity).
  assert (Hts : total_size a' = total_size a) by (rewrite Ha'; reflexivity).
  assert (Hub : used_blocks (head a') = used_blocks (rev rprev) ++ used_blocks nxt).
  { rewrite Hhead. apply used_blocks_coalesce. reflexivity. }
  assert (Hub0 : used_blocks (head a) = used_blocks (rev rprev) ++ b :: used_blocks nxt).
  { rewrite Hh, used_blocks_app. simpl. rewrite Hb. reflexivity. }
  assert (Hused : used_memory (stats a') = used_memory (stats a) - size b).
  { rewrite Hu', Hu, !used_sizes_blocks, Hub, Hub0, !map_app, !sum_list_app. simpl. lia. }
  exists (used_blocks (rev rprev)), b, (used_blocks nxt).
  split; [exact Hub0|]. split; [exact Hub|]. split; [exact Hid|]. split; [exact Hused|].
  split.
  { pose proof (used_free_chain_size (head a)) as S0.
    pose proof (used_free_chain_size (head a')) as S1.
    rewrite <- Hu', <- Hf', Hc', Hts in S1. rewrite <- Hu, <- Hf, Hc in S0. lia. }
  split; [rewrite Ha'; reflexivity|].
  rewrite Hhead, Hh.
  rewrite Hh in Hn, Hc, Hcont, Hids.
  apply Forall_app in Hn as [Hn1 Hn2].
  apply (proj1 (sizes_nonneg_rev rprev)) in Hn1.
  pose proof (Forall_inv Hn2) as Hnb. pose proof (Forall_inv_tail Hn2) as Hn3.
  cbv beta in Hnb.
  rewrite chain_size_app, chain_size_rev, chain_size_cons in Hc.
  rewrite contiguous_from_app in Hcont. apply andb_true_iff in Hcont as [Hc1 Hc2].
  simpl in Hc2. apply andb_true_iff in Hc2 as [Hc2 _]. apply Z.eqb_eq in Hc2.
  rewrite chain_size_rev, Z.add_0_l in Hc2.
  apply Forall_app in Hids as [Hi1 _]. apply (proj1 (Forall_rev_iff rprev)) in Hi1.
  unfold is_size_t in Hrange.
  rewrite (coalesce_exact (next_block_id a)); cbn [size is_free block_id address];
    try assumption; try reflexivity; try lia.
  rewrite !length_app. simpl. rewrite !length_rev.
  assert (Hlen : forall l, (length (skip_free l) <= length l)%nat).
  { clear. induction l as [|x l IH]; simpl; [lia|]. destruct (is_free x); simpl; lia. }
  pose proof (Hlen rprev). pose proof (Hlen nxt). lia.
Qed.

Lemma X8_witness :
  let a := run Allocator_new [OpInit 1000; OpAllocate 100; OpAllocate 200; OpAllocate 50] in
  exists u1 b u2,
    used_blocks (head a) = u1 ++ b :: u2
    /\ used_blocks (head (snd (free a 2))) = u1 ++ u2
    /\ block_id b = 2
    /\ used_memory (stats (snd (free a 2))) = used_memory (stats a) - size b
    /\ free_memory (stats (snd (free a 2))) = free_memory (stats a) + size b
    /\ num_deallocations (stats (snd (free a 2))) = wrap (num_deallocations (stats a) + 1)
    /\ (length (head (snd (free a 2))) <= length (head a))%nat.
Proof.
  intros a. apply (X8_free_accounting a 2 (snd (free a 2))).
  - apply reachable_run; [apply reachable_new|].
    repeat constructor; unfold is_size_t, is_int, SIZE_MAX1; simpl; lia.
  - reflexivity.
Defined.

(** X9. When no node of an initialized reachable allocator is allocated,
    its chain is a single free node covering the whole memory. *)
Theorem X9_all_free_is_one_block a :
  reachable a ->
  head a <> [] ->
  used_blocks (head a) = [] ->
  head a = [mkBlock 0 (total_size a) true (-1)].
Proof.
  intros Hr Hne Hu.
  pose proof (reachable_inv a Hr) as [_ Hc _ _ _ _ _].
  pose proof (reachable_chain_inv a Hr) as [Hcont Hids _ _].
  pose proof (reachable_no_adjacent a Hr) as Hadj.
  destruct (head a) as [|b l]; [contradiction|].
  simpl in Hu. destruct (is_free b) eqn:Eb; [|discriminate].
  destruct l as [|c l].
  - simpl in Hcont. rewrite andb_true_r in Hcont. apply Z.eqb_eq in Hcont.
    pose proof (Forall_inv Hids) as Hib. unfold id_in_range in Hib. rewrite Eb in Hib.
    unfold chain_size in Hc. simpl in Hc.
    f_equal. destruct b; simpl in *. f_equal; try congruence. lia.
  - simpl in Hu, Hadj. destruct (is_free c) eqn:Ec; [|discriminate].
    rewrite Eb in Hadj. simpl in Hadj. discriminate.
Qed.

Lemma X9_witness :
  let a := run Allocator_new
             [OpInit 1000; OpAllocate 100; OpAllocate 200; OpAllocate 50;
              OpFree 2; OpFree 1; OpFree 3] in
  head a = [mkBlock 0 (total_size a) true (-1)].
Proof.
  intros a. apply (X9_all_free_is_one_block a).
  - apply reachable_run; [apply reachable_new|].
    repeat constructor; unfold is_size_t, is_int, SIZE_MAX1; simpl; lia.
  - discriminate.
  - reflexivity.
Defined.

End AllocExtra.

(** * Further properties of the cache *)

Module CacheExtra.
Import Cache CacheProperties.

Section Behaviour.

Variable ilog2 : Z -> Z.

Local Abbreviation set_of := (Cache.set_of ilog2).
Local Abbreviation level_hits := (Cache.level_hits ilog2).
Local Abbreviation probed := (Cache.probed ilog2).
Local Abbreviation all_miss := (Cache.all_miss ilog2).
Local Abbreviation access_cost := (Cache.access_cost ilog2).
Local Abbreviation level_reachable := (Cache.level_reachable ilog2).
Local Abbreviation shifts_defined := (Cache.shifts_defined ilog2).

(** *** Counters of a level *)

Lemma wrap_mul_l a b : wrap (wrap a * b) = wrap (a * b).
Proof. unfold wrap. apply Z.mul_mod_idemp_l. unfold SIZE_MAX1. lia. Qed.

Lemma level_wf_resetStats L : level_wf L -> level_wf (resetStats L).
Proof. intros H. exact H. Qed.

Lemma CacheLevel_new_shape nm sz bs assoc pol lat L :
  is_size_t sz -> is_size_t bs -> is_size_t assoc ->
  CacheLevel_new nm sz bs assoc pol lat = Some L ->
  num_sets L = 0 \/ level_wf L.
Proof.
  intros Hsz Hbs Ha Hnew. pose proof (CacheLevel_new_fields _ _ _ _ _ _ _ Hnew) as Hf.
  assert (Hne : bs <> 0 /\ assoc <> 0).
  { unfold CacheLevel_new in Hnew.
    destruct (bs =? 0) eqn:Eb; [discriminate|]. destruct (assoc =? 0) eqn:Ea; [discriminate|].
    apply Z.eqb_neq in Eb, Ea. split; assumption. }
  destruct Hne as [Eb Ea]. unfold is_size_t in *.
  assert (0 <= sz / bs / assoc).
  { apply Z.div_pos; [apply Z.div_pos|]; lia. }
  destruct (Z.eq_dec (sz / bs / assoc) 0) as [E0|E0].
  - left. rewrite Hf. exact E0.
  - right. apply (CacheLevel_new_wf _ _ _ _ _ _ _ Hnew); lia.
Qed.

(** Whatever is reachable either has no set at all, and cannot be accessed,
    or satisfies the class invariant. *)
Lemma level_reachable_wf L : level_reachable L -> num_sets L = 0 \/ level_wf L.
Proof.
  induction 1 as [nm sz bs assoc pol lat L Hsz Hbs Ha Hl Hnew
                 | L address isWrite hit L' Hr IH Hacc
                 | L Hr IH].
  - exact (CacheLevel_new_shape _ _ _ _ _ _ _ Hsz Hbs Ha Hnew).
  - destruct IH as [H0|Hwf].
    + unfold CacheLevel_access in Hacc. rewrite H0 in Hacc. discriminate.
    + destruct (CacheLevel_access_total ilog2 L address isWrite Hwf)
        as (set & q & o & _ & _ & _ & _ & Heq & Hwf').
      rewrite Heq in Hacc. injection Hacc as _ <-. right. exact Hwf'.
  - destruct IH as [H0|Hwf]; [left; exact H0 | right; exact Hwf].
Qed.

(** X10. In every reachable level the counters agree, as [size_t] values:
    [accesses = hits + misses] and [total_access_time = accesses * latency];
    this holds again after [resetStats]. *)
Theorem X10_level_counters L :
  level_reachable L ->
  accesses (stats L) = wrap (hits (stats L) + misses (stats L))
  /\ total_access_time (stats L) = wrap (accesses (stats L) * access_latency L).
Proof.
  induction 1 as [nm sz bs assoc pol lat L Hsz Hbs Ha Hl Hnew
                 | L address isWrite hit L' Hr IH Hacc
                 | L Hr IH].
  - apply CacheLevel_new_fields in Hnew. rewrite Hnew. split; reflexivity.
  - destruct (level_reachable_wf L Hr) as [H0|Hwf].
    { unfold CacheLevel_access in Hacc. rewrite H0 in Hacc. discriminate. }
    destruct (CacheLevel_access_total ilog2 L address isWrite Hwf)
      as (set & q & o & _ & _ & _ & _ & Heq & _).
    rewrite Heq in Hacc. injection Hacc as _ <-. destruct IH as [IH1 IH2].
    unfold level_after, stats_after. cbn [stats accesses hits misses total_access_time
                                          access_latency].
    split.
    + rewrite IH1. destruct (out_hit o).
      * rewrite !wrap_add_l. f_equal. lia.
      * rewrite wrap_add_l, wrap_add_r. f_equal. lia.
    + rewrite IH2, wrap_add_l, wrap_mul_l. f_equal. lia.
  - split; reflexivity.
Qed.

(** *** The tags of a set *)

Lemma valid_tags_app s1 s2 : valid_tags (s1 ++ s2) = valid_tags s1 ++ valid_tags s2.
Proof.
  induction s1 as [|l s1 IH]; simpl; [reflexivity|].
  destruct (valid l); simpl; rewrite IH; reflexivity.
Qed.

Lemma valid_tags_elem set t :
  t ∈ valid_tags set <-> exists k l, set !! k = Some l /\ valid l = true /\ tag l = t.
Proof.
  induction set as [|c set IH]; simpl.
  - split; [intros H; inversion H | intros (k & l & H & _); discriminate].
  - split.
    + intros H. destruct (valid c) eqn:Ec.
      * apply elem_of_cons in H as [->|H].
        -- exists 0%nat, c. auto.
        -- apply IH in H as (k & l & Hk & Hv & Ht). exists (S k), l. auto.
      * apply IH in H as (k & l & Hk & Hv & Ht). exists (S k), l. auto.
    + intros (k & l & Hk & Hv & Ht). destruct k as [|k]; simpl in Hk.
      * injection Hk as ->. rewrite Hv, Ht. apply list_elem_of_here.
      * assert (t ∈ valid_tags set) by (apply IH; eauto).
        destruct (valid c); [apply list_elem_of_further|]; assumption.
Qed.

(** The hit loop finds a line exactly when the tag is resident. *)
Lemma find_hit_resident set tg i :
  (exists r, find_hit set tg i = Some r) <-> tg ∈ valid_tags set.
Proof.
  revert i. induction set as [|c set IH]; intros i; simpl.
  - split; [intros [r H]; discriminate | intros H; inversion H].
  - destruct (valid c) eqn:Ec; simpl.
    + destruct (tag c =? tg) eqn:Et.
      * apply Z.eqb_eq in Et. rewrite Et. split; [intros _; apply list_elem_of_here | eauto].
      * apply Z.eqb_neq in Et. rewrite (IH (S i)). split.
        -- apply list_elem_of_further.
        -- intros H. apply elem_of_cons in H as [H|H]; [congruence|exact H].
    + apply IH.
Qed.

Lemma find_hit_miss set tg i : find_hit set tg i = None <-> tg ∉ valid_tags set.
Proof.
  rewrite <- (find_hit_resident set tg i). split.
  - intros H [r Hr]. congruence.
  - intros H. destruct (find_hit set tg i) eqn:E; [|reflexivity]. exfalso. eauto.
Qed.

Lemma valid_tags_split set i old :
  set !! i = Some old ->
  valid_tags set =
  valid_tags (take i set) ++ (if valid old then [tag old] else [])
  ++ valid_tags (drop (S i) set).
Proof.
  intros H. rewrite <- (take_drop_middle set i old H) at 1.
  rewrite valid_tags_app. simpl. destruct (valid old); reflexivity.
Qed.

Lemma valid_tags_insert set i old d t c :
  set !! i = Some old ->
  valid_tags (<[i := mkLine true d t c]> set) =
  valid_tags (take i set) ++ t :: valid_tags (drop (S i) set).
Proof.
  intros H. rewrite insert_take_drop by (eapply lookup_lt_Some; exact H).
  rewrite valid_tags_app. reflexivity.
Qed.

(** Rewriting a valid line under its own tag keeps the tags of the set. *)
Lemma valid_tags_touch set i old d c :
  set !! i = Some old -> valid old = true ->
  valid_tags (<[i := mkLine true d (tag old) c]> set) = valid_tags set.
Proof.
  intros H Hv. rewrite (valid_tags_insert set i old d (tag old) c H).
  rewrite (valid_tags_split set i old H), Hv. reflexivity.
Qed.

(** Installing a tag that is not resident keeps the tags distinct. *)
Lemma valid_tags_install set i old d t c :
  set !! i = Some old -> t ∉ valid_tags set -> NoDup (valid_tags set) ->
  NoDup (valid_tags (<[i := mkLine true d t c]> set)).
Proof.
  intros H Hn Hnd. rewrite (valid_tags_insert set i old d t c H).
  rewrite (valid_tags_split set i old H) in Hn, Hnd.
  apply list.NoDup_app in Hnd as (Hpre & Hdisj & Hrest).
  apply list.NoDup_app in Hrest as (_ & _ & Hpost).
  apply list.NoDup_app. split; [exact Hpre|]. split.
  - intros x Hx Hin. apply elem_of_cons in Hin as [->|Hin].
    + apply Hn. apply elem_of_app. left. exact Hx.
    + apply (Hdisj x Hx). apply elem_of_app. right. exact Hin.
  - apply list.NoDup_cons. split; [|exact Hpost].
    intros Hin. apply Hn. apply elem_of_app. right. apply elem_of_app. right. exact Hin.
Qed.

(** *** One access to a well-formed level *)

(** The access is defined; it rewrites one way of the addressed set, under
    the tag found there on a hit and under the tag of the address on a
    miss. *)
Lemma access_outcome L address isWrite :
  level_wf L ->
  exists set q o,
    sets L !! set_of L address = Some set
    /\ fifo_queues L !! set_of L address = Some q
    /\ CacheLevel_access ilog2 L address isWrite =
       Some (out_hit o, level_after L (set_of L address) o)
    /\ level_wf (level_after L (set_of L address) o)
    /\ set !! out_way o = Some (out_old o)
    /\ (if out_hit o then
          find_hit set (getTag ilog2 L address) 0 = Some (out_way o, out_old o)
          /\ valid (out_old o) = true
          /\ tag (out_old o) = getTag ilog2 L address
          /\ out_set o =
             <[out_way o :=
                 mkLine true (if isWrite then true else dirty (out_old o))
                   (tag (out_old o)) (wrap (access_counter L + 1))]> set
          /\ out_queue o = q
        else
          find_hit set (getTag ilog2 L address) 0 = None
          /\ option_map fst (victim_of (policy L) set q) = Some (out_way o)
          /\ out_set o =
             <[out_way o :=
                 mkLine true isWrite (getTag ilog2 L address)
                   (wrap (access_counter L + 1))]> set).
Proof.
  intros Hwf.
  destruct (CacheLevel_access_total ilog2 L address isWrite Hwf)
    as (set & q & o & Hs & Hq & Hswf & Ho & Hacc & Hwf').
  destruct Hwf as (_ & Ha & _).
  destruct (set_access_total (policy L) _ set q (getTag ilog2 L address)
              (wrap (access_counter L + 1)) isWrite Hswf ltac:(lia))
    as (o' & Ho' & Hold & Hcase & _).
  rewrite Ho in Ho'. injection Ho' as <-.
  exists set, q, o.
  split; [exact Hs|]. split; [exact Hq|]. split; [exact Hacc|]. split; [exact Hwf'|].
  split; [exact Hold|].
  destruct (out_hit o).
  - destruct Hcase as (Hf & Hset & Hqo).
    destruct (find_hit_spec _ _ _ _ _ Hf) as (k & _ & _ & Hv & Ht).
    split; [exact Hf|]. split; [exact Hv|]. split; [exact Ht|]. split; [exact Hset|exact Hqo].
  - destruct Hcase as (Hf & Hvo & Hset). split; [exact Hf|]. split; [exact Hvo|]. exact Hset.
Qed.

Lemma level_after_sets L s o set :
  sets L !! s = Some set ->
  sets (level_after L s o) !! s = Some (out_set o)
  /\ forall s', s' <> s -> sets (level_after L s o) !! s' = sets L !! s'.
Proof.
  intros H. unfold level_after. cbn [sets]. split.
  - apply list_lookup_insert_eq. eapply lookup_lt_Some. exact H.
  - intros s' Hne. apply list_lookup_insert_ne. congruence.
Qed.

(** X11. A level built by the constructor from [size_t] arguments either has
    no set, and then every access divides by zero, or it has exactly
    [num_sets] sets of [associativity] lines each; then, when the shift
    counts of the address decomposition are below the width of [size_t],
    every access, after any history of accesses and resets, is defined, and
    leaves a level of the same kind. *)
Theorem X11_level_access_defined L :
  level_reachable L ->
  (num_sets L <> 0 -> shifts_defined L) ->
  (num_sets L = 0 /\ forall address isWrite, CacheLevel_access ilog2 L address isWrite = None)
  \/ (0 < num_sets L
      /\ length (sets L) = Z.to_nat (num_sets L)
      /\ Forall (fun set => length set = Z.to_nat (associativity L)) (sets L)
      /\ forall address isWrite,
           exists L', CacheLevel_access ilog2 L address isWrite
                      = Some (level_hits L address, L')
                      /\ level_reachable L' /\ shifts_defined L'
                      /\ num_sets L' = num_sets L).
Proof.
  intros Hr Hsd. destruct (level_reachable_wf L Hr) as [H0|Hwf].
  - left. split; [exact H0|]. intros address isWrite.
    unfold CacheLevel_access. rewrite H0. reflexivity.
  - right. pose proof Hwf as (Hn & Ha & Hlen & Hall).
    split; [exact Hn|]. split; [exact Hlen|]. split.
    + clear -Hall. induction Hall as [|set q sets qs [Hl _] _ IH]; constructor; assumption.
    + intros address isWrite.
      destruct (CacheLevel_access_hits ilog2 L address isWrite Hwf) as (L' & H & _).
      exists L'. split; [exact H|]. split; [eapply lr_access; eassumption|].
      destruct (access_outcome L address isWrite Hwf) as (set & q & o & _ & _ & Heq & _).
      rewrite Heq in H. injection H as _ <-.
      split; [|reflexivity]. apply Hsd. lia.
Qed.


Lemma tags_distinct_access L address isWrite hit L' :
  level_wf L -> tags_distinct L ->
  CacheLevel_access ilog2 L address isWrite = Some (hit, L') ->
  tags_distinct L'.
Proof.
  intros Hwf Hd Hacc.
  destruct (access_outcome L address isWrite Hwf)
    as (set & q & o & Hs & _ & Heq & _ & Hold & Hcase).
  rewrite Heq in Hacc. injection Hacc as _ <-.
  unfold tags_distinct, level_after. cbn [sets].
  apply Forall_insert; [exact Hd|].
  assert (Hnd : NoDup (valid_tags set)).
  { unfold tags_distinct in Hd. rewrite list.Forall_forall in Hd. apply Hd.
    eapply list_elem_of_lookup_2. exact Hs. }
  destruct (out_hit o).
  - destruct Hcase as (_ & Hv & _ & -> & _).
    rewrite (valid_tags_touch set _ _ _ _ Hold Hv). exact Hnd.
  - destruct Hcase as (Hf & _ & ->).
    apply (valid_tags_install set _ _ _ _ _ Hold); [|exact Hnd].
    apply (find_hit_miss set _ 0). exact Hf.
Qed.

Lemma valid_tags_fresh n : valid_tags (replicate n CacheLine_new) = [].
Proof. induction n as [|n IH]; simpl; [reflexivity | exact IH]. Qed.

Lemma level_reachable_distinct L : level_reachable L -> tags_distinct L.
Proof.
  induction 1 as [nm sz bs assoc pol lat L Hsz Hbs Ha Hl Hnew
                 | L address isWrite hit L' Hr IH Hacc
                 | L Hr IH].
  - apply CacheLevel_new_fields in Hnew. rewrite Hnew. unfold tags_distinct. cbn [sets].
    apply Forall_replicate. rewrite valid_tags_fresh. apply NoDup_nil_2.
  - destruct (level_reachable_wf L Hr) as [H0|Hwf].
    { unfold CacheLevel_access in Hacc. rewrite H0 in Hacc. discriminate. }
    eapply tags_distinct_access; eassumption.
  - exact IH.
Qed.

Lemma NoDup_valid_tags set :
  NoDup (valid_tags set) ->
  forall i j li lj,
    set !! i = Some li -> set !! j = Some lj ->
    valid li = true -> valid lj = true -> tag li = tag lj -> i = j.
Proof.
  induction set as [|c set IH]; intros Hd i j li lj Hi Hj Hvi Hvj Ht; [discriminate|].
  simpl in Hd.
  assert (Hin : forall k l, set !! k = Some l -> valid l = true -> tag l ∈ valid_tags set).
  { intros k l Hk Hv. apply valid_tags_elem. eauto. }
  destruct i as [|i], j as [|j]; simpl in Hi, Hj.
  - reflexivity.
  - injection Hi as ->. rewrite Hvi in Hd. apply list.NoDup_cons in Hd as [Hn _].
    exfalso. apply Hn. rewrite Ht. eapply Hin; eassumption.
  - injection Hj as ->. rewrite Hvj in Hd. apply list.NoDup_cons in Hd as [Hn _].
    exfalso. apply Hn. rewrite <- Ht. eapply Hin; eassumption.
  - f_equal. apply (IH (ltac:(destruct (valid c);
                               [apply list.NoDup_cons in Hd as [_ Hd]|]; exact Hd))
                      i j li lj); assumption.
Qed.

(** X12. No set of a reachable level ever holds the same tag in two valid
    lines: the tags resident in a set are pairwise distinct, a block is
    cached at most once per level. *)
Theorem X12_no_duplicate_lines L s set :
  level_reachable L ->
  sets L !! s = Some set ->
  NoDup (resident_tags L s)
  /\ forall i j li lj,
       set !! i = Some li -> set !! j = Some lj ->
       valid li = true -> valid lj = true -> tag li = tag lj -> i = j.
Proof.
  intros Hr Hs.
  pose proof (level_reachable_distinct L Hr) as Hd.
  unfold tags_distinct in Hd. rewrite list.Forall_forall in Hd.
  specialize (Hd set (list_elem_of_lookup_2 _ _ _ Hs)).
  split.
  - unfold resident_tags. rewrite Hs. exact Hd.
  - apply NoDup_valid_tags. exact Hd.
Qed.

(** *** What a level holds after an access *)

Lemma level_hits_resident L b :
  level_hits L b = true <-> getTag ilog2 L b ∈ resident_tags L (set_of L b).
Proof.
  unfold Cache.level_hits, resident_tags.
  destruct (sets L !! set_of L b) as [set|].
  - rewrite <- (find_hit_resident set _ 0).
    destruct (find_hit set (getTag ilog2 L b) 0) as [r|]; split; eauto.
    + discriminate.
    + intros [r H]. discriminate.
  - split; [discriminate | intros H; inversion H].
Qed.

Lemma level_hits_after_same L s o set b :
  sets L !! s = Some set -> set_of L b = s ->
  (level_hits (level_after L s o) b = true <-> getTag ilog2 L b ∈ valid_tags (out_set o)).
Proof.
  intros Hs Hb. rewrite level_hits_resident. unfold resident_tags.
  change (Cache.set_of ilog2 (level_after L s o) b) with (set_of L b).
  change (getTag ilog2 (level_after L s o) b) with (getTag ilog2 L b).
  rewrite Hb, (proj1 (level_after_sets L s o set Hs)). reflexivity.
Qed.

Lemma level_hits_after_other L s o set b :
  sets L !! s = Some set -> set_of L b <> s ->
  level_hits (level_after L s o) b = level_hits L b.
Proof.
  intros Hs Hb. unfold Cache.level_hits.
  change (Cache.set_of ilog2 (level_after L s o) b) with (set_of L b).
  change (getTag ilog2 (level_after L s o) b) with (getTag ilog2 L b).
  rewrite (proj2 (level_after_sets L s o set Hs) _ Hb). reflexivity.
Qed.

(** After an access the level holds the block of the address. *)
Lemma access_fills L address isWrite hit L' b :
  level_wf L ->
  CacheLevel_access ilog2 L address isWrite = Some (hit, L') ->
  set_of L b = set_of L address -> getTag ilog2 L b = getTag ilog2 L address ->
  level_hits L' b = true.
Proof.
  intros Hwf Hacc Hsb Htb.
  destruct (access_outcome L address isWrite Hwf)
    as (set & q & o & Hs & _ & Heq & _ & Hold & Hcase).
  rewrite Heq in Hacc. injection Hacc as _ <-.
  apply (level_hits_after_same L _ o set b Hs Hsb). rewrite Htb.
  destruct (out_hit o).
  - destruct Hcase as (Hf & Hv & _ & -> & _).
    rewrite (valid_tags_touch set _ _ _ _ Hold Hv).
    apply (find_hit_resident set _ 0). eauto.
  - destruct Hcase as (_ & _ & ->).
    rewrite (valid_tags_insert set _ _ _ _ _ Hold).
    apply elem_of_app. right. apply list_elem_of_here.
Qed.

(** X13. Temporal and spatial locality: once an address has been accessed,
    read or written, hit or miss, the level holds its block, and the next
    access to any address with the same set index and tag is a hit. *)
Theorem X13_access_fills_line L address isWrite hit L' b isWrite' :
  level_wf L ->
  CacheLevel_access ilog2 L address isWrite = Some (hit, L') ->
  set_of L b = set_of L address -> getTag ilog2 L b = getTag ilog2 L address ->
  level_hits L' b = true
  /\ exists L'', CacheLevel_access ilog2 L' b isWrite' = Some (true, L'').
Proof.
  intros Hwf Hacc Hsb Htb.
  pose proof (access_fills L address isWrite hit L' b Hwf Hacc Hsb Htb) as Hh.
  split; [exact Hh|].
  assert (Hwf' : level_wf L').
  { destruct (access_outcome L address isWrite Hwf) as (set & q & o & _ & _ & Heq & Hw & _).
    rewrite Heq in Hacc. injection Hacc as _ <-. exact Hw. }
  destruct (CacheLevel_access_hits ilog2 L' b isWrite' Hwf') as (L'' & H & _).
  rewrite Hh in H. exists L''. exact H.
Qed.

(** X14. An access rewrites at most one line of the level, in the set the
    address maps to; the geometry, the policy and the latency stay. A hit
    changes neither the tags resident in any set nor any FIFO queue. *)
Theorem X14_access_touches_one_line L address isWrite hit L' :
  level_wf L ->
  CacheLevel_access ilog2 L address isWrite = Some (hit, L') ->
  (block_size L' = block_size L /\ num_sets L' = num_sets L
   /\ associativity L' = associativity L /\ policy L' = policy L
   /\ access_latency L' = access_latency L)
  /\ (exists way,
        forall s i, s <> set_of L address \/ i <> way ->
                    line_at L' s i = line_at L s i)
  /\ (hit = true ->
      fifo_queues L' = fifo_queues L
      /\ forall s, resident_tags L' s = resident_tags L s).
Proof.
  intros Hwf Hacc.
  destruct (access_outcome L address isWrite Hwf)
    as (set & q & o & Hs & Hq & Heq & _ & Hold & Hcase).
  rewrite Heq in Hacc. injection Hacc as <- <-.
  split; [repeat split|]. split.
  - exists (out_way o). intros s i Hne. unfold line_at.
    destruct (Nat.eq_dec s (set_of L address)) as [->|Hs'].
    + rewrite (proj1 (level_after_sets L _ o set Hs)), Hs.
      destruct Hne as [Hne|Hne]; [congruence|].
      destruct (out_hit o).
      * destruct Hcase as (_ & _ & _ & -> & _). apply list_lookup_insert_ne. congruence.
      * destruct Hcase as (_ & _ & ->). apply list_lookup_insert_ne. congruence.
    + rewrite (proj2 (level_after_sets L _ o set Hs) _ Hs'). reflexivity.
  - intros Hh. rewrite Hh in Hcase. destruct Hcase as (_ & Hv & _ & Hset & Hqo). split.
    + unfold level_after. cbn [fifo_queues]. rewrite Hqo. apply list_insert_id. exact Hq.
    + intros s. unfold resident_tags.
      destruct (Nat.eq_dec s (set_of L address)) as [->|Hs'].
      * rewrite (proj1 (level_after_sets L _ o set Hs)), Hs, Hset.
        apply (valid_tags_touch set _ _ _ _ Hold Hv).
      * rewrite (proj2 (level_after_sets L _ o set Hs) _ Hs'). reflexivity.
Qed.

(** X15. In a direct-mapped level (associativity 1) the set of the accessed
    address holds, after the access, the tag of that address and nothing
    else: any other block of the same set has been evicted and misses. *)
Theorem X15_direct_mapped_conflict L address isWrite hit L' b :
  level_wf L -> associativity L = 1 ->
  CacheLevel_access ilog2 L address isWrite = Some (hit, L') ->
  resident_tags L' (set_of L address) = [getTag ilog2 L address]
  /\ (set_of L b = set_of L address -> getTag ilog2 L b <> getTag ilog2 L address ->
      level_hits L' b = false).
Proof.
  intros Hwf Hone Hacc.
  destruct (CacheLevel_access_total ilog2 L address isWrite Hwf)
    as (set0 & q0 & o0 & Hs0 & _ & [Hlen _] & _).
  destruct (access_outcome L address isWrite Hwf)
    as (set & q & o & Hs & _ & Heq & _ & Hold & Hcase).
  rewrite Hs0 in Hs. injection Hs as <-. rewrite Hone in Hlen.
  rewrite Heq in Hacc. injection Hacc as _ <-.
  destruct set0 as [|x [|y rest]]; [discriminate| |discriminate]. clear Hlen.
  destruct (out_way o) as [|n] eqn:Ew; [|discriminate]. simpl in Hold.
  injection Hold as Hx.
  assert (Htags : valid_tags (out_set o) = [getTag ilog2 L address]).
  { destruct (out_hit o).
    - destruct Hcase as (_ & Hv & Ht & -> & _). simpl. rewrite Ht. reflexivity.
    - destruct Hcase as (_ & _ & ->). reflexivity. }
  split.
  - unfold resident_tags. rewrite (proj1 (level_after_sets L _ o _ Hs0)). exact Htags.
  - intros Hsb Htb. destruct (level_hits (level_after L (set_of L address) o) b) eqn:E;
      [|reflexivity].
    apply (level_hits_after_same L _ o _ b Hs0 Hsb) in E. rewrite Htags in E.
    apply list_elem_of_singleton in E. contradiction.
Qed.

(** *** Least recently used *)

(** The LRU loop returns a way whose line has the smallest [last_access] of
    the set. [pre] are the lines already scanned. *)
Lemma lru_scan_min rest : forall pre victim m lv,
  (pre ++ rest) !! victim = Some lv -> last_access lv = m ->
  (forall l, l ∈ pre -> m <= last_access l) ->
  exists lr,
    (pre ++ rest) !! lru_scan rest (length pre) victim m = Some lr
    /\ forall l, l ∈ pre ++ rest -> last_access lr <= last_access l.
Proof.
  induction rest as [|c rest IH]; intros pre victim m lv Hv Hm Hmin; simpl.
  - exists lv. split; [exact Hv|]. rewrite app_nil_r. intros l Hl.
    rewrite Hm. apply Hmin. exact Hl.
  - assert (Hshape : pre ++ c :: rest = (pre ++ [c]) ++ rest)
      by (rewrite <- app_assoc; reflexivity).
    assert (Hlen : S (length pre) = length (pre ++ [c]))
      by (rewrite length_app; simpl; lia).
    rewrite Hshape, Hlen. destruct (last_access c <? m) eqn:E.
    + apply Z.ltb_lt in E. apply (IH (pre ++ [c]) (length pre) (last_access c) c).
      * rewrite <- Hshape. apply list_lookup_middle. reflexivity.
      * reflexivity.
      * intros l Hl. apply elem_of_app in Hl as [Hl|Hl].
        -- specialize (Hmin l Hl). lia.
        -- apply list_elem_of_singleton in Hl. subst l. lia.
    + apply Z.ltb_ge in E. apply (IH (pre ++ [c]) victim m lv).
      * rewrite <- Hshape. exact Hv.
      * exact Hm.
      * intros l Hl. apply elem_of_app in Hl as [Hl|Hl].
        -- apply Hmin. exact Hl.
        -- apply list_elem_of_singleton in Hl. subst l. exact E.
Qed.

Lemma timestamps_bounded_access L address isWrite hit L' :
  level_wf L -> timestamps_bounded L -> is_size_t (access_counter L + 1) ->
  CacheLevel_access ilog2 L address isWrite = Some (hit, L') ->
  timestamps_bounded L'.
Proof.
  intros Hwf Hts Hc Hacc.
  destruct (access_outcome L address isWrite Hwf)
    as (set & q & o & Hs & _ & Heq & _ & Hold & Hcase).
  rewrite Heq in Hacc. injection Hacc as _ <-.
  unfold timestamps_bounded, level_after in *. cbn [sets access_counter].
  rewrite (wrap_small _ Hc).
  assert (Hup : forall st, Forall (fun l => last_access l <= access_counter L) st ->
                           Forall (fun l => last_access l <= access_counter L + 1) st).
  { intros st Hst. eapply Forall_impl; [|exact Hst]. cbv beta. intros l Hl. lia. }
  assert (Hset : Forall (fun l => last_access l <= access_counter L) set).
  { rewrite list.Forall_forall in Hts. apply Hts. eapply list_elem_of_lookup_2. exact Hs. }
  apply Forall_insert.
  - eapply Forall_impl; [|exact Hts]. cbv beta. exact Hup.
  - destruct (out_hit o).
    + destruct Hcase as (_ & _ & _ & -> & _). rewrite (wrap_small _ Hc).
      apply Forall_insert; [apply Hup, Hset | simpl; lia].
    + destruct Hcase as (_ & _ & ->). rewrite (wrap_small _ Hc).
      apply Forall_insert; [apply Hup, Hset | simpl; lia].
Qed.

(** X16. LRU never evicts the line used last: in a level with at least two
    ways whose access counter has not wrapped, the block of an access is
    still resident after the next access, whatever that one is. *)
Theorem X16_lru_keeps_most_recent L a wa ha L1 b wb hb L2 :
  level_wf L -> policy L = LRU -> 2 <= associativity L ->
  timestamps_bounded L -> is_size_t (access_counter L + 1) ->
  CacheLevel_access ilog2 L a wa = Some (ha, L1) ->
  CacheLevel_access ilog2 L1 b wb = Some (hb, L2) ->
  level_hits L2 a = true /\ timestamps_bounded L1.
Proof.
  intros Hwf Hpol Hassoc Hts Hc Hacc1 Hacc2.
  split; [|eapply timestamps_bounded_access; eassumption].
  pose proof (access_fills L a wa ha L1 a Hwf Hacc1 eq_refl eq_refl) as Hfill.
  destruct (CacheLevel_access_total ilog2 L a wa Hwf)
    as (set0 & q0 & o0 & Hs0 & _ & [Hlen _] & _).
  destruct (access_outcome L a wa Hwf)
    as (set & q & o & Hs & _ & Heq & Hwf1 & Hold & Hcase).
  rewrite Hs0 in Hs. injection Hs as <-.
  rewrite Heq in Hacc1. injection Hacc1 as _ <-.
  set (c1 := wrap (access_counter L + 1)) in *.
  assert (Hc1 : c1 = access_counter L + 1) by (apply wrap_small; exact Hc).
  assert (Hset1 : exists d, out_set o = <[out_way o := mkLine true d (getTag ilog2 L a) c1]> set0).
  { destruct (out_hit o).
    - destruct Hcase as (_ & _ & Ht & -> & _). rewrite Ht. eauto.
    - destruct Hcase as (_ & _ & ->). eauto. }
  destruct Hset1 as [d Hset1]. clear Hcase.
  assert (Hway : (out_way o < length set0)%nat) by (eapply lookup_lt_Some; exact Hold).
  assert (HlineA : out_set o !! out_way o = Some (mkLine true d (getTag ilog2 L a) c1)).
  { rewrite Hset1. apply list_lookup_insert_eq. exact Hway. }
  assert (Hold_ts : forall k l, k <> out_way o -> out_set o !! k = Some l ->
                                last_access l <= access_counter L).
  { intros k l Hk Hl. rewrite Hset1, list_lookup_insert_ne in Hl by congruence.
    unfold timestamps_bounded in Hts. rewrite list.Forall_forall in Hts.
    specialize (Hts set0 (list_elem_of_lookup_2 _ _ _ Hs0)).
    rewrite list.Forall_forall in Hts. apply Hts. eapply list_elem_of_lookup_2. exact Hl. }
  assert (Hother : exists k l, k <> out_way o /\ out_set o !! k = Some l).
  { assert (Hl1 : length (out_set o) = length set0) by (rewrite Hset1; apply length_insert).
    destruct (out_way o) as [|w].
    - destruct (lookup_lt_is_Some_2 (out_set o) 1%nat) as [l Hl]; [lia|]. exists 1%nat, l. auto.
    - destruct (lookup_lt_is_Some_2 (out_set o) 0%nat) as [l Hl]; [lia|]. exists 0%nat, l. auto. }
  destruct (access_outcome (level_after L (set_of L a) o) b wb Hwf1)
    as (set' & q' & o' & Hs' & _ & Heq' & _ & Hold' & Hcase').
  rewrite Heq' in Hacc2. injection Hacc2 as _ <-.
  change (Cache.set_of ilog2 (level_after L (set_of L a) o) b) with (set_of L b) in *.
  change (getTag ilog2 (level_after L (set_of L a) o) b) with (getTag ilog2 L b) in *.
  change (policy (level_after L (set_of L a) o)) with (policy L) in *.
  destruct (Nat.eq_dec (set_of L b) (set_of L a)) as [Hsame|Hdiff].
  - rewrite Hsame in *.
    rewrite (proj1 (level_after_sets L _ o set0 Hs0)) in Hs'. injection Hs' as <-.
    apply (level_hits_after_same _ (set_of L a) o' (out_set o) a).
    { apply (level_after_sets L _ o set0 Hs0). }
    { reflexivity. }
    change (getTag ilog2 (level_after L (set_of L a) o) a) with (getTag ilog2 L a).
    apply valid_tags_elem.
    destruct (Nat.eq_dec (out_way o') (out_way o)) as [Hw|Hw].
    + rewrite Hw, HlineA in Hold'. injection Hold' as Hold'.
      destruct (out_hit o').
      * destruct Hcase' as (_ & _ & _ & Hset' & _).
        eexists (out_way o), _. split; [|split].
        -- rewrite Hset', Hw. apply list_lookup_insert_eq.
           eapply lookup_lt_Some. exact HlineA.
        -- reflexivity.
        -- rewrite <- Hold'. reflexivity.
      * exfalso. destruct Hcase' as (_ & Hvic & _). rewrite Hpol in Hvic.
        unfold victim_of in Hvic.
        destruct (find_invalid (out_set o) 0) as [i|] eqn:Einv.
        -- simpl in Hvic. injection Hvic as Hi.
           apply find_invalid_spec in Einv as (k & l & Hik & Hk & Hv).
           simpl in Hik. rewrite Hi, Hw in Hik. subst k. rewrite HlineA in Hk.
           injection Hk as <-. discriminate.
        -- destruct (out_set o) as [|l0 rest] eqn:Eset; [discriminate|].
           simpl in Hvic. injection Hvic as Hi.
           destruct (lru_scan_min rest [l0] 0%nat (last_access l0) l0
                       eq_refl eq_refl) as (lr & Hlr & Hmin).
           { intros l Hl. apply list_elem_of_singleton in Hl. subst l. lia. }
           simpl in Hlr. rewrite Hi, Hw, HlineA in Hlr. injection Hlr as <-.
           destruct Hother as (k & l & Hk & Hl).
           specialize (Hmin l (list_elem_of_lookup_2 _ _ _ Hl)).
           specialize (Hold_ts k l Hk Hl). simpl in Hmin. lia.
    + exists (out_way o), (mkLine true d (getTag ilog2 L a) c1). split; [|split; reflexivity].
      assert (Hset' : exists x, out_set o' = <[out_way o' := x]> (out_set o)).
      { destruct (out_hit o').
        - destruct Hcase' as (_ & _ & _ & -> & _). eauto.
        - destruct Hcase' as (_ & _ & ->). eauto. }
      destruct Hset' as [x ->]. rewrite list_lookup_insert_ne by congruence. exact HlineA.
  - rewrite (level_hits_after_other _ (set_of L b) o' set' a Hs'); [exact Hfill|].
    change (Cache.set_of ilog2 (level_after L (set_of L a) o) a) with (set_of L a).
    congruence.
Qed.

(** *** The hierarchy *)

Lemma access_keeps_latency L address isWrite hit L' :
  level_wf L ->
  CacheLevel_access ilog2 L address isWrite = Some (hit, L') ->
  access_latency L' = access_latency L /\ level_wf L'.
Proof.
  intros Hwf Hacc.
  destruct (access_outcome L address isWrite Hwf) as (set & q & o & _ & _ & Heq & Hw & _).
  rewrite Heq in Hacc. injection Hacc as _ <-. split; [reflexivity | exact Hw].
Qed.

(** The probe loop accesses the levels up to the first that hits, once
    each, and leaves the levels below as they are. *)
Lemma probe_frame lv address isWrite : forall t,
  Forall level_wf lv ->
  exists lv' t',
    probe ilog2 lv address isWrite t = Some (lv', t', negb (all_miss lv address))
    /\ length lv' = length lv
    /\ drop (length (probed lv address)) lv' = drop (length (probed lv address)) lv
    /\ Forall2 (fun L L' =>
                  CacheLevel_access ilog2 L address isWrite
                  = Some (level_hits L address, L'))
         (probed lv address) (take (length (probed lv address)) lv')
    /\ Forall (fun L' => level_hits L' address = true)
         (take (length (probed lv address)) lv').
Proof.
  induction lv as [|L rest IH]; intros t Hwf; simpl.
  - exists [], t. repeat split; constructor.
  - pose proof (Forall_inv Hwf) as HL. pose proof (Forall_inv_tail Hwf) as Hrest.
    destruct (CacheLevel_access_hits ilog2 L address isWrite HL) as (L' & HaccL & HL').
    pose proof (access_fills L address isWrite _ L' address HL HaccL eq_refl eq_refl) as Hfill.
    rewrite HaccL. destruct (level_hits L address) eqn:Eh; simpl.
    + exists (L' :: rest), (wrap (t + getLatency L)).
      split; [reflexivity|]. split; [reflexivity|]. split; [reflexivity|].
      split; [constructor; [rewrite Eh; exact HaccL | constructor]
             | constructor; [exact Hfill | constructor]].
    + destruct (IH (wrap (t + getLatency L)) Hrest)
        as (rest' & t' & -> & Hlen & Hdrop & Hacc & Hhit).
      exists (L' :: rest'), t'.
      split; [reflexivity|]. split; [simpl; rewrite Hlen; reflexivity|].
      split; [exact Hdrop|].
      split; [constructor; [rewrite Eh; exact HaccL | exact Hacc]
             | constructor; [exact Hfill | exact Hhit]].
Qed.

(** X17. An access to the hierarchy accesses each level once, from the
    first down to the first that hits, and does nothing to the levels below
    it; every level it went through holds the block afterwards (the
    hierarchy fills inclusively). *)
Theorem X17_hierarchy_probes_prefix s address isWrite s' :
  Forall level_wf (levels s) ->
  CacheSimulator_access ilog2 s address isWrite = Some s' ->
  length (levels s') = length (levels s)
  /\ drop (length (probed (levels s) address)) (levels s')
     = drop (length (probed (levels s) address)) (levels s)
  /\ Forall2 (fun L L' =>
                CacheLevel_access ilog2 L address isWrite
                = Some (level_hits L address, L'))
       (probed (levels s) address)
       (take (length (probed (levels s) address)) (levels s'))
  /\ Forall (fun L' => level_hits L' address = true)
       (take (length (probed (levels s) address)) (levels s')).
Proof.
  intros Hwf Hacc. unfold CacheSimulator_access in Hacc.
  destruct (probe_frame (levels s) address isWrite 0 Hwf) as (lv' & t' & Hp & Hrest).
  rewrite Hp in Hacc.
  destruct (negb (all_miss (levels s) address)); injection Hacc as <-; exact Hrest.
Qed.

(** X18. Locality through the hierarchy: after any access, an access to the
    same block of the first level hits there, costs the latency of the
    first level only, and touches no other level. *)
Theorem X18_repeated_access_first_level s address isWrite s1 L1 rest b isWrite' :
  Forall level_wf (levels s) -> levels s = L1 :: rest ->
  CacheSimulator_access ilog2 s address isWrite = Some s1 ->
  set_of L1 b = set_of L1 address -> getTag ilog2 L1 b = getTag ilog2 L1 address ->
  exists s2,
    CacheSimulator_access ilog2 s1 b isWrite' = Some s2
    /\ sim_total_access_time s2 = wrap (sim_total_access_time s1 + access_latency L1)
    /\ drop 1 (levels s2) = drop 1 (levels s1).
Proof.
  intros Hwf Hlv Hacc Hsb Htb. rewrite Hlv in Hwf.
  pose proof (Forall_inv Hwf) as HL.
  destruct (CacheLevel_access_hits ilog2 L1 address isWrite HL) as (L1' & HaccL & _).
  destruct (access_keeps_latency L1 address isWrite _ L1' HL HaccL) as [Hlat HL'].
  pose proof (access_fills L1 address isWrite _ L1' b HL HaccL Hsb Htb) as Hfill.
  assert (Hs1 : exists rest1, levels s1 = L1' :: rest1).
  { unfold CacheSimulator_access in Hacc. rewrite Hlv in Hacc. simpl in Hacc.
    rewrite HaccL in Hacc. destruct (level_hits L1 address).
    - injection Hacc as <-. eauto.
    - destruct (probe ilog2 rest address isWrite (wrap (0 + getLatency L1)))
        as [[[rest' t] h]|]; [|discriminate].
      destruct h; injection Hacc as <-; eauto. }
  destruct Hs1 as [rest1 Hs1].
  destruct (CacheLevel_access_hits ilog2 L1' b isWrite' HL') as (L1'' & HaccL' & _).
  rewrite Hfill in HaccL'.
  unfold CacheSimulator_access. rewrite Hs1. simpl. rewrite HaccL'.
  eexists. split; [reflexivity|]. simpl. split; [|reflexivity].
  unfold getLatency. rewrite Hlat, wrap_add_r. reflexivity.
Qed.

(** *** Statistics do not steer the cache *)


Lemma same_but_stats_access L K address isWrite :
  level_wf L -> same_but_stats L K ->
  exists h L' K',
    CacheLevel_access ilog2 L address isWrite = Some (h, L')
    /\ CacheLevel_access ilog2 K address isWrite = Some (h, K')
    /\ level_wf L' /\ same_but_stats L' K'.
Proof.
  intros Hwf HK.
  assert (HwfK : level_wf K) by (rewrite HK; exact Hwf).
  destruct (CacheLevel_access_total ilog2 L address isWrite Hwf)
    as (set & q & o & Hs & Hq & _ & Ho & Hacc & Hwf').
  destruct (CacheLevel_access_total ilog2 K address isWrite HwfK)
    as (setK & qK & oK & HsK & HqK & _ & HoK & HaccK & _).
  assert (HoK' : oK = o).
  { rewrite HK in HsK, HqK, HoK.
    change (sets L !! set_of L address = Some setK) in HsK.
    change (fifo_queues L !! set_of L address = Some qK) in HqK.
    rewrite Hs in HsK. injection HsK as <-. rewrite Hq in HqK. injection HqK as <-.
    change (set_access (policy L) set q (getTag ilog2 L address)
              (wrap (access_counter L + 1)) isWrite = Some oK) in HoK.
    congruence. }
  subst oK.
  exists (out_hit o), (level_after L (set_of L address) o),
         (level_after K (Cache.set_of ilog2 K address) o).
  split; [exact Hacc|]. split; [exact HaccK|]. split; [exact Hwf'|].
  rewrite HK. reflexivity.
Qed.

Lemma same_but_stats_probe lv : forall kv address isWrite t,
  Forall level_wf lv -> Forall2 same_but_stats lv kv ->
  exists lv' kv' t' h,
    probe ilog2 lv address isWrite t = Some (lv', t', h)
    /\ probe ilog2 kv address isWrite t = Some (kv', t', h)
    /\ Forall2 same_but_stats lv' kv'.
Proof.
  induction lv as [|L rest IH]; intros kv address isWrite t Hwf Hs.
  - inversion Hs. subst. exists [], [], t, false. repeat split. constructor.
  - inversion Hs as [|? K ? krest HLK Hrk]. subst.
    pose proof (Forall_inv Hwf) as HL. pose proof (Forall_inv_tail Hwf) as Hrest.
    destruct (same_but_stats_access L K address isWrite HL HLK)
      as (h & L' & K' & HaL & HaK & _ & HLK').
    assert (Hlat : getLatency K = getLatency L) by (rewrite HLK; reflexivity).
    simpl. rewrite HaL, HaK, Hlat. destruct h.
    + exists (L' :: rest), (K' :: krest), (wrap (t + getLatency L)), true.
      split; [reflexivity|]. split; [reflexivity|]. constructor; assumption.
    + destruct (IH krest address isWrite (wrap (t + getLatency L)) Hrest Hrk)
        as (rest' & krest' & t' & h & -> & -> & Hr').
      exists (L' :: rest'), (K' :: krest'), t', h.
      split; [reflexivity|]. split; [reflexivity|]. constructor; assumption.
Qed.

Lemma same_but_stats_map {A} (f : CacheLevel -> A) lv kv :
  (forall L st, f (with_stats L st) = f L) ->
  Forall2 same_but_stats lv kv -> map f kv = map f lv.
Proof.
  intros Hf. induction 1 as [|L K lv kv HLK _ IH]; simpl; [reflexivity|].
  rewrite IH. f_equal. rewrite HLK. apply Hf.
Qed.

Lemma resetStats_same lv : Forall2 same_but_stats lv (map resetStats lv).
Proof. induction lv as [|L rest IH]; simpl; constructor; [reflexivity|exact IH]. Qed.

(** X20. [CacheSimulator::resetStats] clears the counters of every level
    and nothing else: the lines, the FIFO queues and the access counters of
    the levels stay, and so does the hierarchy's own [total_access_time];
    the next access then finds the same hits and misses, costs the same and
    leaves the same lines, queues and access counters as without the
    reset. *)
Theorem X20_resetStats_keeps_contents s address isWrite :
  Forall level_wf (levels s) ->
  let r := CacheSimulator_resetStats s in
  Forall (fun L => stats L = CacheStats_new) (levels r)
  /\ map sets (levels r) = map sets (levels s)
  /\ map fifo_queues (levels r) = map fifo_queues (levels s)
  /\ map access_counter (levels r) = map access_counter (levels s)
  /\ map (fun L => level_hits L address) (levels r)
     = map (fun L => level_hits L address) (levels s)
  /\ sim_total_access_time r = sim_total_access_time s
  /\ exists s1 s2,
       CacheSimulator_access ilog2 s address isWrite = Some s1
       /\ CacheSimulator_access ilog2 r address isWrite = Some s2
       /\ sim_total_access_time s2 = sim_total_access_time s1
       /\ Forall2 same_but_stats (levels s1) (levels s2)
       /\ map sets (levels s2) = map sets (levels s1)
       /\ map fifo_queues (levels s2) = map fifo_queues (levels s1)
       /\ map access_counter (levels s2) = map access_counter (levels s1).
Proof.
  intros Hwf r. pose proof (resetStats_same (levels s)) as Hs.
  change (levels r) with (map resetStats (levels s)).
  split; [|split; [|split; [|split; [|split; [|split; [reflexivity|]]]]]].
  - apply Forall_map. apply list.Forall_forall. intros L _. reflexivity.
  - apply same_but_stats_map; [reflexivity | exact Hs].
  - apply same_but_stats_map; [reflexivity | exact Hs].
  - apply same_but_stats_map; [reflexivity | exact Hs].
  - apply (same_but_stats_map (fun L => level_hits L address)); [reflexivity | exact Hs].
  - destruct (same_but_stats_probe (levels s) _ address isWrite 0 Hwf Hs)
      as (lv' & kv' & t' & h & Hp & Hk & Hsame).
    unfold CacheSimulator_access. subst r. unfold CacheSimulator_resetStats.
    cbn [levels sim_total_access_time memory_latency initialized].
    rewrite Hp, Hk.
    assert (Hm : map sets kv' = map sets lv'
                 /\ map fifo_queues kv' = map fifo_queues lv'
                 /\ map access_counter kv' = map access_counter lv').
    { split; [|split]; (apply same_but_stats_map; [reflexivity | exact Hsame]). }
    destruct h; eexists _, _; (split; [reflexivity|]);
      (split; [reflexivity|]); (split; [reflexivity|]);
      (split; [exact Hsame | exact Hm]).
Qed.

(** *** Address decomposition *)

(** X19. When the two logarithms are non-negative, the shift by their sum is
    below the word size and [2 ^ set_bits <= num_sets] (as for a truncated
    base-2 logarithm), two addresses have the same set index and the same
    tag exactly when they agree above the [block_bits] low bits: a line
    stands for one aligned block of [2 ^ block_bits] bytes, which is the
    block size when that is a power of two. *)
Theorem X19_same_line_iff_same_block L a b :
  0 <= ilog2 (block_size L) -> 0 <= ilog2 (num_sets L) ->
  ilog2 (block_size L) + ilog2 (num_sets L) < 64 ->
  2 ^ ilog2 (num_sets L) <= num_sets L ->
  ((getSetIndex ilog2 L a = getSetIndex ilog2 L b /\ getTag ilog2 L a = getTag ilog2 L b)
   <-> Z.shiftr a (ilog2 (block_size L)) = Z.shiftr b (ilog2 (block_size L)))
  /\ (block_size L = 2 ^ ilog2 (block_size L) ->
      Z.shiftr a (ilog2 (block_size L)) = a / block_size L).
Proof.
  intros Hbb Hsb Hsum Hpow. split.
  - unfold getSetIndex, getTag.
    set (bb := ilog2 (block_size L)) in *. set (sb := ilog2 (num_sets L)) in *.
    rewrite (wrap_small (bb + sb)) by (unfold is_size_t, SIZE_MAX1; lia).
    rewrite <- !Z.shiftr_shiftr by exact Hsb.
    set (x := Z.shiftr a bb). set (y := Z.shiftr b bb).
    rewrite !Z.shiftr_div_pow2 by exact Hsb.
    split; [|intros ->; split; reflexivity].
    intros [Hset Htag].
    assert (Hp : 0 < 2 ^ sb) by (apply Z.pow_pos_nonneg; lia).
    pose proof (Z.div_mod x (2 ^ sb) ltac:(lia)) as Hx.
    pose proof (Z.div_mod y (2 ^ sb) ltac:(lia)) as Hy.
    pose proof (Z.mod_pos_bound x (2 ^ sb) Hp) as Hxb.
    pose proof (Z.mod_pos_bound y (2 ^ sb) Hp) as Hyb.
    pose proof (Z.div_mod x (num_sets L) ltac:(lia)) as Hxn.
    pose proof (Z.div_mod y (num_sets L) ltac:(lia)) as Hyn.
    rewrite Htag in Hx. rewrite Hset in Hxn.
    assert (Hk : x - y = num_sets L * (x / num_sets L - y / num_sets L)) by lia.
    assert (Hd : - num_sets L < x - y < num_sets L) by lia.
    assert (Hz : x / num_sets L - y / num_sets L = 0) by nia.
    rewrite Hz in Hk. lia.
  - intros Hbs. rewrite Z.shiftr_div_pow2 by exact Hbb. rewrite <- Hbs. reflexivity.
Qed.

(** *** Runs *)

Lemma run_level_reachable reqs : forall L L',
  level_reachable L -> run_level ilog2 L reqs = Some L' -> level_reachable L'.
Proof.
  induction reqs as [|[a w] reqs IH]; intros L L' Hr Hrun; simpl in Hrun.
  - injection Hrun as <-. exact Hr.
  - destruct (CacheLevel_access ilog2 L a w) as [[h L1]|] eqn:E; [|discriminate].
    apply (IH L1 L'); [|exact Hrun]. eapply lr_access; eassumption.
Qed.

Lemma run_level_wf reqs : forall L L',
  level_wf L -> run_level ilog2 L reqs = Some L' -> level_wf L'.
Proof.
  induction reqs as [|[a w] reqs IH]; intros L L' Hwf Hrun; simpl in Hrun.
  - injection Hrun as <-. exact Hwf.
  - destruct (CacheLevel_access ilog2 L a w) as [[h L1]|] eqn:E; [|discriminate].
    apply (IH L1 L'); [|exact Hrun].
    apply (access_keeps_latency L a w h L1 Hwf E).
Qed.

Lemma run_sim_wf reqs : forall s s',
  Forall level_wf (levels s) -> run_sim ilog2 s reqs = Some s' ->
  Forall level_wf (levels s').
Proof.
  induction reqs as [|[a w] reqs IH]; intros s s' Hwf Hrun; simpl in Hrun.
  - injection Hrun as <-. exact Hwf.
  - destruct (CacheSimulator_access ilog2 s a w) as [s1|] eqn:E; [|discriminate].
    apply (IH s1 s'); [|exact Hrun].
    unfold CacheSimulator_access in E.
    destruct (probe_spec ilog2 (levels s) a w 0 Hwf) as (lv' & t' & Hp & _ & Hwf').
    rewrite Hp in E.
    destruct (negb (all_miss (levels s) a)); injection E as <-; exact Hwf'.
Qed.

End Behaviour.

Lemma X10_witness :
  let L := dirty_level in
  accesses (stats L) = wrap (hits (stats L) + misses (stats L))
  /\ total_access_time (stats L) = wrap (accesses (stats L) * access_latency L).
Proof.
  intros L. apply (X10_level_counters Z.log2 L).
  apply (lr_access Z.log2
           (mkLevel "L1" 16 16 1 1 1 [[CacheLine_new]] [[]] LRU CacheStats_new 0 1)
           0 true false).
  - apply (lr_new Z.log2 "L1" 16 16 1 LRU 1);
      try (unfold is_size_t, SIZE_MAX1; lia). reflexivity.
  - reflexivity.
Defined.

Lemma default_L1_wf : level_wf default_L1.
Proof. exact (Forall_inv default_hierarchy_wf). Qed.

Lemma default_L1_reachable : level_reachable Z.log2 default_L1.
Proof.
  apply (lr_new Z.log2 "L1" 256 16 4 LRU 1);
    try (unfold is_size_t, SIZE_MAX1; lia). reflexivity.
Qed.

Lemma dirty_level_reachable : level_reachable Z.log2 dirty_level.
Proof.
  apply (lr_access Z.log2
           (mkLevel "L1" 16 16 1 1 1 [[CacheLine_new]] [[]] LRU CacheStats_new 0 1)
           0 true false).
  - apply (lr_new Z.log2 "L1" 16 16 1 LRU 1);
      try (unfold is_size_t, SIZE_MAX1; lia). reflexivity.
  - reflexivity.
Qed.

Lemma X11_witness :
  exists L,
    run_level Z.log2 default_L1
      [(0, true); (64, false); (128, false); (192, false); (256, false); (0, false)]
    = Some L
    /\ let R := resetStats L in
       (num_sets R = 0
        /\ forall address isWrite, CacheLevel_access Z.log2 R address isWrite = None)
       \/ (0 < num_sets R
           /\ length (sets R) = Z.to_nat (num_sets R)
           /\ Forall (fun set => length set = Z.to_nat (associativity R)) (sets R)
           /\ forall address isWrite,
                exists L', CacheLevel_access Z.log2 R address isWrite
                           = Some (level_hits Z.log2 R address, L')
                           /\ level_reachable Z.log2 L' /\ shifts_defined Z.log2 L'
                           /\ num_sets L' = num_sets R).
Proof.
  eexists. split; [vm_compute; reflexivity|].
  apply (X11_level_access_defined Z.log2).
  - apply lr_reset.
    apply (run_level_reachable Z.log2
             [(0, true); (64, false); (128, false); (192, false); (256, false); (0, false)]
             default_L1 _ default_L1_reachable).
    vm_compute. reflexivity.
  - intros _. unfold shifts_defined. cbn [resetStats with_stats block_size num_sets].
    simpl. lia.
Defined.

Lemma X12_witness :
  exists L set,
    run_level Z.log2 default_L1 [(0, false); (64, true); (128, false)] = Some L
    /\ sets L !! 0%nat = Some set
    /\ valid_tags set = [0; 1; 2]
    /\ NoDup (resident_tags L 0)
    /\ forall i j li lj,
         set !! i = Some li -> set !! j = Some lj ->
         valid li = true -> valid lj = true -> tag li = tag lj -> i = j.
Proof.
  eexists _, _. split; [vm_compute; reflexivity|]. split; [reflexivity|].
  split; [reflexivity|].
  apply (X12_no_duplicate_lines Z.log2 _ 0%nat _).
  - apply (run_level_reachable Z.log2 [(0, false); (64, true); (128, false)]
             default_L1 _ default_L1_reachable).
    vm_compute. reflexivity.
  - reflexivity.
Defined.

Lemma X13_witness :
  exists L',
    CacheLevel_access Z.log2 default_L1 4660 false = Some (false, L')
    /\ level_hits Z.log2 L' 4671 = true
    /\ exists L'', CacheLevel_access Z.log2 L' 4671 true = Some (true, L'').
Proof.
  eexists. split; [reflexivity|].
  apply (X13_access_fills_line Z.log2 default_L1 4660 false false _ 4671 true);
    [exact default_L1_wf | reflexivity | reflexivity | reflexivity].
Defined.

Lemma default_L2_wf : level_wf default_L2.
Proof. exact (Forall_inv (Forall_inv_tail default_hierarchy_wf)). Qed.

Lemma X14_witness :
  exists L L',
    run_level Z.log2 default_L2 [(0, false); (128, false); (32, false)] = Some L
    /\ resident_tags L 0 = [0; 1]
    /\ fifo_queues L = [[0; 1]; [0]; []; []]%nat
    /\ CacheLevel_access Z.log2 L 128 true = Some (true, L')
    /\ (block_size L' = block_size L /\ num_sets L' = num_sets L
        /\ associativity L' = associativity L /\ policy L' = policy L
        /\ access_latency L' = access_latency L)
    /\ (exists way,
          forall s i, s <> set_of Z.log2 L 128 \/ i <> way ->
                      line_at L' s i = line_at L s i)
    /\ (true = true ->
        fifo_queues L' = fifo_queues L
        /\ forall s, resident_tags L' s = resident_tags L s).
Proof.
  eexists _, _. split; [vm_compute; reflexivity|]. split; [reflexivity|].
  split; [reflexivity|]. split; [vm_compute; reflexivity|].
  apply (X14_access_touches_one_line Z.log2 _ 128 true true).
  - apply (run_level_wf Z.log2 [(0, false); (128, false); (32, false)]
             default_L2 _ default_L2_wf).
    vm_compute. reflexivity.
  - vm_compute. reflexivity.
Defined.

Lemma X15_witness :
  exists L',
    CacheLevel_access Z.log2 dirty_level 16 false = Some (false, L')
    /\ resident_tags L' (set_of Z.log2 dirty_level 16) = [getTag Z.log2 dirty_level 16]
    /\ (set_of Z.log2 dirty_level 0 = set_of Z.log2 dirty_level 16 ->
        getTag Z.log2 dirty_level 0 <> getTag Z.log2 dirty_level 16 ->
        level_hits Z.log2 L' 0 = false).
Proof.
  eexists. split; [reflexivity|].
  apply (X15_direct_mapped_conflict Z.log2 dirty_level 16 false false _ 0);
    [exact dirty_level_wf | reflexivity | reflexivity].
Defined.

Lemma default_L1_timestamps : timestamps_bounded default_L1.
Proof.
  unfold timestamps_bounded, default_L1. cbn [sets access_counter].
  apply Forall_replicate, Forall_replicate. simpl. lia.
Qed.

Lemma X16_witness :
  exists L1 L2,
    CacheLevel_access Z.log2 default_L1 0 false = Some (false, L1)
    /\ CacheLevel_access Z.log2 L1 64 true = Some (false, L2)
    /\ level_hits Z.log2 L2 0 = true /\ timestamps_bounded L1.
Proof.
  eexists _, _. split; [vm_compute; reflexivity|]. split; [vm_compute; reflexivity|].
  apply (X16_lru_keeps_most_recent Z.log2 default_L1 0 false false _ 64 true false);
    [exact default_L1_wf | reflexivity | unfold default_L1; cbn [associativity]; lia
    | exact default_L1_timestamps
    | unfold is_size_t, SIZE_MAX1, default_L1; cbn [access_counter]; lia
    | vm_compute; reflexivity | vm_compute; reflexivity].
Defined.

Lemma X17_witness :
  exists s',
    CacheSimulator_access Z.log2 default_hierarchy 4660 false = Some s'
    /\ length (levels s') = length (levels default_hierarchy)
    /\ drop (length (probed Z.log2 (levels default_hierarchy) 4660)) (levels s')
       = drop (length (probed Z.log2 (levels default_hierarchy) 4660))
           (levels default_hierarchy)
    /\ Forall2 (fun L L' =>
                  CacheLevel_access Z.log2 L 4660 false
                  = Some (level_hits Z.log2 L 4660, L'))
         (probed Z.log2 (levels default_hierarchy) 4660)
         (take (length (probed Z.log2 (levels default_hierarchy) 4660)) (levels s'))
    /\ Forall (fun L' => level_hits Z.log2 L' 4660 = true)
         (take (length (probed Z.log2 (levels default_hierarchy) 4660)) (levels s')).
Proof.
  eexists. split; [reflexivity|].
  apply (X17_hierarchy_probes_prefix Z.log2 default_hierarchy 4660 false);
    [exact default_hierarchy_wf | reflexivity].
Defined.

Lemma X18_witness :
  exists s1 s2,
    CacheSimulator_access Z.log2 default_hierarchy 4660 false = Some s1
    /\ CacheSimulator_access Z.log2 s1 4671 true = Some s2
    /\ sim_total_access_time s2
       = wrap (sim_total_access_time s1 + access_latency default_L1)
    /\ drop 1 (levels s2) = drop 1 (levels s1).
Proof.
  eexists. 
  destruct (X18_repeated_access_first_level Z.log2 default_hierarchy 4660 false
              _ default_L1 [default_L2] 4671 true default_hierarchy_wf eq_refl
              eq_refl eq_refl eq_refl) as (s2 & H2 & Ht & Hd).
  exists s2. split; [reflexivity|]. split; [exact H2|]. split; [exact Ht | exact Hd].
Defined.

Lemma X19_witness :
  ((getSetIndex Z.log2 default_L1 4660 = getSetIndex Z.log2 default_L1 4671
    /\ getTag Z.log2 default_L1 4660 = getTag Z.log2 default_L1 4671)
   <-> Z.shiftr 4660 (Z.log2 (block_size default_L1))
       = Z.shiftr 4671 (Z.log2 (block_size default_L1)))
  /\ (block_size default_L1 = 2 ^ Z.log2 (block_size default_L1) ->
      Z.shiftr 4660 (Z.log2 (block_size default_L1)) = 4660 / block_size default_L1).
Proof.
  apply (X19_same_line_iff_same_block Z.log2 default_L1 4660 4671); simpl; lia.
Defined.

Lemma X20_witness :
  exists s,
    run_sim Z.log2 default_hierarchy [(0, true); (64, false); (0, false); (4660, false)]
    = Some s
    /\ map (fun L => accesses (stats L)) (levels s) = [4; 3]
    /\ sim_total_access_time s = 334
    /\ let r := CacheSimulator_resetStats s in
       Forall (fun L => stats L = CacheStats_new) (levels r)
       /\ map sets (levels r) = map sets (levels s)
       /\ map fifo_queues (levels r) = map fifo_queues (levels s)
       /\ map access_counter (levels r) = map access_counter (levels s)
       /\ map (fun L => level_hits Z.log2 L 64) (levels r)
          = map (fun L => level_hits Z.log2 L 64) (levels s)
       /\ sim_total_access_time r = sim_total_access_time s
       /\ exists s1 s2,
            CacheSimulator_access Z.log2 s 64 true = Some s1
            /\ CacheSimulator_access Z.log2 r 64 true = Some s2
            /\ sim_total_access_time s2 = sim_total_access_time s1
            /\ Forall2 same_but_stats (levels s1) (levels s2)
            /\ map sets (levels s2) = map sets (levels s1)
            /\ map fifo_queues (levels s2) = map fifo_queues (levels s1)
            /\ map access_counter (levels s2) = map access_counter (levels s1).
Proof.
  eexists. split; [vm_compute; reflexivity|]. split; [reflexivity|].
  split; [reflexivity|].
  apply (X20_resetStats_keeps_contents Z.log2 _ 64 true).
  apply (run_sim_wf Z.log2 [(0, true); (64, false); (0, false); (4660, false)]
           default_hierarchy _ default_hierarchy_wf).
  vm_compute. reflexivity.
Defined.

End CacheExtra.

(** * Properties of the command splitter *)

Module ShellExtra.
Import Shell.


Lemma read_word_spec s :
  s = fst (read_word s) ++ snd (read_word s)
  /\ Forall (fun c => isspace c = false) (fst (read_word s))
  /\ starts_blank (snd (read_word s)).
Proof.
  induction s as [|c r IH]; simpl.
  - split; [reflexivity|]. split; [constructor | left; reflexivity].
  - destruct (isspace c) eqn:E; simpl.
    + split; [reflexivity|]. split; [constructor | right; eauto].
    + destruct (read_word r) as [w rest]. simpl in *. destruct IH as (Hs & Hw & Hr).
      split; [rewrite Hs at 1; reflexivity|]. split; [constructor; assumption | exact Hr].
Qed.

Lemma skip_space_spec s :
  exists ws, s = ws ++ skip_space s /\ is_blank ws
             /\ (skip_space s = [] \/ exists c r, skip_space s = c :: r /\ isspace c = false).
Proof.
  induction s as [|c r IH]; simpl.
  - exists []. split; [reflexivity|]. split; [constructor | left; reflexivity].
  - destruct (isspace c) eqn:E.
    + destruct IH as (ws & Hs & Hws & Hr). exists (c :: ws).
      split; [simpl; rewrite <- Hs; reflexivity|]. split; [constructor; assumption | exact Hr].
    + exists []. split; [reflexivity|]. split; [constructor | right; eauto].
Qed.

Lemma extract_some s w rest :
  extract s = Some (w, rest) ->
  is_word w /\ starts_blank rest
  /\ exists ws, is_blank ws /\ s = ws ++ w ++ rest.
Proof.
  unfold extract. intros H.
  destruct (skip_space_spec s) as (ws & Hs & Hws & _).
  pose proof (read_word_spec (skip_space s)) as (Hcat & Hw & Hr).
  destruct (read_word (skip_space s)) as [w' rest']. simpl in *.
  destruct w' as [|c w']; [discriminate|]. injection H as <- <-.
  split; [split; [discriminate | exact Hw]|]. split; [exact Hr|].
  exists ws. split; [exact Hws|]. rewrite <- Hcat. exact Hs.
Qed.

Lemma extract_none s : extract s = None -> is_blank s.
Proof.
  unfold extract. intros H.
  destruct (skip_space_spec s) as (ws & Hs & Hws & Hhd).
  destruct Hhd as [He|(c & r & He & Hc)].
  - rewrite He, app_nil_r in Hs. rewrite Hs. exact Hws.
  - rewrite He in H. simpl in H. rewrite Hc in H.
    destruct (read_word r); discriminate.
Qed.

Lemma skip_space_blank ws s : is_blank ws -> skip_space (ws ++ s) = skip_space s.
Proof.
  induction 1 as [|c ws Hc _ IH]; simpl; [reflexivity|]. rewrite Hc. exact IH.
Qed.

Lemma read_word_word t rest :
  Forall (fun c => isspace c = false) t -> starts_blank rest ->
  read_word (t ++ rest) = (t, rest).
Proof.
  intros Ht Hr. induction Ht as [|c t Hc _ IH]; simpl.
  - destruct Hr as [->|(c & r & -> & Hc)]; [reflexivity|]. simpl. rewrite Hc. reflexivity.
  - rewrite Hc, IH. reflexivity.
Qed.

Lemma extract_word ws t rest :
  is_blank ws -> is_word t -> starts_blank rest ->
  extract (ws ++ t ++ rest) = Some (t, rest).
Proof.
  intros Hws [Hne Ht] Hr. unfold extract. rewrite (skip_space_blank ws _ Hws).
  destruct t as [|c t]; [contradiction|].
  assert (Hskip : skip_space ((c :: t) ++ rest) = (c :: t) ++ rest).
  { simpl. rewrite (Forall_inv Ht). reflexivity. }
  rewrite Hskip, (read_word_word (c :: t) rest Ht Hr). reflexivity.
Qed.

Lemma extract_blank s : is_blank s -> extract s = None.
Proof.
  intros H. unfold extract.
  rewrite <- (app_nil_r s), (skip_space_blank s [] H). reflexivity.
Qed.

Lemma extract_shorter s w rest :
  extract s = Some (w, rest) -> (length rest < length s)%nat.
Proof.
  intros H. apply extract_some in H as ([Hne _] & _ & ws & _ & ->).
  rewrite !length_app. destruct w; [contradiction|]. simpl. lia.
Qed.

(** More fuel than the line has characters changes nothing. *)
Lemma split_loop_fuel n : forall m s,
  (length s < n)%nat -> (length s < m)%nat -> split_loop n s = split_loop m s.
Proof.
  induction n as [|n IH]; intros m s Hn Hm; [lia|].
  destruct m as [|m]; [lia|]. simpl.
  destruct (extract s) as [[w rest]|] eqn:E; [|reflexivity].
  pose proof (extract_shorter s w rest E). f_equal. apply IH; lia.
Qed.

Lemma split_loop_S n s :
  split_loop (S n) s =
  match extract s with
  | None => []
  | Some (w, rest) => w :: split_loop n rest
  end.
Proof. reflexivity. Qed.

Lemma splitCommand_step s :
  splitCommand s =
  match extract s with
  | None => []
  | Some (w, rest) => w :: splitCommand rest
  end.
Proof.
  unfold splitCommand. rewrite (split_loop_S (length s) s).
  destruct (extract s) as [[w rest]|] eqn:E; [|reflexivity].
  pose proof (extract_shorter s w rest E). f_equal. apply split_loop_fuel; lia.
Qed.


Lemma filter_blank ws : is_blank ws -> List.filter keep ws = [].
Proof.
  induction 1 as [|c ws Hc _ IH]; simpl; [reflexivity|].
  unfold keep at 1. rewrite Hc. exact IH.
Qed.

Lemma filter_word t : Forall (fun c => isspace c = false) t -> List.filter keep t = t.
Proof.
  induction 1 as [|c t Hc _ IH]; simpl; [reflexivity|].
  unfold keep at 1. rewrite Hc. simpl. rewrite IH. reflexivity.
Qed.

Lemma split_loop_spec n : forall s,
  (length s < n)%nat ->
  Forall is_word (split_loop n s)
  /\ concat (split_loop n s) = List.filter keep s.
Proof.
  induction n as [|n IH]; intros s Hn; [lia|]. simpl.
  destruct (extract s) as [[w rest]|] eqn:E.
  - pose proof (extract_shorter s w rest E) as Hlt.
    destruct (extract_some s w rest E) as (Hw & _ & ws & Hws & Hs).
    destruct (IH rest ltac:(lia)) as [IH1 IH2].
    split; [constructor; assumption|].
    simpl. rewrite IH2, Hs, !List.filter_app, (filter_blank ws Hws).
    rewrite (filter_word w (proj2 Hw)). reflexivity.
  - split; [constructor|]. simpl. symmetry. apply filter_blank, extract_none, E.
Qed.

(** X21. [splitCommand] returns the words of the line: each is non-empty
    and free of whitespace, together they are the line with its whitespace
    removed, and there is none exactly when the line is blank (which the
    shell then ignores). The loop ends within [length line + 1] rounds. *)
Theorem X21_splitCommand_words line :
  Forall is_word (splitCommand line)
  /\ concat (splitCommand line) = List.filter (fun c => negb (isspace c)) line
  /\ (splitCommand line = [] <-> is_blank line)
  /\ forall n, (length line < n)%nat -> split_loop n line = splitCommand line.
Proof.
  destruct (split_loop_spec (S (length line)) line ltac:(lia)) as [H1 H2].
  split; [exact H1|]. split; [exact H2|]. split.
  - rewrite splitCommand_step. split.
    + destruct (extract line) as [[w rest]|] eqn:E; [discriminate|].
      intros _. apply extract_none, E.
    + intros Hb. rewrite (extract_blank line Hb). reflexivity.
  - intros n Hn. apply split_loop_fuel; lia.
Qed.

Lemma weave_starts_blank ws r :
  is_blank ws -> (r <> [] -> ws <> []) -> starts_blank (ws ++ weave r).
Proof.
  intros Hws Hne. destruct ws as [|c ws].
  - destruct r as [|x r]; [left; reflexivity|]. exfalso. apply Hne; [discriminate|reflexivity].
  - right. exists c, (ws ++ weave r). split; [reflexivity|]. exact (Forall_inv Hws).
Qed.

(** X22. Round trip: a line made of words separated by whitespace of any
    kind and length, with any whitespace before the first and after the
    last, splits into exactly those words. *)
Theorem X22_splitCommand_round_trip lead items :
  is_blank lead -> well_spaced items ->
  splitCommand (lead ++ weave items) = map fst items.
Proof.
  revert lead. induction items as [|[t ws] r IH]; intros lead Hlead Hok.
  - simpl. rewrite app_nil_r, splitCommand_step, (extract_blank lead Hlead). reflexivity.
  - destruct Hok as (Ht & Hws & Hne & Hr). simpl.
    rewrite splitCommand_step.
    rewrite (extract_word lead t (ws ++ weave r) Hlead Ht (weave_starts_blank ws r Hws Hne)).
    rewrite (IH ws Hws Hr). reflexivity.
Qed.

Lemma X22_witness :
  let w := list_ascii_of_string in
  splitCommand (w "  "%string ++ weave [(w "init"%string, w " "%string); (w "memory"%string, w "   "%string); (w "1024"%string, w ""%string)])
  = map fst [(w "init"%string, w " "%string); (w "memory"%string, w "   "%string); (w "1024"%string, w ""%string)].
Proof.
  intros w.
  apply (X22_splitCommand_round_trip (w "  "%string)
           [(w "init"%string, w " "%string); (w "memory"%string, w "   "%string); (w "1024"%string, w ""%string)]).
  - subst w. simpl. repeat constructor.
  - subst w. simpl. unfold is_word, is_blank.
    repeat match goal with |- _ /\ _ => split end;
      try discriminate; try exact I; try (intros H; exfalso; apply H; reflexivity);
      repeat constructor.
Defined.

End ShellExtra.
